(** * Outlook 365 mail monitor: cursor tracking and SMTP forwarding

    A shallow embedding of [mail_reader.py] (class [O365MailReader]) and
    [main.py] (the poll loop and the forwarder).

    The program is effectful Python: it mutates [reader.access_token],
    rewrites the tracking file [.last_email.json], talks to the identity
    provider, to the Graph API and to an SMTP relay, prints, and raises and
    catches exceptions.  It is embedded in a state-and-exception monad over a
    [world] that holds the mutable state and the chronological trace of
    every effect.  The outside (servers, file-system faults, clock, signals)
    is an [environment] of oracles: each one answers from the trace so far,
    whose last element is the request being answered. *)

From Stdlib Require Import String Ascii List Bool ZArith Lia.
From Stdlib Require Import OrderedTypeEx Sorted.
Import ListNotations.
Open Scope string_scope.
Open Scope Z_scope.

(** ** Python values *)

(** A value read with [dict.get]: [None] when the key is absent. *)
Definition pyval := option string.

(** Python truthiness of a string-or-None: [None] and [""] are falsy. *)
Definition truthy (v : pyval) : bool :=
  match v with
  | Some s => negb (s =? "")%string
  | None => false
  end.

(** [str(v)] inside an f-string. *)
Definition py_str (v : pyval) : string :=
  match v with
  | Some s => s
  | None => "None"
  end.

(** [a != b] on string-or-None values. *)
Definition py_neq (a b : pyval) : bool :=
  match a, b with
  | Some x, Some y => negb (x =? y)%string
  | None, None => false
  | _, _ => true
  end.

(** [d.get(key, default)]. *)
Definition get_default (v : pyval) (default : string) : string :=
  match v with
  | Some s => s
  | None => default
  end.

(** ** Exceptions *)

Inductive exn_class :=
  | RequestException    (* requests.exceptions.RequestException *)
  | IOError             (* OSError *)
  | JSONDecodeError     (* json.JSONDecodeError *)
  | SMTPException       (* smtplib.SMTPException *)
  | ValueError
  | PlainException      (* Exception("...") *)
  | KeyboardInterrupt.  (* a BaseException that is not an Exception *)

(** An exception object: class, message, and the text of the HTTP response
    it carries, if any ([e.response.text]). *)
Record exn := Exn {
  exn_cls : exn_class;
  exn_msg : string;
  exn_response : option string
}.

(** [except Exception]. *)
Definition is_Exception (e : exn) : bool :=
  match exn_cls e with
  | KeyboardInterrupt => false
  | _ => true
  end.

(** [except requests.exceptions.RequestException]. *)
Definition is_RequestException (e : exn) : bool :=
  match exn_cls e with
  | RequestException => true
  | _ => false
  end.

(** [except IOError]. *)
Definition is_IOError (e : exn) : bool :=
  match exn_cls e with
  | IOError => true
  | _ => false
  end.

(** [except (json.JSONDecodeError, IOError)]. *)
Definition is_JSONDecodeError_or_IOError (e : exn) : bool :=
  match exn_cls e with
  | JSONDecodeError | IOError => true
  | _ => false
  end.

(** [except KeyboardInterrupt]. *)
Definition is_KeyboardInterrupt (e : exn) : bool :=
  match exn_cls e with
  | KeyboardInterrupt => true
  | _ => false
  end.

Inductive result (A : Type) :=
  | Ok (a : A)
  | Raise (e : exn).
Arguments Ok {A} a.
Arguments Raise {A} e.

(** ** Data model *)

(** A message of the Graph response ([$select] fields the program reads). *)
Record message := Message {
  msg_id : pyval;                    (* msg.get("id") *)
  msg_subject : pyval;               (* msg.get("subject") *)
  msg_from : pyval;                  (* from.emailAddress.address *)
  msg_toRecipients : list pyval;     (* toRecipients[].emailAddress.address *)
  msg_receivedDateTime : pyval;      (* msg.get("receivedDateTime") *)
  msg_hasAttachments : bool
}.

Record attachment := Attachment {
  att_name : pyval
}.

(** The dictionary written to the tracking file. *)
Record cursor_record := CursorRecord {
  last_received_datetime : pyval;
  last_message_id : pyval;
  last_subject : pyval;
  last_from : pyval;
  last_updated : string
}.

(** The tracking file, as [os.path.exists] and [json.load] see it: absent;
    present but not a JSON document (an empty, truncated or damaged file, on
    which [json.load] raises [JSONDecodeError]); or the object that a
    completed [json.dump] left there. *)
Inductive file_state :=
  | NoFile
  | Unparsable
  | Stored (c : cursor_record).

(** The query parameters of the message listing. *)
Record query_params := QueryParams {
  q_top : Z;                 (* "$top" *)
  q_select : string;         (* "$select" *)
  q_orderby : string;        (* "$orderby" *)
  q_filter : option string   (* "$filter", absent on a first run *)
}.

(** ** Observable effects *)

(** What the program prints; one constructor per [print] of the source. *)
Inductive output :=
  | OutTokenObtained
  | OutTokenError (e : exn)
  | OutResponse (text : string)
  | OutAttachmentsError (e : exn)
  | OutMimeError (e : exn)
  | OutTrackingReadWarning (e : exn)
  | OutTrackingUpdated
  | OutTrackingSaveWarning (e : exn)
  | OutFetchingSince (ts : string)
  | OutFirstRun
  | OutFound (n : nat)
  | OutNoNewMessages
  | OutMessagesError (e : exn)
  | OutMimeFailed (e : exn)
  | OutForwarded
  | OutSmtpFailed (e : exn)
  | OutSeparator
  | OutFrom (sender : string)
  | OutTo (to_addr : string)
  | OutSubject (subject : string)
  | OutAttachments (n : nat) (names : list string)
  | OutHasAttachments
  | OutCycleError (e : exn)
  | OutMonitorStarted
  | OutMonitorStopped
  | OutTotalChecks (n : nat)
  | OutTotalNewEmails (n : nat)
  | OutFatalError (e : exn).

Inductive event :=
  | EvTokenPost (endpoint : string) (payload : list (string * string))
  | EvGetMessages (url authorization : string) (params : query_params)
  | EvGetAttachments (url authorization : string)
  | EvGetMime (url authorization : string)
  | EvOpenRead
  | EvOpenWrite
  | EvDump (data : cursor_record)
  | EvNow
  | EvSmtpConnect (host : string) (port : Z) (timeout : Z)
  | EvSmtpStartTls
  | EvSmtpLogin (username password : string)
  | EvSmtpSendmail (from_addr : string) (to_addrs : list string) (mime : string)
  | EvSmtpQuit
  | EvSleep (seconds : Z)
  | EvPrint (o : output).

(** The mutable state: the reader's token, the tracking file, the counters
    of [main], and the trace of effects, oldest first. *)
Record world := World {
  access_token : pyval;
  tracking_file : file_state;
  run_count : nat;
  new_emails_count : nat;
  trace : list event
}.

(** The outside world.  Every oracle is asked with the trace whose last
    event is the call it answers. *)
Record environment := Environment {
  (* requests.post(token_endpoint).raise_for_status().json().get("access_token") *)
  token_response : list event -> result pyval;
  (* requests.get(messages url).raise_for_status().json().get("value", []) *)
  messages_response : list event -> result (list message);
  attachments_response : list event -> result (list attachment);
  (* requests.get(.../$value).raise_for_status().content *)
  mime_response : list event -> result string;
  (* open(tracking_file, 'r'), open(tracking_file, 'w'), json.dump *)
  open_read_fault : list event -> option exn;
  open_write_fault : list event -> option exn;
  dump_fault : list event -> option exn;
  (* datetime.now().isoformat() *)
  clock : list event -> string;
  (* the SMTP step just started: connect, starttls, login, sendmail, quit *)
  smtp_fault : list event -> option exn;
  (* a signal that arrives during time.sleep *)
  sleep_fault : list event -> option exn
}.

(** Module-level configuration of [main.py], after [os.getenv] parsing. *)
Record config := Config {
  CLIENT_ID : string;
  TENANT_ID : string;
  CLIENT_SECRET : string;
  MAILBOX_EMAIL : string;
  LOOP_DELAY_SECONDS : Z;
  ENABLE_CONTINUOUS_LOOP : bool;
  ENABLE_SMTP_FORWARD : bool;
  SMTP_HOST : string;
  SMTP_PORT : Z;
  SMTP_USERNAME : string;
  SMTP_PASSWORD : string;
  SMTP_USE_TLS : bool;
  SMTP_FROM : string;
  SMTP_TO : list string
}.

(** ** The monad: state plus exceptions; effects survive a raise *)

Definition M (A : Type) : Type := world -> result A * world.

Definition ret {A} (a : A) : M A := fun w => (Ok a, w).

Definition bind {A B} (m : M A) (k : A -> M B) : M B :=
  fun w =>
    match m w with
    | (Ok a, w') => k a w'
    | (Raise e, w') => (Raise e, w')
    end.

Definition raise {A} (e : exn) : M A := fun w => (Raise e, w).

(** [try: m  except <handles> as e: h e]. *)
Definition try_except {A} (m : M A) (handles : exn -> bool) (h : exn -> M A)
  : M A :=
  fun w =>
    match m w with
    | (Ok a, w') => (Ok a, w')
    | (Raise e, w') => if handles e then h e w' else (Raise e, w')
    end.

(** [with ... : body]: [on_exit] runs whether or not [body] raised; an
    exception of [on_exit] replaces the outcome of [body]. *)
Definition with_exit {A} (body : M A) (on_exit : M unit) : M A :=
  fun w =>
    let (r, w') := body w in
    match on_exit w' with
    | (Ok _, w'') => (r, w'')
    | (Raise e, w'') => (Raise e, w'')
    end.

Declare Scope monad_scope.
Delimit Scope monad_scope with monad.
Notation "x <- m ;; k" := (bind m (fun x => k))
  (at level 61, m at next level, right associativity) : monad_scope.
Notation "m ;; k" := (bind m (fun _ => k))
  (at level 61, right associativity) : monad_scope.
Open Scope monad_scope.

Definition set_trace (w : world) (t : list event) : world :=
  World (access_token w) (tracking_file w) (run_count w) (new_emails_count w) t.

Definition set_access_token (v : pyval) : M unit :=
  fun w =>
    (Ok tt, World v (tracking_file w) (run_count w) (new_emails_count w) (trace w)).

Definition set_tracking_file (f : file_state) : M unit :=
  fun w =>
    (Ok tt, World (access_token w) f (run_count w) (new_emails_count w) (trace w)).

Definition set_counters (runs news : nat) : M unit :=
  fun w =>
    (Ok tt, World (access_token w) (tracking_file w) runs news (trace w)).

Definition get_world : M world := fun w => (Ok w, w).

(** Record an effect. *)
Definition emit (e : event) : M unit :=
  fun w => (Ok tt, set_trace w (trace w ++ [e])).

Definition print (o : output) : M unit := emit (EvPrint o).

(** Perform a call: record it, then take the environment's answer. *)
Definition call {A} (e : event) (oracle : list event -> result A) : M A :=
  emit e ;; (fun w => (oracle (trace w), w)).

(** A call that returns nothing but may fail. *)
Definition step (e : event) (fault : list event -> option exn) : M unit :=
  emit e ;;
  (fun w =>
     match fault (trace w) with
     | Some x => (Raise x, w)
     | None => (Ok tt, w)
     end).

Definition when (b : bool) (m : M unit) : M unit :=
  if b then m else ret tt.

(** [for x in xs: body x]. *)
Fixpoint for_each {A} (xs : list A) (body : A -> M unit) : M unit :=
  match xs with
  | [] => ret tt
  | x :: rest => body x ;; for_each rest body
  end.

(** ** mail_reader.py: class O365MailReader *)

(** [self.silent_mode]: set to [True] by [__init__] and never assigned
    again. *)
Definition silent_mode : bool := true.

(** [self.scopes]. *)
Definition scopes : list string := ["https://graph.microsoft.com/.default"].

Section Program.

Context (env : environment) (cfg : config).

(** [self.token_endpoint]. *)
Definition token_endpoint : string :=
  "https://login.microsoftonline.com/" ++ TENANT_ID cfg ++ "/oauth2/v2.0/token".

Definition read_access_token : M pyval := fun w => (Ok (access_token w), w).

Definition print_response (e : exn) : M unit :=
  match exn_response e with
  | Some text => print (OutResponse text)
  | None => ret tt
  end.

Definition get_access_token : M string :=
  let payload :=
    [("client_id", CLIENT_ID cfg);
     ("scope", String.concat " " scopes);
     ("client_secret", CLIENT_SECRET cfg);
     ("grant_type", "client_credentials")] in
  try_except
    (tok <- call (EvTokenPost token_endpoint payload) (token_response env) ;;
     set_access_token tok ;;
     if negb (truthy tok)
     then raise (Exn PlainException "Failed to retrieve access token" None)
     else
       when (negb silent_mode) (print OutTokenObtained) ;;
       ret (py_str tok))
    is_RequestException
    (fun e =>
       print (OutTokenError e) ;;
       print_response e ;;
       raise e).

(** [if not self.access_token: self.get_access_token()]. *)
Definition ensure_access_token : M unit :=
  tok <- read_access_token ;;
  if negb (truthy tok) then get_access_token ;; ret tt else ret tt.

Definition bearer : M string :=
  tok <- read_access_token ;;
  ret ("Bearer " ++ py_str tok).

Definition get_attachments (message_id : string) : M (list attachment) :=
  ensure_access_token ;;
  let url := "https://graph.microsoft.com/v1.0/users/" ++ MAILBOX_EMAIL cfg
             ++ "/messages/" ++ message_id ++ "/attachments" in
  authorization <- bearer ;;
  try_except
    (call (EvGetAttachments url authorization) (attachments_response env))
    is_RequestException
    (fun e => print (OutAttachmentsError e) ;; raise e).

Definition get_message_mime (message_id : string) : M string :=
  ensure_access_token ;;
  let url := "https://graph.microsoft.com/v1.0/users/" ++ MAILBOX_EMAIL cfg
             ++ "/messages/" ++ message_id ++ "/$value" in
  authorization <- bearer ;;
  try_except
    (call (EvGetMime url authorization) (mime_response env))
    is_RequestException
    (fun e => print (OutMimeError e) ;; raise e).

(** Reading the tracking file inside the [try] of
    [load_last_email_timestamp]: [open] may fail, [json.load] raises on a
    file that is not JSON. *)
Definition read_tracking_file : M (pyval * pyval) :=
  step EvOpenRead (open_read_fault env) ;;
  w <- get_world ;;
  match tracking_file w with
  | Stored data => ret (last_received_datetime data, last_message_id data)
  | Unparsable => raise (Exn JSONDecodeError "Expecting value" None)
  | NoFile => raise (Exn IOError "No such file or directory" None)
  end.

Definition load_last_email_timestamp : M (pyval * pyval) :=
  w <- get_world ;;
  match tracking_file w with
  | NoFile => ret (None, None)
  | _ =>
      try_except
        read_tracking_file
        is_JSONDecodeError_or_IOError
        (fun e => print (OutTrackingReadWarning e) ;; ret (None, None))
  end.

(** [open(self.tracking_file, 'w')] truncates the file in place as soon as
    it succeeds; [json.dump] then writes the document into it. *)
Definition save_last_email_timestamp (msg : message) : M unit :=
  try_except
    (emit EvNow ;;
     w <- get_world ;;
     let data :=
       CursorRecord (msg_receivedDateTime msg) (msg_id msg) (msg_subject msg)
                    (msg_from msg) (clock env (trace w)) in
     step EvOpenWrite (open_write_fault env) ;;
     set_tracking_file Unparsable ;;
     step (EvDump data) (dump_fault env) ;;
     set_tracking_file (Stored data) ;;
     when (negb silent_mode) (print OutTrackingUpdated))
    is_IOError
    (fun e => print (OutTrackingSaveWarning e)).

Definition build_params (limit : Z) (last_timestamp : pyval) : query_params :=
  QueryParams
    limit
    "id,subject,from,toRecipients,receivedDateTime,sender,hasAttachments,isRead,bodyPreview"
    "receivedDateTime desc"
    (if truthy last_timestamp
     then Some ("receivedDateTime gt " ++ py_str last_timestamp)
     else None).

(** The list comprehension guarded by [if last_message_id and messages]. *)
Definition drop_last_processed (last_message_id : pyval) (messages : list message)
  : list message :=
  if truthy last_message_id && negb (Nat.eqb (length messages) 0)
  then filter (fun msg => py_neq (msg_id msg) last_message_id) messages
  else messages.

Definition get_new_messages (folder : string) (limit : Z) : M (list message) :=
  ensure_access_token ;;
  cursor <- load_last_email_timestamp ;;
  let last_timestamp := fst cursor in
  let last_message_id := snd cursor in
  let url := "https://graph.microsoft.com/v1.0/users/" ++ MAILBOX_EMAIL cfg
             ++ "/mailFolders/" ++ folder ++ "/messages" in
  authorization <- bearer ;;
  let params := build_params limit last_timestamp in
  (if truthy last_timestamp
   then when (negb silent_mode) (print (OutFetchingSince (py_str last_timestamp)))
   else when (negb silent_mode) (print OutFirstRun)) ;;
  try_except
    (response <- call (EvGetMessages url authorization params)
                      (messages_response env) ;;
     let messages := drop_last_processed last_message_id response in
     match messages with
     | newest :: _ =>
         when (negb silent_mode) (print (OutFound (length messages))) ;;
         save_last_email_timestamp newest
     | [] => when (negb silent_mode) (print OutNoNewMessages)
     end ;;
     ret messages)
    is_RequestException
    (fun e =>
       print (OutMessagesError e) ;;
       print_response e ;;
       raise e).

(** ** main.py *)

(** [_normalize_recipients] on a list ([SMTP_TO] is always the list built by
    [_get_list]): the falsy addresses are dropped. *)
Definition _normalize_recipients (value : list string) : list string :=
  filter (fun addr => negb (addr =? "")%string) value.

Definition is_empty {A} (l : list A) : bool :=
  match l with
  | [] => true
  | _ => false
  end.

(** The body of [with smtplib.SMTP(...) as smtp:]. *)
Definition smtp_session (recipients : list string) (mime_content : string)
  : M unit :=
  when (SMTP_USE_TLS cfg) (step EvSmtpStartTls (smtp_fault env)) ;;
  when (negb (SMTP_USERNAME cfg =? "")%string)
       (step (EvSmtpLogin (SMTP_USERNAME cfg) (SMTP_PASSWORD cfg)) (smtp_fault env)) ;;
  step (EvSmtpSendmail (SMTP_FROM cfg) recipients mime_content) (smtp_fault env) ;;
  print OutForwarded.

(** The first [try] of [forward_message]: the raw content, or [None] after
    the failure has been printed (the [return] of the handler). *)
Definition try_get_message_mime (message_id : string) : M (option string) :=
  try_except
    (mime_content <- get_message_mime message_id ;; ret (Some mime_content))
    is_Exception
    (fun mime_err => print (OutMimeFailed mime_err) ;; ret None).

(** The second [try] of [forward_message]: one SMTP session. *)
Definition try_smtp_forward (recipients : list string) (mime_content : string)
  : M unit :=
  try_except
    (step (EvSmtpConnect (SMTP_HOST cfg) (SMTP_PORT cfg) 30) (smtp_fault env) ;;
     with_exit (smtp_session recipients mime_content)
               (step EvSmtpQuit (smtp_fault env)))
    is_Exception
    (fun smtp_err => print (OutSmtpFailed smtp_err)).

Definition forward_message (msg : message) : M unit :=
  let recipients := _normalize_recipients (SMTP_TO cfg) in
  if negb (ENABLE_SMTP_FORWARD cfg) || (SMTP_HOST cfg =? "")%string
     || is_empty recipients
  then ret tt
  else
    let message_id := msg_id msg in
    if negb (truthy message_id)
    then ret tt
    else
      fetched <- try_get_message_mime (py_str message_id) ;;
      match fetched with
      | None => ret tt
      | Some mime_content => try_smtp_forward recipients mime_content
      end.

(** The display part of the loop body: sender, recipient, subject, and
    the attachment names when the message has attachments. *)
Definition show_message (msg : message) : M unit :=
  let sender := get_default (msg_from msg) "Unknown" in
  let to_addr :=
    match msg_toRecipients msg with
    | first :: _ => get_default first "Unknown"
    | [] => "Unknown"
    end in
  let subject := get_default (msg_subject msg) "[No Subject]" in
  print OutSeparator ;;
  print (OutFrom sender) ;;
  print (OutTo to_addr) ;;
  print (OutSubject subject) ;;
  when (msg_hasAttachments msg)
       (let message_id := msg_id msg in
        if truthy message_id
        then
          try_except
            (attachments <- get_attachments (py_str message_id) ;;
             let att_names :=
               map (fun att => get_default (att_name att) "unknown") attachments in
             print (OutAttachments (length attachments) att_names))
            is_Exception
            (fun _ => print OutHasAttachments)
        else print OutHasAttachments).

(** The body of [for msg in messages:]: display, then forward at once. *)
Definition process_message (msg : message) : M unit :=
  show_message msg ;;
  forward_message msg.

Definition check_for_new_emails : M (list message) :=
  try_except
    (ensure_access_token ;;
     messages <- get_new_messages "inbox" 50 ;;
     for_each messages process_message ;;
     ret messages)
    is_Exception
    (fun e => print (OutCycleError e) ;; ret []).

(** [time.sleep(seconds)]: a negative length is a [ValueError]; the wait can
    be cut short by a signal. *)
Definition sleep (seconds : Z) : M unit :=
  if seconds <? 0
  then raise (Exn ValueError "sleep length must be non-negative" None)
  else step (EvSleep seconds) (sleep_fault env).

(** How the [while True] loop stands after a number of iterations. *)
Inductive loop_status :=
  | LoopLeft        (* [break]: single-pass mode *)
  | LoopRunning.    (* still iterating *)

(** [fuel] iterations of the [while True] loop of [main]. *)
Fixpoint main_loop (fuel : nat) : M loop_status :=
  match fuel with
  | O => ret LoopRunning
  | S fuel' =>
      w <- get_world ;;
      set_counters (S (run_count w)) (new_emails_count w) ;;
      messages <- check_for_new_emails ;;
      w <- get_world ;;
      when (negb (is_empty messages))
           (set_counters (run_count w)
                         (new_emails_count w + length messages)%nat) ;;
      if negb (ENABLE_CONTINUOUS_LOOP cfg)
      then ret LoopLeft
      else
        sleep (LOOP_DELAY_SECONDS cfg) ;;
        main_loop fuel'
  end.

(** [main()], observed after at most [fuel] iterations: the exit code, or
    [None] while the loop is still running.  [main] builds a fresh reader,
    which holds no token.  The [try] has two clauses: [except
    KeyboardInterrupt] prints the counters and falls through to [return 0];
    [except Exception] prints the error and returns 1. *)
Definition main (fuel : nat) : world -> option Z * world :=
  fun w =>
    match (print OutMonitorStarted ;;
           set_counters 0 0 ;;
           set_access_token None ;;
           try_except
             (status <- main_loop fuel ;;
              match status with
              | LoopLeft => ret (Some 0)
              | LoopRunning => ret None
              end)
             (fun e => is_KeyboardInterrupt e || is_Exception e)
             (fun e =>
                if is_KeyboardInterrupt e
                then
                  w <- get_world ;;
                  print OutMonitorStopped ;;
                  print (OutTotalChecks (run_count w)) ;;
                  print (OutTotalNewEmails (new_emails_count w)) ;;
                  ret (Some 0)
                else
                  print (OutFatalError e) ;;
                  ret (Some 1))) w
    with
    | (Ok code, w') => (code, w')
    | (Raise _, w') => (None, w')
    end.

End Program.

(** ** The Graph API contract *)

(** Timestamps are the [receivedDateTime] strings of Graph,
    [YYYY-MM-DDTHH:MM:SSZ]: on that fixed-width format the chronological
    order is the lexicographic order of the strings. *)
Definition ts_ltb (a b : string) : bool := String.ltb a b.
Definition ts_leb (a b : string) : bool := String.leb a b.

(** Order on optional timestamps; a missing one is below every other. *)
Definition pyval_leb (a b : pyval) : bool :=
  match a, b with
  | None, _ => true
  | Some _, None => false
  | Some x, Some y => ts_leb x y
  end.

Fixpoint strip_prefix (p s : string) : option string :=
  match p, s with
  | EmptyString, _ => Some s
  | String a p', String b s' =>
      if Ascii.eqb a b then strip_prefix p' s' else None
  | String _ _, EmptyString => None
  end.

(** The threshold of an OData filter [receivedDateTime gt <timestamp>]. *)
Definition gt_threshold (f : string) : option string :=
  strip_prefix "receivedDateTime gt " f.

(** Whether a message passes the [$filter] of a query, as the server
    evaluates it: strictly after the threshold. *)
Definition matches_filter (q : query_params) (m : message) : bool :=
  match q_filter q with
  | None => true
  | Some f =>
      match gt_threshold f with
      | Some t =>
          match msg_receivedDateTime m with
          | Some r => ts_ltb t r
          | None => false
          end
      | None => true
      end
  end.

(** [a] is listed before [b] under [$orderby=receivedDateTime desc]. *)
Definition newer_or_equal (a b : message) : Prop :=
  pyval_leb (msg_receivedDateTime b) (msg_receivedDateTime a) = true.

(** A server that keeps the contract of the listing request: every listed
    message carries a timestamp, passes the filter, and the list is
    newest first. *)
Definition graph_contract (env : environment) : Prop :=
  forall tr url authorization q response,
    messages_response env (tr ++ [EvGetMessages url authorization q]) = Ok response ->
    Forall (fun m => truthy (msg_receivedDateTime m) = true
                     /\ matches_filter q m = true) response
    /\ StronglySorted newer_or_equal response.

(** A file system on which reads and writes of the tracking file do not
    fail. *)
Definition reliable_files (env : environment) : Prop :=
  forall tr,
    open_read_fault env tr = None
    /\ open_write_fault env tr = None
    /\ dump_fault env tr = None.

(** Whatever the environment raises is an [Exception] (no signal arrives). *)
Definition only_exceptions (env : environment) : Prop :=
  forall tr,
    (forall e, token_response env tr = Raise e -> is_Exception e = true)
    /\ (forall e, messages_response env tr = Raise e -> is_Exception e = true)
    /\ (forall e, attachments_response env tr = Raise e -> is_Exception e = true)
    /\ (forall e, mime_response env tr = Raise e -> is_Exception e = true)
    /\ (forall e, open_read_fault env tr = Some e -> is_Exception e = true)
    /\ (forall e, open_write_fault env tr = Some e -> is_Exception e = true)
    /\ (forall e, dump_fault env tr = Some e -> is_Exception e = true)
    /\ (forall e, smtp_fault env tr = Some e -> is_Exception e = true)
    /\ (forall e, sleep_fault env tr = Some e -> is_Exception e = true).

(** ** Reading the trace *)

Definition is_token_post (e : event) : bool :=
  match e with
  | EvTokenPost _ _ => true
  | _ => false
  end.

(** Number of credential exchanges so far. *)
Definition token_posts (tr : list event) : nat :=
  length (filter is_token_post tr).

Definition is_graph_get (e : event) : bool :=
  match e with
  | EvGetMessages _ _ _ | EvGetAttachments _ _ | EvGetMime _ _ => true
  | _ => false
  end.

(** Number of mailbox API requests so far. *)
Definition graph_gets (tr : list event) : nat :=
  length (filter is_graph_get tr).

(** The parameters of the message listings so far, in order. *)
Fixpoint queries (tr : list event) : list query_params :=
  match tr with
  | [] => []
  | EvGetMessages _ _ q :: rest => q :: queries rest
  | _ :: rest => queries rest
  end.

(** The URLs of the raw-content fetches so far, in order: one per forward
    attempt. *)
Fixpoint mime_fetches (tr : list event) : list string :=
  match tr with
  | [] => []
  | EvGetMime url _ :: rest => url :: mime_fetches rest
  | _ :: rest => mime_fetches rest
  end.

(** The messages submitted to the relay so far, in order. *)
Fixpoint sendmails (tr : list event) : list string :=
  match tr with
  | [] => []
  | EvSmtpSendmail _ _ mime :: rest => mime :: sendmails rest
  | _ :: rest => sendmails rest
  end.

(** Effects of the credential exchange ([get_access_token]). *)
Definition is_token_event (e : event) : bool :=
  match e with
  | EvTokenPost _ _ => true
  | EvPrint (OutTokenObtained | OutTokenError _ | OutResponse _) => true
  | _ => false
  end.

(** Effects of loading and saving the cursor. *)
Definition is_file_event (e : event) : bool :=
  match e with
  | EvOpenRead | EvNow | EvOpenWrite | EvDump _ => true
  | EvPrint (OutTrackingReadWarning _ | OutTrackingUpdated
            | OutTrackingSaveWarning _) => true
  | _ => false
  end.

(** Effects of the query itself ([get_new_messages] with the load and the
    save of the cursor). *)
Definition is_query_event (e : event) : bool :=
  match e with
  | EvOpenRead | EvGetMessages _ _ _ | EvNow | EvOpenWrite | EvDump _ => true
  | EvPrint (OutTrackingReadWarning _ | OutTrackingUpdated
            | OutTrackingSaveWarning _ | OutFetchingSince _ | OutFirstRun
            | OutFound _ | OutNoNewMessages | OutMessagesError _
            | OutResponse _) => true
  | _ => false
  end.

(** Effects of displaying a message ([show_message]). *)
Definition is_display_event (e : event) : bool :=
  match e with
  | EvGetAttachments _ _ => true
  | EvPrint (OutSeparator | OutFrom _ | OutTo _ | OutSubject _
            | OutAttachments _ _ | OutHasAttachments
            | OutAttachmentsError _) => true
  | _ => false
  end.

(** Effects of forwarding a message ([forward_message]). *)
Definition is_forward_event (e : event) : bool :=
  match e with
  | EvGetMime _ _
  | EvSmtpConnect _ _ _ | EvSmtpStartTls | EvSmtpLogin _ _
  | EvSmtpSendmail _ _ _ | EvSmtpQuit => true
  | EvPrint (OutMimeError _ | OutMimeFailed _ | OutForwarded
            | OutSmtpFailed _) => true
  | _ => false
  end.

(** Display and forwarding effects: what [main.py] does with a batch. *)
Definition is_processing (e : event) : bool :=
  is_display_event e || is_forward_event e.

(** Effects of an SMTP session. *)
Definition is_smtp_event (e : event) : bool :=
  match e with
  | EvSmtpConnect _ _ _ | EvSmtpStartTls | EvSmtpLogin _ _
  | EvSmtpSendmail _ _ _ | EvSmtpQuit => true
  | EvPrint (OutForwarded | OutSmtpFailed _) => true
  | _ => false
  end.

Definition is_mime_fetch (e : event) : bool :=
  match e with
  | EvGetMime _ _ => true
  | _ => false
  end.

(** The outcome the forwarder prints for a message: forwarded, or one of
    its two failure lines. *)
Definition is_forward_report (e : event) : bool :=
  match e with
  | EvPrint (OutForwarded | OutMimeFailed _ | OutSmtpFailed _) => true
  | _ => false
  end.

Definition forward_reports (tr : list event) : nat :=
  length (filter is_forward_report tr).

(** The URL of the raw content of a message. *)
Definition mime_url_of_id (cfg : config) (message_id : string) : string :=
  "https://graph.microsoft.com/v1.0/users/" ++ MAILBOX_EMAIL cfg
  ++ "/messages/" ++ message_id ++ "/$value".

Definition mime_url (cfg : config) (m : message) : string :=
  mime_url_of_id cfg (py_str (msg_id m)).

(** The record [save_last_email_timestamp] builds from a message. *)
Definition cursor_of (m : message) (now : string) : cursor_record :=
  CursorRecord (msg_receivedDateTime m) (msg_id m) (msg_subject m)
               (msg_from m) now.

(** What [load_last_email_timestamp] returns from a readable file:
    [(last_timestamp, last_message_id)]. *)
Definition cursor_in (f : file_state) : pyval * pyval :=
  match f with
  | Stored c => (last_received_datetime c, last_message_id c)
  | _ => (None, None)
  end.

(** The listing request of [get_new_messages], sent from world [w] with the
    loaded timestamp [last_timestamp]. *)
Definition listing_request (cfg : config) (folder : string) (limit : Z)
  (last_timestamp : pyval) (w : world) : event :=
  EvGetMessages
    ("https://graph.microsoft.com/v1.0/users/" ++ MAILBOX_EMAIL cfg
     ++ "/mailFolders/" ++ folder ++ "/messages")
    ("Bearer " ++ py_str (access_token w))
    (build_params limit last_timestamp).

(** [last_received_datetime] as the next cycle will load it. *)
Definition stored_timestamp (f : file_state) : pyval :=
  match f with
  | Stored c => last_received_datetime c
  | _ => None
  end.

(** The forwarder is switched on and has somewhere to send to. *)
Definition forwarding_enabled (cfg : config) : Prop :=
  ENABLE_SMTP_FORWARD cfg = true
  /\ SMTP_HOST cfg <> ""
  /\ _normalize_recipients (SMTP_TO cfg) <> [].

(** ** The runs of the query *)

(** The world after the effects [evs] have been recorded. *)
Definition emitted (w : world) (evs : list event) : world :=
  fold_left (fun w e => snd (emit e w)) evs w.

(** What the [except RequestException] handler of [get_new_messages]
    prints before it re-raises [e]; nothing for other exceptions, which
    pass through. *)
Definition failure_report (e : exn) : list event :=
  if is_RequestException e
  then EvPrint (OutMessagesError e)
       :: match exn_response e with
          | Some text => [EvPrint (OutResponse text)]
          | None => []
          end
  else [].

(** The ways a call of [get_new_messages] can go, one constructor per path
    through its body; [get_new_messages_run] below shows that every call
    follows one of them. *)
Inductive query_run (env : environment) (cfg : config) (folder : string)
  (limit : Z) (w : world) : result (list message) -> world -> Prop :=
  | run_token_failed : forall e w0,
      ensure_access_token env cfg w = (Raise e, w0) ->
      query_run env cfg folder limit w (Raise e) w0
  | run_load_raised : forall w0 e w1,
      ensure_access_token env cfg w = (Ok tt, w0) ->
      load_last_email_timestamp env w0 = (Raise e, w1) ->
      query_run env cfg folder limit w (Raise e) w1
  | run_request_failed : forall w0 cursor w1 e,
      ensure_access_token env cfg w = (Ok tt, w0) ->
      load_last_email_timestamp env w0 = (Ok cursor, w1) ->
      let w2 := emitted w1 [listing_request cfg folder limit (fst cursor) w1] in
      messages_response env (trace w2) = Raise e ->
      query_run env cfg folder limit w (Raise e) (emitted w2 (failure_report e))
  | run_nothing_new : forall w0 cursor w1 response,
      ensure_access_token env cfg w = (Ok tt, w0) ->
      load_last_email_timestamp env w0 = (Ok cursor, w1) ->
      let w2 := emitted w1 [listing_request cfg folder limit (fst cursor) w1] in
      messages_response env (trace w2) = Ok response ->
      drop_last_processed (snd cursor) response = [] ->
      query_run env cfg folder limit w (Ok []) w2
  | run_batch : forall w0 cursor w1 response newest rest w3,
      ensure_access_token env cfg w = (Ok tt, w0) ->
      load_last_email_timestamp env w0 = (Ok cursor, w1) ->
      let w2 := emitted w1 [listing_request cfg folder limit (fst cursor) w1] in
      messages_response env (trace w2) = Ok response ->
      drop_last_processed (snd cursor) response = newest :: rest ->
      save_last_email_timestamp env newest w2 = (Ok tt, w3) ->
      query_run env cfg folder limit w (Ok (newest :: rest)) w3
  | run_save_raised : forall w0 cursor w1 response newest rest e w3,
      ensure_access_token env cfg w = (Ok tt, w0) ->
      load_last_email_timestamp env w0 = (Ok cursor, w1) ->
      let w2 := emitted w1 [listing_request cfg folder limit (fst cursor) w1] in
      messages_response env (trace w2) = Ok response ->
      drop_last_processed (snd cursor) response = newest :: rest ->
      save_last_email_timestamp env newest w2 = (Raise e, w3) ->
      query_run env cfg folder limit w (Raise e) (emitted w3 (failure_report e)).

(** ** Sequences of cycles *)

(** The world after [n] polling cycles. *)
Fixpoint run_cycles (env : environment) (cfg : config) (n : nat) (w : world)
  : world :=
  match n with
  | O => w
  | S k => snd (check_for_new_emails env cfg (run_cycles env cfg k w))
  end.

(** [later w w']: [w'] is reached from [w] by polling cycles and by anything
    else that leaves the tracking file alone (displaying and forwarding a
    batch, sleeping, the process stopping and being started again). *)
Inductive later (env : environment) (cfg : config) : world -> world -> Prop :=
  | later_now : forall w, later env cfg w w
  | later_cycle : forall w w',
      later env cfg w w' ->
      later env cfg w (snd (check_for_new_emails env cfg w'))
  | later_other : forall w w' w'',
      later env cfg w w' ->
      tracking_file w'' = tracking_file w' ->
      later env cfg w w''.

(** ** A reference environment

    A Graph server over a mailbox that is kept newest first and may grow
    between listings, an identity provider that always grants the same
    token, a relay that accepts everything, and no faults.  It is the
    environment of the worked examples below; single oracles are replaced
    to inject a failure. *)

Definition no_fault : list event -> option exn := fun _ => None.

(** The listing a server computes from its mailbox. *)
Definition graph_list (mailbox : list message) (q : query_params)
  : list message :=
  firstn (Z.to_nat (q_top q))
         (filter (fun m => truthy (msg_receivedDateTime m) && matches_filter q m)
                 mailbox).

(** [mailbox_at k]: the mailbox when [k] listings have been answered. *)
Definition graph_server (mailbox_at : nat -> list message)
  : list event -> result (list message) :=
  fun tr =>
    match last tr EvNow with
    | EvGetMessages _ _ q =>
        Ok (graph_list (mailbox_at (length (queries tr) - 1)%nat) q)
    | _ => Raise (Exn RequestException "400 Client Error" (Some "Bad Request"))
    end.

Definition reference_env (mailbox_at : nat -> list message) : environment :=
  Environment
    (fun _ => Ok (Some "token-1"))
    (graph_server mailbox_at)
    (fun _ => Ok [Attachment (Some "report.pdf")])
    (fun tr => match last tr EvNow with
               | EvGetMime url _ => Ok ("MIME of " ++ url)
               | _ => Ok ""
               end)
    no_fault no_fault no_fault
    (fun _ => "2024-01-03T00:00:00")
    no_fault no_fault.

Definition m1 : message :=
  Message (Some "m1") (Some "first") (Some "alice@example.com")
          [Some "box@example.com"] (Some "2024-01-01T10:00:00Z") false.

Definition m2 : message :=
  Message (Some "m2") (Some "second") (Some "bob@example.com")
          [Some "box@example.com"] (Some "2024-01-02T10:00:00Z") false.

(** Received in the same second as [m2]. *)
Definition m2_tie : message :=
  Message (Some "m2b") (Some "second, again") (Some "carol@example.com")
          [Some "box@example.com"] (Some "2024-01-02T10:00:00Z") false.

Definition m3 : message :=
  Message (Some "m3") (Some "third") (Some "dave@example.com")
          [Some "box@example.com"] (Some "2024-01-03T10:00:00Z") true.

(** A configuration with forwarding on. *)
Definition forwarding_cfg : config :=
  Config "client" "tenant" "secret" "box@example.com"
         5 true
         true "smtp.example.com" 587 "user" "password" true
         "monitor@example.com" ["ops@example.com"].

(** The default configuration: forwarding off. *)
Definition default_cfg : config :=
  Config "client" "tenant" "secret" "box@example.com"
         5 true
         false "" 587 "" "" true "" [].

(** A freshly deployed monitor: no token, no tracking file. *)
Definition fresh_world : world := World None NoFile 0 0 [].

(** A monitor that has processed [m2]. *)
Definition world_after_m2 : world :=
  World (Some "token-1")
        (Stored (cursor_of m2 "2024-01-02T10:00:05")) 1 2 [].

(** The answer of the identity provider to wrong credentials. *)
Definition rejected : exn :=
  Exn RequestException "401 Client Error: Unauthorized"
      (Some "invalid_client").

(** An identity provider that rejects the credentials, every time. *)
Definition bad_credentials_env : environment :=
  Environment
    (fun _ => Raise rejected)
    (graph_server (fun _ => [m2; m1]))
    (fun _ => Ok [])
    (fun _ => Ok "")
    no_fault no_fault no_fault
    (fun _ => "2024-01-03T00:00:00")
    no_fault no_fault.

Definition relay_down : exn :=
  Exn SMTPException "Connection refused" None.

(** A relay that refuses every connection. *)
Definition relay_down_env (mailbox_at : nat -> list message) : environment :=
  Environment
    (fun _ => Ok (Some "token-1"))
    (graph_server mailbox_at)
    (fun _ => Ok [Attachment (Some "report.pdf")])
    (fun tr => match last tr EvNow with
               | EvGetMime url _ => Ok ("MIME of " ++ url)
               | _ => Ok ""
               end)
    no_fault no_fault no_fault
    (fun _ => "2024-01-03T00:00:00")
    (fun tr => match last tr EvNow with
               | EvSmtpConnect _ _ _ => Some relay_down
               | _ => None
               end)
    no_fault.

(** The signal that stops the process. *)
Definition stopped : exn := Exn KeyboardInterrupt "" None.

(** The process is stopped while [json.dump] is writing: the signal is
    delivered after [open] has truncated the file. *)
Definition stopped_during_dump_env (mailbox_at : nat -> list message)
  : environment :=
  Environment
    (fun _ => Ok (Some "token-1"))
    (graph_server mailbox_at)
    (fun _ => Ok [])
    (fun _ => Ok "")
    no_fault no_fault
    (fun _ => Some stopped)
    (fun _ => "2024-01-03T00:00:00")
    no_fault no_fault.

(** The operator presses Ctrl+C during the second wait. *)
Definition interrupted_env (mailbox_at : nat -> list message) : environment :=
  Environment
    (fun _ => Ok (Some "token-1"))
    (graph_server mailbox_at)
    (fun _ => Ok [])
    (fun _ => Ok "")
    no_fault no_fault no_fault
    (fun _ => "2024-01-03T00:00:00")
    no_fault
    (fun tr => if Nat.leb 2 (length (filter (fun e => match e with
                                                      | EvSleep _ => true
                                                      | _ => false
                                                      end) tr))
               then Some stopped else None).

(** A configuration whose delay [time.sleep] rejects. *)
Definition negative_delay_cfg : config :=
  Config "client" "tenant" "secret" "box@example.com"
         (-1) true
         false "" 587 "" "" true "" [].

(** A server that answers every listing with [response], whatever the
    filter says: the timestamp-collision case, in which a message that was
    already processed comes back. *)
Definition replaying_env (response : list message) : environment :=
  Environment
    (fun _ => Ok (Some "token-1"))
    (fun _ => Ok response)
    (fun _ => Ok [])
    (fun _ => Ok "")
    no_fault no_fault no_fault
    (fun _ => "2024-01-03T00:00:00")
    no_fault no_fault.

(** A mailbox that holds [m2] and [m1] at the first listing and has
    received [m3] by the second. *)
Definition growing_mailbox (k : nat) : list message :=
  match k with
  | O => [m2; m1]
  | S _ => [m3; m2; m1]
  end.

(** The world in which the loop of [main] starts: a fresh reader, counters
    at zero, the banner printed. *)
Definition main_start (w : world) : world :=
  World None (tracking_file w) 0 0 (trace w ++ [EvPrint OutMonitorStarted]).

(** ** Judgements on monadic code *)

(** Every run of [m] relates the world before to the world after. *)
Definition preserves {A} (R : world -> world -> Prop) (m : M A) : Prop :=
  forall w, R w (snd (m w)).

(** Whatever [m] raises satisfies [P]. *)
Definition raises_only {A} (P : exn -> bool) (m : M A) : Prop :=
  forall w e, fst (m w) = Raise e -> P e = true.

(** [m] returns normally from every world. *)
Definition never_raises {A} (m : M A) : Prop :=
  forall w, exists a, fst (m w) = Ok a.

(** The relations that are preserved. *)

(** A token that is held stays held, and is not exchanged again. *)
Definition held_stable (w w' : world) : Prop :=
  truthy (access_token w) = true ->
  access_token w' = access_token w
  /\ token_posts (trace w') = token_posts (trace w).

Definition file_same (w w' : world) : Prop :=
  tracking_file w' = tracking_file w.

Definition token_same (w w' : world) : Prop :=
  access_token w' = access_token w.

(** The trace only grows, and every effect added satisfies [p]. *)
Definition only_adds (p : event -> bool) (w w' : world) : Prop :=
  exists delta, trace w' = (trace w ++ delta)%list /\ forallb p delta = true.

(** Outcome lines of the forwarder are only ever added. *)
Definition reports_grow (w w' : world) : Prop :=
  (forward_reports (trace w) <= forward_reports (trace w'))%nat.

(** Raw-content fetches are only added for messages of [batch]. *)
Definition fetches_within (cfg : config) (batch : list message) (w w' : world)
  : Prop :=
  exists added,
    mime_fetches (trace w') = (mime_fetches (trace w) ++ added)%list
    /\ incl added (map (mime_url cfg) batch).

(** A relation on worlds that composes along a run. *)
Definition preorder (R : world -> world -> Prop) : Prop :=
  (forall w, R w w) /\ (forall a b c, R a b -> R b c -> R a c).

(** ** main.py: reading the configuration

    Strings are sequences of 8-bit characters, read as the code points
    U+0000 to U+00FF. *)

(** [str.isspace] on one character: what [str.strip()] removes. *)
Definition is_space (a : ascii) : bool :=
  let n := nat_of_ascii a in
  ((9 <=? n) && (n <=? 13) || (28 <=? n) && (n <=? 31) || (n =? 32)
   || (n =? 133) || (n =? 160))%nat.

(** [str.lower] on one character: the ASCII capitals and the accented
    capitals U+00C0 to U+00DE (U+00D7, the multiplication sign, apart) move
    up by 32. *)
Definition lower_char (a : ascii) : ascii :=
  let n := nat_of_ascii a in
  if ((65 <=? n) && (n <=? 90) || (192 <=? n) && (n <=? 214)
      || (216 <=? n) && (n <=? 222))%nat
  then ascii_of_nat (n + 32)
  else a.

(** [s.lower()]. *)
Fixpoint lower (s : string) : string :=
  match s with
  | EmptyString => EmptyString
  | String a rest => String (lower_char a) (lower rest)
  end.

Fixpoint lstrip (s : string) : string :=
  match s with
  | EmptyString => EmptyString
  | String a rest => if is_space a then lstrip rest else s
  end.

Fixpoint rstrip (s : string) : string :=
  match s with
  | EmptyString => EmptyString
  | String a rest =>
      match rstrip rest with
      | EmptyString => if is_space a then EmptyString else String a EmptyString
      | kept => String a kept
      end
  end.

(** [s.strip()]. *)
Definition strip (s : string) : string := rstrip (lstrip s).

(** [s.split(sep)] for a one-character separator: never empty; [n]
    separators give [n + 1] pieces. *)
Fixpoint split_on (sep : ascii) (s : string) : list string :=
  match s with
  | EmptyString => [EmptyString]
  | String a rest =>
      if Ascii.eqb a sep
      then EmptyString :: split_on sep rest
      else
        match split_on sep rest with
        | piece :: pieces => String a piece :: pieces
        | [] => [String a EmptyString]
        end
  end.

(** [str(default)] for a boolean. *)
Definition str_of_bool (b : bool) : string := if b then "True" else "False".

(** [value in (...)] on strings. *)
Definition string_in (value : string) (candidates : list string) : bool :=
  existsb (String.eqb value) candidates.

(** [_get_bool(key, default)]; [getenv] is [os.getenv(key)], [None] when the
    variable is not set. *)
Definition _get_bool (getenv : option string) (default : bool) : bool :=
  let value := lower (get_default getenv (str_of_bool default)) in
  string_in value ["true"; "1"; "yes"; "on"].

(** The comprehension [[item.strip() for item in value.split(",") if
    item.strip()]], which [_get_list] and the string branch of
    [_normalize_recipients] share. *)
Definition stripped_items (value : string) : list string :=
  map strip (filter (fun item => negb (strip item =? "")%string)
                    (split_on "," value)).

(** [_get_list(key, default)]. *)
Definition _get_list (getenv : option string) (default : option (list string))
  : list string :=
  let value := get_default getenv "" in
  if (value =? "")%string
  then match default with
       | Some (first :: others) => first :: others
       | _ => []
       end
  else stripped_items value.

(** [_normalize_recipients] on a string (the [isinstance(value, str)]
    branch; the list branch is [_normalize_recipients] above). *)
Definition _normalize_recipients_str (value : string) : list string :=
  stripped_items value.

(** Whether [c] occurs in [s]. *)
Fixpoint has_char (c : ascii) (s : string) : bool :=
  match s with
  | EmptyString => false
  | String a rest => Ascii.eqb a c || has_char c rest
  end.

(** An address as [_get_list] yields them: not empty, no comma, nothing to
    strip. *)
Definition clean_item (s : string) : Prop :=
  s <> "" /\ has_char "," s = false /\ strip s = s.


(** Whether a string is empty or starts with a character that is kept. *)
Definition no_leading_space (s : string) : Prop :=
  match s with
  | EmptyString => True
  | String a _ => is_space a = false
  end.

(** The request [get_access_token] posts to the identity provider. *)
Definition token_request (cfg : config) : event :=
  EvTokenPost (token_endpoint cfg)
    [("client_id", CLIENT_ID cfg);
     ("scope", String.concat " " scopes);
     ("client_secret", CLIENT_SECRET cfg);
     ("grant_type", "client_credentials")].

(** What [json.load] raises on a file that holds no document. *)
Definition not_json : exn := Exn JSONDecodeError "Expecting value" None.

(** The exception [get_access_token] raises when the answer of the identity
    provider carries no token. *)
Definition no_token : exn :=
  Exn PlainException "Failed to retrieve access token" None.

(** A tracking file that cannot be opened for writing: a read-only
    directory, for example. *)
Definition read_only_files (env : environment) : Prop :=
  forall tr, exists e, open_write_fault env tr = Some e /\ is_IOError e = true.

Definition permission_denied : exn :=
  Exn IOError "Permission denied" None.

(** The reference environment on a read-only file system. *)
Definition read_only_env (mailbox_at : nat -> list message) : environment :=
  Environment
    (fun _ => Ok (Some "token-1"))
    (graph_server mailbox_at)
    (fun _ => Ok [])
    (fun _ => Ok "")
    no_fault
    (fun _ => Some permission_denied)
    no_fault
    (fun _ => "2024-01-03T00:00:00")
    no_fault no_fault.

(** An identity provider whose answer carries no [access_token]. *)
Definition tokenless_env : environment :=
  Environment
    (fun _ => Ok None)
    (graph_server (fun _ => [m2; m1]))
    (fun _ => Ok [])
    (fun _ => Ok "")
    no_fault no_fault no_fault
    (fun _ => "2024-01-03T00:00:00")
    no_fault no_fault.

(** A tracking file that was left truncated. *)
Definition world_with_damaged_file : world :=
  World (Some "token-1") Unparsable 0 0 [].


(** The commands of an SMTP session that carry something to the relay. *)
Definition is_smtp_command (e : event) : bool :=
  match e with
  | EvSmtpConnect _ _ _ | EvSmtpStartTls | EvSmtpLogin _ _
  | EvSmtpSendmail _ _ _ => true
  | _ => false
  end.

(** The commands of a session in which nothing fails, in order. *)
Definition smtp_plan (cfg : config) (recipients : list string)
  (mime_content : string) : list event :=
  (EvSmtpConnect (SMTP_HOST cfg) (SMTP_PORT cfg) 30
   :: (if SMTP_USE_TLS cfg then [EvSmtpStartTls] else [])
   ++ (if (SMTP_USERNAME cfg =? "")%string
       then []
       else [EvSmtpLogin (SMTP_USERNAME cfg) (SMTP_PASSWORD cfg)])
   ++ [EvSmtpSendmail (SMTP_FROM cfg) recipients mime_content])%list.


(** ** Reading the counters of [main] off the trace *)

Definition is_separator (e : event) : bool :=
  match e with
  | EvPrint OutSeparator => true
  | _ => false
  end.

(** The number of messages displayed: each one starts with a separator
    line. *)
Definition displayed (tr : list event) : nat :=
  length (filter is_separator tr).

Definition is_wait (e : event) : bool :=
  match e with
  | EvSleep _ => true
  | _ => false
  end.

(** The number of waits begun. *)
Definition waits (tr : list event) : nat :=
  length (filter is_wait tr).

(** The environment with its waits left undisturbed. *)
Definition without_signals (env : environment) : environment :=
  Environment
    (token_response env) (messages_response env) (attachments_response env)
    (mime_response env) (open_read_fault env) (open_write_fault env)
    (dump_fault env) (clock env) (smtp_fault env) no_fault.

(** The world in which an iteration of the loop of [main] runs its cycle:
    [run_count += 1] has been done. *)
Definition cycle_start (w : world) : world :=
  snd (set_counters (S (run_count w)) (new_emails_count w) w).

(** The world after [if new_messages: new_emails_count += len(new_messages)],
    [w1] being the world after the cycle. *)
Definition counted (msgs : list message) (w1 : world) : world :=
  snd (when (negb (is_empty msgs))
            (set_counters (run_count w1)
                          (new_emails_count w1 + length msgs)%nat) w1).

(** What [time.sleep] raises on a negative length. *)
Definition negative_sleep : exn :=
  Exn ValueError "sleep length must be non-negative" None.


(** A configuration for one pass only: [ENABLE_CONTINUOUS_LOOP] off. *)
Definition single_pass_cfg : config :=
  Config "client" "tenant" "secret" "box@example.com"
         5 false
         true "smtp.example.com" 587 "user" "password" true
         "monitor@example.com" ["ops@example.com"].


(** A request to Graph is authorized when its [Authorization] header is
    [Bearer] followed by a non-empty token; every other effect counts as
    authorized. *)
Definition is_authorized (e : event) : bool :=
  match e with
  | EvGetMessages _ authorization _
  | EvGetAttachments _ authorization
  | EvGetMime _ authorization =>
      match strip_prefix "Bearer " authorization with
      | Some token => negb (token =? "")%string
      | None => false
      end
  | _ => true
  end.

(** The lines [show_message] prints for every message. *)
Definition message_header (msg : message) : list event :=
  [EvPrint OutSeparator;
   EvPrint (OutFrom (get_default (msg_from msg) "Unknown"));
   EvPrint (OutTo match msg_toRecipients msg with
                  | first :: _ => get_default first "Unknown"
                  | [] => "Unknown"
                  end);
   EvPrint (OutSubject (get_default (msg_subject msg) "[No Subject]"))].

(** The line that tells of attachments: their names, or the bare notice. *)
Definition is_attachment_line (e : event) : bool :=
  match e with
  | EvPrint (OutAttachments _ _ | OutHasAttachments) => true
  | _ => false
  end.


(** Graph refuses the raw content of every message. *)
Definition content_refused : exn :=
  Exn RequestException "404 Client Error: Not Found" (Some "ErrorItemNotFound").

Definition no_content_env (mailbox_at : nat -> list message) : environment :=
  Environment
    (fun _ => Ok (Some "token-1"))
    (graph_server mailbox_at)
    (fun _ => Ok [])
    (fun _ => Raise content_refused)
    no_fault no_fault no_fault
    (fun _ => "2024-01-03T00:00:00")
    no_fault no_fault.

(** The raw-content request of [get_message_mime] for [msg], sent from world
    [w]. *)
Definition mime_request (cfg : config) (msg : message) (w : world) : event :=
  EvGetMime (mime_url cfg msg) ("Bearer " ++ py_str (access_token w)).


(** * Proofs *)

(** ** The order on timestamps *)

Lemma ts_ltb_lt a b : ts_ltb a b = true <-> String_as_OT.lt a b.
Proof.
  unfold ts_ltb, String.ltb. rewrite <- String_as_OT.cmp_lt.
  unfold String_as_OT.cmp. destruct (String.compare a b); split; congruence.
Qed.

Lemma ts_leb_cases a b : ts_leb a b = true <-> ts_ltb a b = true \/ a = b.
Proof.
  unfold ts_leb, ts_ltb, String.leb, String.ltb.
  destruct (String.compare a b) eqn:E; split; intros H; auto; try discriminate.
  - right. now apply String.compare_eq_iff.
  - destruct H as [H | H]; [discriminate |].
    subst b. assert (String.compare a a = Eq) as E'
      by (apply String_as_OT.cmp_eq; reflexivity).
    congruence.
Qed.

Lemma ts_ltb_irrefl a : ts_ltb a a = false.
Proof.
  destruct (ts_ltb a a) eqn:E; [| reflexivity].
  apply ts_ltb_lt in E. exfalso.
  exact (String_as_OT.lt_not_eq _ _ E eq_refl).
Qed.

Lemma ts_ltb_trans a b c :
  ts_ltb a b = true -> ts_ltb b c = true -> ts_ltb a c = true.
Proof.
  rewrite !ts_ltb_lt. apply String_as_OT.lt_trans.
Qed.

Lemma ts_ltb_leb a b : ts_ltb a b = true -> ts_leb a b = true.
Proof. intros H. apply ts_leb_cases. now left. Qed.

Lemma ts_leb_refl a : ts_leb a a = true.
Proof. apply ts_leb_cases. now right. Qed.

Lemma ts_leb_ltb_trans a b c :
  ts_leb a b = true -> ts_ltb b c = true -> ts_ltb a c = true.
Proof.
  intros H1 H2. apply ts_leb_cases in H1. destruct H1 as [H1 | ->]; auto.
  eapply ts_ltb_trans; eauto.
Qed.

Lemma ts_ltb_leb_trans a b c :
  ts_ltb a b = true -> ts_leb b c = true -> ts_ltb a c = true.
Proof.
  intros H1 H2. apply ts_leb_cases in H2. destruct H2 as [H2 | <-]; auto.
  eapply ts_ltb_trans; eauto.
Qed.

Lemma ts_leb_trans a b c :
  ts_leb a b = true -> ts_leb b c = true -> ts_leb a c = true.
Proof.
  intros H1 H2. apply ts_leb_cases in H1. destruct H1 as [H1 | ->]; auto.
  apply ts_ltb_leb. eapply ts_ltb_leb_trans; eauto.
Qed.

Lemma pyval_leb_refl a : pyval_leb a a = true.
Proof. destruct a; simpl; auto using ts_leb_refl. Qed.

Lemma pyval_leb_trans a b c :
  pyval_leb a b = true -> pyval_leb b c = true -> pyval_leb a c = true.
Proof.
  destruct a, b, c; simpl; auto; try discriminate. apply ts_leb_trans.
Qed.

Lemma strip_prefix_app p t : strip_prefix p (p ++ t) = Some t.
Proof.
  induction p as [| a p IH]; simpl.
  - now destruct t.
  - now rewrite Ascii.eqb_refl.
Qed.

Lemma gt_threshold_build t :
  gt_threshold ("receivedDateTime gt " ++ t) = Some t.
Proof. apply strip_prefix_app. Qed.

Lemma truthy_Some v : truthy v = true -> exists s, v = Some s /\ s <> "".
Proof.
  destruct v as [s |]; simpl; [| discriminate].
  intros H. exists s. split; auto. intros ->. discriminate.
Qed.

Lemma py_neq_false a b : py_neq a b = false <-> a = b.
Proof.
  destruct a as [x |], b as [y |]; simpl; split; intros H;
    try discriminate; auto.
  - apply negb_false_iff, String.eqb_eq in H. now subst.
  - injection H as ->. now rewrite String.eqb_refl.
Qed.

(** ** Structural rules *)

Section Structural.

Context {R : world -> world -> Prop} (HR : preorder R).

Lemma preserves_ret {A} (a : A) : preserves R (ret a).
Proof. intros w. apply HR. Qed.

Lemma preserves_raise {A} (e : exn) : preserves R (@raise A e).
Proof. intros w. apply HR. Qed.

Lemma preserves_observe {A} (m : M A) :
  (forall w, snd (m w) = w) -> preserves R m.
Proof. intros H w. rewrite H. apply HR. Qed.

Lemma preserves_bind {A B} (m : M A) (k : A -> M B) :
  preserves R m -> (forall a, preserves R (k a)) -> preserves R (bind m k).
Proof.
  intros Hm Hk w. unfold bind. specialize (Hm w).
  destruct (m w) as [[a | e] w1]; simpl in *; auto.
  destruct HR as [_ Htrans]. eapply Htrans; [exact Hm | apply Hk].
Qed.

Lemma preserves_try_except {A} (m : M A) handles (h : exn -> M A) :
  preserves R m -> (forall e, preserves R (h e)) ->
  preserves R (try_except m handles h).
Proof.
  intros Hm Hh w. unfold try_except. specialize (Hm w).
  destruct (m w) as [[a | e] w1]; simpl in *; auto.
  destruct (handles e); simpl; auto.
  destruct HR as [_ Htrans]. eapply Htrans; [exact Hm | apply Hh].
Qed.

Lemma preserves_with_exit {A} (body : M A) (on_exit : M unit) :
  preserves R body -> preserves R on_exit ->
  preserves R (with_exit body on_exit).
Proof.
  intros Hb He w. unfold with_exit. specialize (Hb w).
  destruct (body w) as [r w1]. specialize (He w1).
  destruct HR as [_ Htrans].
  destruct (on_exit w1) as [[u | e] w2]; simpl in *; eapply Htrans; eauto.
Qed.

Lemma preserves_when (b : bool) (m : M unit) :
  preserves R m -> preserves R (when b m).
Proof. intros H. destruct b; simpl; auto using preserves_ret. Qed.

Lemma preserves_for_each {A} (xs : list A) (body : A -> M unit) :
  (forall x, preserves R (body x)) -> preserves R (for_each xs body).
Proof.
  intros H. induction xs as [| x xs IH]; simpl.
  - apply preserves_ret.
  - apply preserves_bind; auto.
Qed.

Lemma preserves_call {A} (e : event) (oracle : list event -> result A) :
  preserves R (emit e) -> preserves R (call e oracle).
Proof.
  intros H. apply preserves_bind; auto.
  intros _. apply preserves_observe. reflexivity.
Qed.

Lemma preserves_step (e : event) (fault : list event -> option exn) :
  preserves R (emit e) -> preserves R (step e fault).
Proof.
  intros H. apply preserves_bind; auto.
  intros _. apply preserves_observe.
  intros w. now destruct (fault (trace w)).
Qed.

End Structural.

Section RaisesOnly.

Context (P : exn -> bool).

Lemma raises_only_ret {A} (a : A) : raises_only P (ret a).
Proof. intros w e H. discriminate. Qed.

Lemma raises_only_raise {A} (e : exn) :
  P e = true -> raises_only P (@raise A e).
Proof. intros H w e' H'. simpl in H'. now injection H' as <-. Qed.

Lemma raises_only_total {A} (m : M A) :
  (forall w, exists a, fst (m w) = Ok a) -> raises_only P m.
Proof. intros H w e He. destruct (H w) as [a Ha]. congruence. Qed.

Lemma raises_only_bind {A B} (m : M A) (k : A -> M B) :
  raises_only P m -> (forall a, raises_only P (k a)) ->
  raises_only P (bind m k).
Proof.
  intros Hm Hk w e. unfold bind. specialize (Hm w).
  destruct (m w) as [[a | e1] w1]; simpl in *.
  - apply Hk.
  - intros H. injection H as <-. now apply Hm.
Qed.

Lemma raises_only_try_except {A} (m : M A) handles (h : exn -> M A) :
  raises_only P m ->
  (forall e, P e = true -> handles e = true -> raises_only P (h e)) ->
  raises_only P (try_except m handles h).
Proof.
  intros Hm Hh w e. unfold try_except. specialize (Hm w).
  destruct (m w) as [[a | e1] w1]; simpl in *; [discriminate |].
  destruct (handles e1) eqn:Hc.
  - apply Hh; auto.
  - simpl. intros H. injection H as <-. now apply Hm.
Qed.

Lemma raises_only_with_exit {A} (body : M A) (on_exit : M unit) :
  raises_only P body -> raises_only P on_exit ->
  raises_only P (with_exit body on_exit).
Proof.
  intros Hb He w e. unfold with_exit. specialize (Hb w).
  destruct (body w) as [r w1]. specialize (He w1).
  destruct (on_exit w1) as [[u | e1] w2]; simpl in *.
  - apply Hb.
  - intros H. injection H as <-. now apply He.
Qed.

Lemma raises_only_when (b : bool) (m : M unit) :
  raises_only P m -> raises_only P (when b m).
Proof. intros H. destruct b; simpl; auto using raises_only_ret. Qed.

Lemma raises_only_for_each {A} (xs : list A) (body : A -> M unit) :
  (forall x, raises_only P (body x)) -> raises_only P (for_each xs body).
Proof.
  intros H. induction xs as [| x xs IH]; simpl.
  - apply raises_only_ret.
  - apply raises_only_bind; auto.
Qed.

Lemma raises_only_call {A} (e : event) (oracle : list event -> result A) :
  (forall tr x, oracle tr = Raise x -> P x = true) ->
  raises_only P (call e oracle).
Proof.
  intros H w x. unfold call, bind, emit. simpl. apply H.
Qed.

Lemma raises_only_step (e : event) (fault : list event -> option exn) :
  (forall tr x, fault tr = Some x -> P x = true) ->
  raises_only P (step e fault).
Proof.
  intros H w x. unfold step, bind, emit. simpl.
  destruct (fault _) eqn:E; simpl; [| discriminate].
  intros H'. injection H' as <-. eapply H; eauto.
Qed.

End RaisesOnly.

(** A handler that catches everything the body can raise, and does not
    raise itself, makes the whole [try] total. *)
Lemma never_raises_try_except {A} (m : M A) (P : exn -> bool) (h : exn -> M A) :
  raises_only P m -> (forall e, never_raises (h e)) ->
  never_raises (try_except m P h).
Proof.
  intros Hm Hh w. unfold try_except. specialize (Hm w).
  destruct (m w) as [[a | e] w1]; simpl in *; eauto.
  rewrite (Hm e eq_refl). apply Hh.
Qed.

Lemma never_raises_emit e : never_raises (emit e).
Proof. intros w. now exists tt. Qed.

Lemma never_raises_ret {A} (a : A) : never_raises (ret a).
Proof. intros w. now exists a. Qed.

Lemma never_raises_bind {A B} (m : M A) (k : A -> M B) :
  never_raises m -> (forall a, never_raises (k a)) -> never_raises (bind m k).
Proof.
  intros Hm Hk w. unfold bind. destruct (Hm w) as [a Ha].
  destruct (m w) as [r w1]. simpl in Ha. subst r. apply Hk.
Qed.

Lemma never_raises_when (b : bool) (m : M unit) :
  never_raises m -> never_raises (when b m).
Proof. intros H. destruct b; simpl; auto using never_raises_ret. Qed.

Lemma never_raises_for_each {A} (xs : list A) (body : A -> M unit) :
  (forall x, never_raises (body x)) -> never_raises (for_each xs body).
Proof.
  intros H. induction xs as [| x xs IH]; simpl.
  - apply never_raises_ret.
  - apply never_raises_bind; auto.
Qed.

Lemma never_raises_run {A} (m : M A) w :
  never_raises m -> exists a w', m w = (Ok a, w').
Proof.
  intros H. destruct (H w) as [a Ha]. destruct (m w) as [r w'].
  simpl in Ha. subst r. eauto.
Qed.

(** ** The preserved relations *)

Lemma filter_snoc {A} (p : A -> bool) l x :
  filter p (l ++ [x]) = (filter p l ++ if p x then [x] else [])%list.
Proof. rewrite filter_app. simpl. now destruct (p x). Qed.

Lemma token_posts_snoc tr e :
  token_posts (tr ++ [e]) = (token_posts tr + if is_token_post e then 1 else 0)%nat.
Proof.
  unfold token_posts. rewrite filter_snoc, length_app.
  now destruct (is_token_post e).
Qed.

Lemma graph_gets_snoc tr e :
  graph_gets (tr ++ [e]) = (graph_gets tr + if is_graph_get e then 1 else 0)%nat.
Proof.
  unfold graph_gets. rewrite filter_snoc, length_app.
  now destruct (is_graph_get e).
Qed.

Lemma mime_fetches_app a b :
  mime_fetches (a ++ b) = (mime_fetches a ++ mime_fetches b)%list.
Proof.
  induction a as [| e a IH]; simpl; auto.
  destruct e; simpl; auto. now rewrite IH.
Qed.

Lemma held_stable_preorder : preorder held_stable.
Proof.
  split.
  - intros w _. auto.
  - intros a b c Hab Hbc Ha. destruct (Hab Ha) as [Ht Hp].
    assert (truthy (access_token b) = true) as Hb by now rewrite Ht.
    destruct (Hbc Hb) as [Ht' Hp']. split; congruence.
Qed.

Lemma file_same_preorder : preorder file_same.
Proof. split; unfold file_same; intros; congruence. Qed.

Lemma token_same_preorder : preorder token_same.
Proof. split; unfold token_same; intros; congruence. Qed.

Lemma only_adds_preorder p : preorder (only_adds p).
Proof.
  split.
  - intros w. exists []. now rewrite app_nil_r.
  - intros a b c (d1 & H1 & P1) (d2 & H2 & P2). exists (d1 ++ d2)%list. split.
    + now rewrite H2, H1, app_assoc.
    + now rewrite forallb_app, P1, P2.
Qed.

Lemma fetches_within_preorder cfg batch : preorder (fetches_within cfg batch).
Proof.
  split.
  - intros w. exists []. split; [now rewrite app_nil_r | intros x []].
  - intros a b c (d1 & H1 & I1) (d2 & H2 & I2). exists (d1 ++ d2)%list. split.
    + now rewrite H2, H1, app_assoc.
    + now apply incl_app.
Qed.

(** Recording an effect. *)

Lemma held_stable_emit e : is_token_post e = false -> preserves held_stable (emit e).
Proof.
  intros H w _. simpl. rewrite token_posts_snoc, H. split; auto with arith.
Qed.

Lemma file_same_emit e : preserves file_same (emit e).
Proof. intros w. reflexivity. Qed.

Lemma token_same_emit e : preserves token_same (emit e).
Proof. intros w. reflexivity. Qed.

Lemma only_adds_emit p e : p e = true -> preserves (only_adds p) (emit e).
Proof. intros H w. exists [e]. simpl. now rewrite H. Qed.

Lemma only_adds_unchanged p w w' : trace w' = trace w -> only_adds p w w'.
Proof. intros H. exists []. now rewrite app_nil_r. Qed.

Lemma fetches_within_emit cfg batch e :
  mime_fetches [e] = [] -> preserves (fetches_within cfg batch) (emit e).
Proof.
  intros H w. exists []. simpl. split; [| intros x []].
  now rewrite mime_fetches_app, H.
Qed.

(** Assignments. *)

Lemma held_stable_set_tracking_file f : preserves held_stable (set_tracking_file f).
Proof. intros w _. auto. Qed.

Lemma held_stable_set_counters a b : preserves held_stable (set_counters a b).
Proof. intros w _. auto. Qed.

Lemma file_same_set_access_token v : preserves file_same (set_access_token v).
Proof. intros w. reflexivity. Qed.

Lemma file_same_set_counters a b : preserves file_same (set_counters a b).
Proof. intros w. reflexivity. Qed.

Lemma token_same_set_tracking_file f : preserves token_same (set_tracking_file f).
Proof. intros w. reflexivity. Qed.

Lemma only_adds_set_access_token p v : preserves (only_adds p) (set_access_token v).
Proof. intros w. now apply only_adds_unchanged. Qed.

Lemma only_adds_set_tracking_file p f : preserves (only_adds p) (set_tracking_file f).
Proof. intros w. now apply only_adds_unchanged. Qed.

Lemma only_adds_set_counters p a b : preserves (only_adds p) (set_counters a b).
Proof. intros w. now apply only_adds_unchanged. Qed.

Lemma token_same_set_counters a b : preserves token_same (set_counters a b).
Proof. intros w. reflexivity. Qed.

Lemma fetches_within_set_access_token cfg batch v :
  preserves (fetches_within cfg batch) (set_access_token v).
Proof. intros w. exists []. simpl. split; [now rewrite app_nil_r | intros x []]. Qed.

Lemma forward_reports_snoc tr e :
  forward_reports (tr ++ [e])
  = (forward_reports tr + if is_forward_report e then 1 else 0)%nat.
Proof.
  unfold forward_reports. rewrite filter_snoc, length_app.
  now destruct (is_forward_report e).
Qed.

Lemma reports_grow_preorder : preorder reports_grow.
Proof. split; unfold reports_grow; intros; lia. Qed.

Lemma reports_grow_emit e : preserves reports_grow (emit e).
Proof. intros w. unfold reports_grow. simpl. rewrite forward_reports_snoc. lia. Qed.

Lemma reports_grow_set_access_token v : preserves reports_grow (set_access_token v).
Proof. intros w. unfold reports_grow. simpl. lia. Qed.

Lemma only_adds_mime_fetches p w w' :
  (forall e, p e = true -> is_mime_fetch e = false) ->
  only_adds p w w' ->
  mime_fetches (trace w') = mime_fetches (trace w).
Proof.
  intros Hp (delta & -> & Hall). rewrite mime_fetches_app.
  assert (mime_fetches delta = []) as ->; [| apply app_nil_r].
  induction delta as [| e delta IH]; simpl in *; auto.
  apply andb_prop in Hall. destruct Hall as [He Hd].
  specialize (Hp e He). destruct e; simpl in *; auto; discriminate.
Qed.

Lemma only_adds_filter p q w w' :
  (forall e, p e = true -> q e = false) ->
  only_adds p w w' ->
  filter q (trace w') = filter q (trace w).
Proof.
  intros Hp (delta & -> & Hall). rewrite filter_app.
  assert (filter q delta = []) as ->; [| apply app_nil_r].
  induction delta as [| e delta IH]; simpl in *; auto.
  apply andb_prop in Hall. destruct Hall as [He Hd].
  rewrite (Hp e He). auto.
Qed.

Lemma only_adds_weaken (p q : event -> bool) w w' :
  (forall e, p e = true -> q e = true) ->
  only_adds p w w' -> only_adds q w w'.
Proof.
  intros Hpq (delta & Ht & Hall). exists delta. split; auto.
  rewrite forallb_forall in *. auto.
Qed.

Lemma bind_ok_inv {A B} (m : M A) (k : A -> M B) w b w' :
  bind m k w = (Ok b, w') ->
  exists a w1, m w = (Ok a, w1) /\ k a w1 = (Ok b, w').
Proof.
  unfold bind. destruct (m w) as [[a | e] w1]; [eauto | discriminate].
Qed.

Create HintDb mail discriminated.

#[export] Hint Resolve
  held_stable_preorder file_same_preorder token_same_preorder
  only_adds_preorder fetches_within_preorder reports_grow_preorder
  reports_grow_emit reports_grow_set_access_token
  held_stable_emit file_same_emit token_same_emit fetches_within_emit
  held_stable_set_tracking_file held_stable_set_counters
  file_same_set_access_token file_same_set_counters
  token_same_set_tracking_file token_same_set_counters
  only_adds_set_access_token only_adds_set_tracking_file
  only_adds_set_counters
  fetches_within_set_access_token
  : mail.

(** Walk through a monadic term, leaving only its primitive effects. *)
Ltac preserve_step :=
  match goal with
  | H : preserves ?R ?m |- preserves ?R ?m => exact H
  | H : forall x, preserves ?R (@?m x) |- preserves ?R _ => solve [apply H]
  | |- preserves _ (ret _) => apply preserves_ret; auto with mail
  | |- preserves _ (raise _) => apply preserves_raise; auto with mail
  | |- preserves _ (bind _ _) =>
      apply preserves_bind; [auto with mail | | intros ?]
  | |- preserves _ (try_except _ _ _) =>
      apply preserves_try_except; [auto with mail | | intros ?]
  | |- preserves _ (with_exit _ _) =>
      apply preserves_with_exit; [auto with mail | | ]
  | |- preserves _ (when _ _) => apply preserves_when; [auto with mail | ]
  | |- preserves _ (for_each _ _) =>
      apply preserves_for_each; [auto with mail | intros ?]
  | |- preserves _ (call _ _) => apply preserves_call; [auto with mail | ]
  | |- preserves _ (step _ _) => apply preserves_step; [auto with mail | ]
  | |- preserves _ get_world =>
      apply preserves_observe; [auto with mail | reflexivity]
  | |- preserves _ read_access_token =>
      apply preserves_observe; [auto with mail | reflexivity]
  | |- preserves _ (print _) => unfold print
  | |- preserves _ (emit _) => solve [auto with mail]
  | |- preserves _ (set_access_token _) => solve [auto with mail]
  | |- preserves _ (set_tracking_file _) => solve [auto with mail]
  | |- preserves _ (set_counters _ _) => solve [auto with mail]
  | |- preserves _ (if ?b then _ else _) => destruct b
  | |- preserves _ (match ?x with _ => _ end) => destruct x
  | |- preserves _ (let _ := _ in _) => cbv zeta
  end.

Ltac preserve := repeat preserve_step.

Ltac preserve_leaf :=
  first
    [ solve [auto with mail]
    | match goal with
      | H : forall e, _ -> preserves _ (emit e) |- preserves _ (emit _) =>
          apply H; reflexivity
      | H : forall e, preserves _ (emit _) |- preserves _ (emit _) => apply H
      | H : forall v, preserves _ (set_access_token v) |- _ => apply H
      | H : forall f, preserves _ (set_tracking_file f) |- _ => apply H
      | H : forall a b, preserves _ (set_counters a b) |- _ => apply H
      end ].

Ltac preserve_with unfolder :=
  repeat first [ preserve_step | preserve_leaf | progress unfolder ].

(** ** What each function preserves *)

Lemma is_file_event_query e : is_file_event e = true -> is_query_event e = true.
Proof. destruct e as [| | | | | | | | | | | | | | []]; simpl; auto. Qed.

Lemma is_smtp_event_forward e : is_smtp_event e = true -> is_forward_event e = true.
Proof. destruct e as [| | | | | | | | | | | | | | []]; simpl; auto. Qed.

Section Preservation.

Context (env : environment) (cfg : config).
Context {R : world -> world -> Prop} (HR : preorder R).

Lemma preserves_get_access_token :
  (forall e, is_token_event e = true -> preserves R (emit e)) ->
  (forall v, preserves R (set_access_token v)) ->
  preserves R (get_access_token env cfg).
Proof.
  intros He Hs. unfold get_access_token.
  preserve_with ltac:(unfold print_response, silent_mode, negb).
Qed.

Lemma preserves_ensure_access_token :
  (forall e, is_token_event e = true -> preserves R (emit e)) ->
  (forall v, preserves R (set_access_token v)) ->
  preserves R (ensure_access_token env cfg).
Proof.
  intros He Hs. unfold ensure_access_token.
  pose proof (preserves_get_access_token He Hs).
  preserve_with idtac.
Qed.

Hypothesis R_ensure : preserves R (ensure_access_token env cfg).

Lemma preserves_get_attachments id :
  (forall e, is_display_event e = true -> preserves R (emit e)) ->
  preserves R (get_attachments env cfg id).
Proof.
  intros He. unfold get_attachments. preserve_with ltac:(unfold bearer).
Qed.

Lemma preserves_get_message_mime id :
  (forall e, is_forward_event e = true -> preserves R (emit e)) ->
  preserves R (get_message_mime env cfg id).
Proof.
  intros He. unfold get_message_mime. preserve_with ltac:(unfold bearer).
Qed.

Lemma preserves_show_message msg :
  (forall e, is_display_event e = true -> preserves R (emit e)) ->
  preserves R (show_message env cfg msg).
Proof.
  intros He. pose proof (fun id => preserves_get_attachments id He).
  unfold show_message. preserve_with idtac.
Qed.

Lemma preserves_try_smtp_forward recipients mime_content :
  (forall e, is_smtp_event e = true -> preserves R (emit e)) ->
  preserves R (try_smtp_forward env cfg recipients mime_content).
Proof.
  intros He. unfold try_smtp_forward. preserve_with ltac:(unfold smtp_session).
Qed.

Lemma preserves_forward_message msg :
  (forall e, is_forward_event e = true -> preserves R (emit e)) ->
  preserves R (forward_message env cfg msg).
Proof.
  intros He. pose proof (fun id => preserves_get_message_mime id He).
  assert (forall e, is_smtp_event e = true -> preserves R (emit e)) as He'
    by (intros e H'; apply He; now apply is_smtp_event_forward).
  pose proof (fun r m => preserves_try_smtp_forward r m He').
  unfold forward_message. preserve_with ltac:(unfold try_get_message_mime).
Qed.

Lemma preserves_process_message msg :
  (forall e, is_processing e = true -> preserves R (emit e)) ->
  preserves R (process_message env cfg msg).
Proof.
  intros He. unfold process_message.
  assert (preserves R (show_message env cfg msg))
    by (apply preserves_show_message; intros e H'; apply He;
        unfold is_processing; now rewrite H').
  assert (preserves R (forward_message env cfg msg))
    by (apply preserves_forward_message; intros e H'; apply He;
        unfold is_processing; rewrite H'; apply orb_true_r).
  preserve_with idtac.
Qed.

Lemma preserves_processing msgs :
  (forall e, is_processing e = true -> preserves R (emit e)) ->
  preserves R (for_each msgs (process_message env cfg)).
Proof.
  intros He. apply preserves_for_each; auto.
  intros m. now apply preserves_process_message.
Qed.

Lemma preserves_load_last_email_timestamp :
  (forall e, is_file_event e = true -> preserves R (emit e)) ->
  preserves R (load_last_email_timestamp env).
Proof.
  intros He. unfold load_last_email_timestamp.
  preserve_with ltac:(unfold read_tracking_file).
Qed.

Lemma preserves_save_last_email_timestamp msg :
  (forall e, is_file_event e = true -> preserves R (emit e)) ->
  (forall f, preserves R (set_tracking_file f)) ->
  preserves R (save_last_email_timestamp env msg).
Proof.
  intros He Hf. unfold save_last_email_timestamp.
  preserve_with ltac:(unfold silent_mode, negb).
Qed.

Lemma preserves_get_new_messages folder limit :
  (forall e, is_query_event e = true -> preserves R (emit e)) ->
  (forall f, preserves R (set_tracking_file f)) ->
  preserves R (get_new_messages env cfg folder limit).
Proof.
  intros He Hf. unfold get_new_messages.
  assert (forall e, is_file_event e = true -> preserves R (emit e)) as He'
    by (intros e H; apply He; now apply is_file_event_query).
  pose proof (preserves_load_last_email_timestamp He').
  pose proof (fun m => preserves_save_last_email_timestamp m He' Hf).
  preserve_with ltac:(unfold bearer, print_response, silent_mode, negb).
Qed.

Lemma preserves_check_for_new_emails :
  (forall e, is_query_event e = true -> preserves R (emit e)) ->
  (forall e, is_processing e = true -> preserves R (emit e)) ->
  (forall e, preserves R (emit (EvPrint (OutCycleError e)))) ->
  (forall f, preserves R (set_tracking_file f)) ->
  preserves R (check_for_new_emails env cfg).
Proof.
  intros Hq Hp Hc Hf. unfold check_for_new_emails.
  pose proof (preserves_get_new_messages "inbox" 50 Hq Hf).
  pose proof (fun msgs => preserves_processing msgs Hp).
  preserve_with idtac.
Qed.

End Preservation.

(** ** The bearer token *)

Section Token.

Context (env : environment) (cfg : config).

Lemma ensure_access_token_held w :
  truthy (access_token w) = true ->
  ensure_access_token env cfg w = (Ok tt, w).
Proof.
  intros H. unfold ensure_access_token, bind, read_access_token.
  now rewrite H.
Qed.

(** A successful exchange leaves a truthy token in the reader. *)
Lemma get_access_token_ok w s w' :
  get_access_token env cfg w = (Ok s, w') ->
  truthy (access_token w') = true.
Proof.
  unfold get_access_token, try_except, bind, call, emit, set_access_token.
  simpl. destruct (token_response env _) as [tok | e]; simpl.
  - destruct (truthy tok) eqn:Ht; simpl.
    + intros H. injection H as _ <-. exact Ht.
    + discriminate.
  - destruct (is_RequestException e); simpl; [| discriminate].
    destruct (print_response e _) as [[u | e'] w1]; discriminate.
Qed.

(** Each call of [get_access_token] is exactly one credential exchange. *)
Lemma get_access_token_posts w :
  token_posts (trace (snd (get_access_token env cfg w)))
  = S (token_posts (trace w)).
Proof.
  unfold get_access_token, try_except, bind, call, emit, set_access_token.
  simpl. destruct (token_response env _) as [tok | e]; simpl.
  - destruct (truthy tok); simpl; rewrite token_posts_snoc; simpl; lia.
  - destruct (is_RequestException e); simpl.
    + unfold print_response. destruct (exn_response e); simpl;
        rewrite !token_posts_snoc; simpl; lia.
    + rewrite token_posts_snoc. simpl. lia.
Qed.

Lemma ensure_access_token_ok w w' :
  ensure_access_token env cfg w = (Ok tt, w') ->
  truthy (access_token w') = true.
Proof.
  unfold ensure_access_token, bind, read_access_token.
  destruct (truthy (access_token w)) eqn:Ht; simpl.
  - intros H. injection H as <-. exact Ht.
  - destruct (get_access_token env cfg w) as [[s | e] w1] eqn:Hg; simpl.
    + intros H. injection H as <-. eapply get_access_token_ok; eauto.
    + discriminate.
Qed.

Lemma ensure_access_token_posts w :
  token_posts (trace (snd (ensure_access_token env cfg w)))
  = (token_posts (trace w) + if truthy (access_token w) then 0 else 1)%nat.
Proof.
  unfold ensure_access_token, bind, read_access_token.
  destruct (truthy (access_token w)) eqn:Ht; simpl; [lia |].
  pose proof (get_access_token_posts w) as Hp.
  destruct (get_access_token env cfg w) as [[s | e] w1]; simpl in *; lia.
Qed.

Lemma held_stable_ensure_access_token :
  preserves held_stable (ensure_access_token env cfg).
Proof.
  intros w Hheld. rewrite (ensure_access_token_held w Hheld). auto.
Qed.

(** The second [if not self.access_token] of a cycle never fires: once the
    first one has run, a token is held or the cycle is over. *)
Lemma ensure_access_token_twice {A} (k : M A) w :
  (ensure_access_token env cfg ;; ensure_access_token env cfg ;; k) w
  = (ensure_access_token env cfg ;; k) w.
Proof.
  unfold bind at 1 3.
  destruct (ensure_access_token env cfg w) as [[[] | e] w1] eqn:He; auto.
  unfold bind. rewrite (ensure_access_token_held w1); auto.
  eapply ensure_access_token_ok; eauto.
Qed.

Lemma is_processing_not_token_post e :
  is_processing e = true -> is_token_post e = false.
Proof. destruct e; simpl; auto; discriminate. Qed.

Lemma is_display_event_not_token_post e :
  is_display_event e = true -> is_token_post e = false.
Proof. destruct e; simpl; auto; discriminate. Qed.

Lemma is_forward_event_not_token_post e :
  is_forward_event e = true -> is_token_post e = false.
Proof. destruct e; simpl; auto; discriminate. Qed.

Lemma is_query_event_not_token_post e :
  is_query_event e = true -> is_token_post e = false.
Proof. destruct e; simpl; auto; discriminate. Qed.

Lemma is_query_event_not_processing e :
  is_query_event e = true -> is_processing e = false.
Proof. destruct e as [| | | | | | | | | | | | | | []]; simpl; auto; discriminate. Qed.

Lemma is_token_event_not_processing e :
  is_token_event e = true -> is_processing e = false.
Proof. destruct e as [| | | | | | | | | | | | | | []]; simpl; auto; discriminate. Qed.

Lemma held_stable_emit_processing e :
  is_processing e = true -> preserves held_stable (emit e).
Proof. intros H. apply held_stable_emit. now apply is_processing_not_token_post. Qed.

Lemma held_stable_emit_query e :
  is_query_event e = true -> preserves held_stable (emit e).
Proof. intros H. apply held_stable_emit. now apply is_query_event_not_token_post. Qed.

Lemma held_stable_get_attachments id :
  preserves held_stable (get_attachments env cfg id).
Proof.
  apply preserves_get_attachments;
    auto using held_stable_preorder, held_stable_ensure_access_token.
  intros e H. now apply held_stable_emit, is_display_event_not_token_post.
Qed.

Lemma held_stable_get_message_mime id :
  preserves held_stable (get_message_mime env cfg id).
Proof.
  apply preserves_get_message_mime;
    auto using held_stable_preorder, held_stable_ensure_access_token.
  intros e H. now apply held_stable_emit, is_forward_event_not_token_post.
Qed.

Lemma held_stable_get_new_messages folder limit :
  preserves held_stable (get_new_messages env cfg folder limit).
Proof.
  apply preserves_get_new_messages;
    auto using held_stable_preorder, held_stable_ensure_access_token,
               held_stable_emit_query, held_stable_set_tracking_file.
Qed.

Lemma held_stable_processing msgs :
  preserves held_stable (for_each msgs (process_message env cfg)).
Proof.
  apply preserves_processing;
    auto using held_stable_preorder, held_stable_ensure_access_token,
               held_stable_emit_processing.
Qed.

Lemma held_stable_check_for_new_emails :
  preserves held_stable (check_for_new_emails env cfg).
Proof.
  apply preserves_check_for_new_emails;
    auto using held_stable_preorder, held_stable_ensure_access_token,
               held_stable_emit_processing, held_stable_emit_query,
               held_stable_set_tracking_file.
  intros e. now apply held_stable_emit.
Qed.

Lemma held_stable_sleep seconds : preserves held_stable (sleep env seconds).
Proof.
  unfold sleep. destruct (seconds <? 0).
  - apply preserves_raise, held_stable_preorder.
  - apply preserves_step; [apply held_stable_preorder |].
    now apply held_stable_emit.
Qed.

Lemma held_stable_main_loop fuel :
  preserves held_stable (main_loop env cfg fuel).
Proof.
  induction fuel as [| fuel IH]; simpl.
  - apply preserves_ret, held_stable_preorder.
  - pose proof held_stable_check_for_new_emails.
    pose proof (held_stable_sleep (LOOP_DELAY_SECONDS cfg)).
    preserve_with idtac.
Qed.

(** An operation that starts with [if not self.access_token: ...] makes one
    credential exchange when no token is held and none otherwise. *)
Lemma posts_of_guarded_operation {A} (rest : M A) w :
  preserves held_stable rest ->
  token_posts (trace (snd ((ensure_access_token env cfg ;; rest) w)))
  = (token_posts (trace w) + if truthy (access_token w) then 0 else 1)%nat.
Proof.
  intros Hrest. unfold bind.
  pose proof (ensure_access_token_posts w) as Hp.
  destruct (ensure_access_token env cfg w) as [[[] | e] w1] eqn:He; simpl in *;
    [| exact Hp].
  destruct (Hrest w1 (ensure_access_token_ok _ _ He)) as [_ Heq].
  now rewrite Heq.
Qed.

End Token.

(** ** The cursor store *)

Section CursorStore.

Context (env : environment).

Lemma load_file_same : preserves file_same (load_last_email_timestamp env).
Proof. apply preserves_load_last_email_timestamp; auto with mail. Qed.

Lemma load_token_same : preserves token_same (load_last_email_timestamp env).
Proof. apply preserves_load_last_email_timestamp; auto with mail. Qed.

Lemma load_only_adds :
  preserves (only_adds is_file_event) (load_last_email_timestamp env).
Proof.
  apply preserves_load_last_email_timestamp; auto with mail.
  intros e H. now apply only_adds_emit.
Qed.

(** No tracking file: the first-run state; nothing is read. *)
Lemma load_no_file w :
  tracking_file w = NoFile ->
  load_last_email_timestamp env w = (Ok (None, None), w).
Proof.
  intros H. unfold load_last_email_timestamp, bind, get_world. now rewrite H.
Qed.

(** A file that can be opened yields its cursor; one that is not JSON
    degrades to no cursor. *)
Lemma load_readable w :
  (forall tr, open_read_fault env tr = None) ->
  fst (load_last_email_timestamp env w) = Ok (cursor_in (tracking_file w)).
Proof.
  intros Hread.
  unfold load_last_email_timestamp, read_tracking_file, try_except, step,
    bind, get_world, emit.
  destruct (tracking_file w) eqn:Hf; simpl; auto;
    rewrite Hread; simpl; rewrite Hf; reflexivity.
Qed.

(** Whatever the faults, a load returns the stored cursor or none. *)
Lemma load_ok_cases w c w' :
  load_last_email_timestamp env w = (Ok c, w') ->
  c = cursor_in (tracking_file w) \/ c = (None, None).
Proof.
  unfold load_last_email_timestamp, read_tracking_file, try_except, step,
    bind, get_world, emit.
  destruct (tracking_file w) eqn:Hf; simpl.
  - intros H. injection H as <- _. now left.
  - destruct (open_read_fault env _) as [x |]; simpl.
    + destruct (is_JSONDecodeError_or_IOError x); simpl; [| discriminate].
      intros H. injection H as <- _. now right.
    + rewrite Hf. simpl. intros H. injection H as <- _. now left.
  - destruct (open_read_fault env _) as [x |]; simpl.
    + destruct (is_JSONDecodeError_or_IOError x); simpl; [| discriminate].
      intros H. injection H as <- _. now right.
    + rewrite Hf. simpl. intros H. injection H as <- _. now left.
Qed.

Lemma save_token_same msg :
  preserves token_same (save_last_email_timestamp env msg).
Proof. apply preserves_save_last_email_timestamp; auto with mail. Qed.

Lemma save_only_adds msg :
  preserves (only_adds is_file_event) (save_last_email_timestamp env msg).
Proof.
  apply preserves_save_last_email_timestamp; auto with mail.
  intros e H. now apply only_adds_emit.
Qed.

(** The tracking file after a save, in every case: untouched when the file
    cannot be opened for writing; truncated and left without a document when
    the dump is cut off; the new record otherwise. *)
Lemma save_file_outcome msg w :
  let t0 := (trace w ++ [EvNow])%list in
  let data := cursor_of msg (clock env t0) in
  tracking_file (snd (save_last_email_timestamp env msg w)) =
    match open_write_fault env (t0 ++ [EvOpenWrite]) with
    | Some _ => tracking_file w
    | None =>
        match dump_fault env ((t0 ++ [EvOpenWrite]) ++ [EvDump data]) with
        | Some _ => Unparsable
        | None => Stored data
        end
    end.
Proof.
  unfold save_last_email_timestamp, try_except, step, bind, get_world, emit,
    set_tracking_file, when, silent_mode, cursor_of.
  simpl.
  destruct (open_write_fault env _) as [x |]; simpl.
  - now destruct (is_IOError x).
  - destruct (dump_fault env _) as [y |]; simpl; auto.
    now destruct (is_IOError y).
Qed.

(** On a file system without faults the save completes. *)
Lemma save_reliable msg w :
  reliable_files env ->
  exists w',
    save_last_email_timestamp env msg w = (Ok tt, w')
    /\ tracking_file w'
       = Stored (cursor_of msg (clock env (trace w ++ [EvNow]))).
Proof.
  intros Hrel.
  unfold save_last_email_timestamp, try_except, step, bind, get_world, emit,
    set_tracking_file, when, silent_mode, cursor_of.
  simpl.
  destruct (Hrel ((trace w ++ [EvNow]) ++ [EvOpenWrite])%list) as (_ & -> & _).
  simpl.
  match goal with
  | |- context [dump_fault env ?t] => destruct (Hrel t) as (_ & _ & ->)
  end.
  simpl. eexists. split; reflexivity.
Qed.

End CursorStore.

(** ** The query *)

Section Query.

Context (env : environment) (cfg : config).

(** Every call of [get_new_messages] follows one of the paths of
    [query_run]. *)
Lemma get_new_messages_run folder limit w :
  query_run env cfg folder limit w
            (fst (get_new_messages env cfg folder limit w))
            (snd (get_new_messages env cfg folder limit w)).
Proof.
  destruct (get_new_messages env cfg folder limit w) as [r w'] eqn:Hrun.
  simpl. revert Hrun.
  unfold get_new_messages. unfold bind at 1.
  destruct (ensure_access_token env cfg w) as [[[] | e] w0] eqn:He;
    [| intros H; injection H as <- <-; now apply run_token_failed].
  unfold bind at 1.
  destruct (load_last_email_timestamp env w0) as [[cursor | e] w1] eqn:Hl;
    [| intros H; injection H as <- <-; eapply run_load_raised; eauto].
  assert (forall (k : M (list message)) w',
             ((if truthy (fst cursor)
               then when (negb silent_mode)
                         (print (OutFetchingSince (py_str (fst cursor))))
               else when (negb silent_mode) (print OutFirstRun)) ;; k) w'
             = k w') as Hquiet
    by (intros k w''; unfold bind; now destruct (truthy (fst cursor))).
  unfold bearer, read_access_token. unfold bind at 1. unfold bind at 1.
  unfold ret at 1. rewrite Hquiet.
  unfold try_except, call, bind, emit, when, silent_mode, ret.
  cbv beta iota. simpl negb. cbv beta iota.
  match goal with
  | |- context [messages_response env ?t] =>
      destruct (messages_response env t) as [response | e] eqn:Hresp
  end.
  - destruct (drop_last_processed (snd cursor) response)
      as [| newest rest] eqn:Hdrop.
    + intros H; injection H as <- <-. eapply run_nothing_new; eauto.
    + cbn [negb]. cbv beta iota.
      match goal with
      | |- context [save_last_email_timestamp env newest ?w2] =>
          destruct (save_last_email_timestamp env newest w2)
            as [[[] | e] w3] eqn:Hs
      end.
      * intros H; injection H as <- <-. eapply run_batch; eauto.
      * pose proof (run_save_raised env cfg folder limit w w0 cursor w1
                      response newest rest e w3 He Hl Hresp Hdrop Hs) as Hrun.
        unfold failure_report in Hrun. unfold print_response, print, emit, ret, raise.
        destruct (is_RequestException e);
          [| intros H; injection H as <- <-; exact Hrun].
        destruct (exn_response e); intros H; injection H as <- <-; exact Hrun.
  - pose proof (run_request_failed env cfg folder limit w w0 cursor w1 e
                  He Hl Hresp) as Hrun.
    unfold failure_report in Hrun. unfold print_response, print, emit, ret, raise.
    destruct (is_RequestException e);
      [| intros H; injection H as <- <-; exact Hrun].
    destruct (exn_response e); intros H; injection H as <- <-; exact Hrun.
Qed.

End Query.

(** ** Processing a batch *)

Ltac raises_step :=
  match goal with
  | H : raises_only ?P ?m |- raises_only ?P ?m => exact H
  | H : forall x, raises_only ?P (@?m x) |- raises_only ?P _ => solve [apply H]
  | |- raises_only _ (ret _) => apply raises_only_ret
  | |- raises_only _ (raise _) => apply raises_only_raise; solve [auto]
  | |- raises_only _ (bind _ _) => apply raises_only_bind; [| intros ?]
  | |- raises_only _ (try_except _ _ _) =>
      apply raises_only_try_except; [| intros ? ? ?]
  | |- raises_only _ (with_exit _ _) => apply raises_only_with_exit
  | |- raises_only _ (when _ _) => apply raises_only_when
  | |- raises_only _ (for_each _ _) => apply raises_only_for_each; intros ?
  | |- raises_only _ (call _ _) => apply raises_only_call; solve [eauto]
  | |- raises_only _ (step _ _) => apply raises_only_step; solve [eauto]
  | |- raises_only _ (print _) =>
      apply raises_only_total; intros ?; eexists; reflexivity
  | |- raises_only _ (emit _) =>
      apply raises_only_total; intros ?; eexists; reflexivity
  | |- raises_only _ get_world =>
      apply raises_only_total; intros ?; eexists; reflexivity
  | |- raises_only _ read_access_token =>
      apply raises_only_total; intros ?; eexists; reflexivity
  | |- raises_only _ (set_access_token _) =>
      apply raises_only_total; intros ?; eexists; reflexivity
  | |- raises_only _ (if ?b then _ else _) => destruct b
  | |- raises_only _ (match ?x with _ => _ end) => destruct x
  | |- raises_only _ (let _ := _ in _) => cbv zeta
  end.

Ltac raises_with unfolder := repeat first [ raises_step | progress unfolder ].

Section Processing.

Context (env : environment) (cfg : config).
Hypothesis Hexn : only_exceptions env.

Lemma token_raises_exception tr x :
  token_response env tr = Raise x -> is_Exception x = true.
Proof. apply (Hexn tr). Qed.

Lemma attachments_raises_exception tr x :
  attachments_response env tr = Raise x -> is_Exception x = true.
Proof. apply (Hexn tr). Qed.

Lemma mime_raises_exception tr x :
  mime_response env tr = Raise x -> is_Exception x = true.
Proof. apply (Hexn tr). Qed.

Lemma smtp_raises_exception tr x :
  smtp_fault env tr = Some x -> is_Exception x = true.
Proof. apply (Hexn tr). Qed.

Hint Resolve token_raises_exception attachments_raises_exception
  mime_raises_exception smtp_raises_exception : core.

Lemma raises_get_access_token :
  raises_only is_Exception (get_access_token env cfg).
Proof.
  unfold get_access_token.
  raises_with ltac:(unfold print_response, silent_mode, negb).
Qed.

Lemma raises_ensure_access_token :
  raises_only is_Exception (ensure_access_token env cfg).
Proof.
  pose proof raises_get_access_token.
  unfold ensure_access_token. raises_with idtac.
Qed.

Lemma raises_get_attachments id :
  raises_only is_Exception (get_attachments env cfg id).
Proof.
  pose proof raises_ensure_access_token.
  unfold get_attachments. raises_with ltac:(unfold bearer).
Qed.

Lemma raises_get_message_mime id :
  raises_only is_Exception (get_message_mime env cfg id).
Proof.
  pose proof raises_ensure_access_token.
  unfold get_message_mime. raises_with ltac:(unfold bearer).
Qed.

Lemma never_raises_print o : never_raises (print o).
Proof. intros w. now exists tt. Qed.

(** Displaying a message cannot fail: a failed attachment listing degrades
    to the plain indicator. *)
Lemma show_message_total msg : never_raises (show_message env cfg msg).
Proof.
  unfold show_message. cbv zeta.
  repeat (apply never_raises_bind; [apply never_raises_print | intros _]).
  apply never_raises_when.
  destruct (truthy (msg_id msg)); [| apply never_raises_print].
  apply never_raises_try_except.
  - pose proof (raises_get_attachments (py_str (msg_id msg))).
    raises_with idtac.
  - intros e. apply never_raises_print.
Qed.

Lemma try_get_message_mime_total id :
  never_raises (try_get_message_mime env cfg id).
Proof.
  unfold try_get_message_mime. apply never_raises_try_except.
  - pose proof (raises_get_message_mime id). raises_with idtac.
  - intros e. apply never_raises_bind; [apply never_raises_print |].
    intros _. apply never_raises_ret.
Qed.

Lemma try_smtp_forward_total recipients mime_content :
  never_raises (try_smtp_forward env cfg recipients mime_content).
Proof.
  unfold try_smtp_forward. apply never_raises_try_except.
  - raises_with ltac:(unfold smtp_session).
  - intros e. apply never_raises_print.
Qed.

(** Forwarding one message cannot fail, whatever fails inside it. *)
Lemma forward_message_total msg : never_raises (forward_message env cfg msg).
Proof.
  unfold forward_message. cbv zeta.
  destruct (negb (ENABLE_SMTP_FORWARD cfg) || (SMTP_HOST cfg =? "")%string
            || is_empty (_normalize_recipients (SMTP_TO cfg)));
    [apply never_raises_ret |].
  destruct (negb (truthy (msg_id msg))); [apply never_raises_ret |].
  apply never_raises_bind; [apply try_get_message_mime_total |].
  intros [mime |]; [apply try_smtp_forward_total | apply never_raises_ret].
Qed.

Lemma process_message_total msg : never_raises (process_message env cfg msg).
Proof.
  unfold process_message. apply never_raises_bind.
  - apply show_message_total.
  - intros _. apply forward_message_total.
Qed.

(** The loop over a batch runs to its end. *)
Lemma processing_total msgs :
  never_raises (for_each msgs (process_message env cfg)).
Proof. apply never_raises_for_each, process_message_total. Qed.

End Processing.

(** ** One forward attempt per message *)

Section Forwarding.

Context (env : environment) (cfg : config).

Lemma forwarding_enabled_guard :
  forwarding_enabled cfg ->
  negb (ENABLE_SMTP_FORWARD cfg) || (SMTP_HOST cfg =? "")%string
  || is_empty (_normalize_recipients (SMTP_TO cfg)) = false.
Proof.
  intros (He & Hh & Hr). rewrite He. simpl.
  apply String.eqb_neq in Hh. rewrite Hh. simpl.
  now destruct (_normalize_recipients (SMTP_TO cfg)).
Qed.

(** With a token held, the first [try] of the forwarder makes exactly one
    raw-content request, whatever the answer. *)
Lemma try_get_message_mime_fetches id w :
  truthy (access_token w) = true ->
  mime_fetches (trace (snd (try_get_message_mime env cfg id w)))
  = (mime_fetches (trace w) ++ [mime_url_of_id cfg id])%list.
Proof.
  intros Hheld. unfold try_get_message_mime, get_message_mime.
  unfold try_except at 1. unfold bind at 1. unfold bind at 1.
  rewrite ensure_access_token_held by exact Hheld.
  unfold bearer, read_access_token, call, print, try_except, bind, emit, ret, raise.
  cbv beta iota.
  destruct (mime_response env _) as [mime | e]; cbv beta iota.
  - cbn [snd trace set_trace]. now rewrite mime_fetches_app.
  - destruct (is_RequestException e); cbv beta iota;
      destruct (is_Exception e); cbn [snd trace set_trace];
      rewrite !mime_fetches_app; cbn [mime_fetches]; now rewrite ?app_nil_r.
Qed.

Lemma try_smtp_forward_only_adds recipients mime_content :
  preserves (only_adds is_smtp_event)
            (try_smtp_forward env cfg recipients mime_content).
Proof.
  apply preserves_try_smtp_forward; auto with mail.
  intros e H. now apply only_adds_emit.
Qed.

Lemma try_get_message_mime_held id :
  preserves held_stable (try_get_message_mime env cfg id).
Proof.
  pose proof (held_stable_get_message_mime env cfg id).
  unfold try_get_message_mime. preserve_with idtac.
Qed.

(** With forwarding on and a token held, a message with an id gets exactly
    one forward attempt. *)
Lemma forward_message_fetches msg w :
  forwarding_enabled cfg ->
  truthy (access_token w) = true ->
  truthy (msg_id msg) = true ->
  mime_fetches (trace (snd (forward_message env cfg msg w)))
  = (mime_fetches (trace w) ++ [mime_url cfg msg])%list.
Proof.
  intros Hon Hheld Hid. unfold forward_message. cbv zeta.
  rewrite (forwarding_enabled_guard Hon), Hid. cbn [negb].
  unfold bind.
  pose proof (try_get_message_mime_fetches (py_str (msg_id msg)) w Hheld) as Hf.
  destruct (try_get_message_mime env cfg (py_str (msg_id msg)) w)
    as [[[mime |] | e] w1]; cbn [snd] in *; try exact Hf.
  unfold mime_url. rewrite <- Hf. eapply only_adds_mime_fetches;
    [| apply try_smtp_forward_only_adds].
  intros e H. destruct e as [| | | | | | | | | | | | | | []]; simpl in *;
    auto; discriminate.
Qed.

Lemma show_message_mime_same msg w :
  mime_fetches (trace (snd (show_message env cfg msg w)))
  = mime_fetches (trace w).
Proof.
  eapply only_adds_mime_fetches with
    (p := fun e => is_display_event e || is_token_event e).
  - intros e H. destruct e as [| | | | | | | | | | | | | | []]; simpl in *;
      auto; discriminate.
  - apply preserves_show_message; auto with mail.
    + apply preserves_ensure_access_token; auto with mail.
      intros e H. apply only_adds_emit. rewrite H. apply orb_true_r.
    + intros e H. apply only_adds_emit. now rewrite H.
Qed.

Lemma held_stable_show_message msg :
  preserves held_stable (show_message env cfg msg).
Proof.
  apply preserves_show_message;
    auto using held_stable_preorder, held_stable_ensure_access_token.
  intros e H. now apply held_stable_emit, is_display_event_not_token_post.
Qed.

Lemma held_stable_forward_message msg :
  preserves held_stable (forward_message env cfg msg).
Proof.
  apply preserves_forward_message;
    auto using held_stable_preorder, held_stable_ensure_access_token.
  intros e H. now apply held_stable_emit, is_forward_event_not_token_post.
Qed.

Lemma held_stable_process_message msg :
  preserves held_stable (process_message env cfg msg).
Proof.
  apply preserves_process_message;
    auto using held_stable_preorder, held_stable_ensure_access_token,
               held_stable_emit_processing.
Qed.

Hypothesis Hexn : only_exceptions env.

Lemma process_message_fetches msg w :
  forwarding_enabled cfg ->
  truthy (access_token w) = true ->
  truthy (msg_id msg) = true ->
  mime_fetches (trace (snd (process_message env cfg msg w)))
  = (mime_fetches (trace w) ++ [mime_url cfg msg])%list.
Proof.
  intros Hon Hheld Hid. unfold process_message, bind.
  pose proof (show_message_mime_same msg w) as Hs.
  pose proof (held_stable_show_message msg w Hheld) as [Htok _].
  destruct (never_raises_run _ w (show_message_total env cfg Hexn msg))
    as ([] & w1 & Hrun).
  rewrite Hrun in *. cbn [snd] in *.
  rewrite <- Hs. apply forward_message_fetches; auto. now rewrite Htok.
Qed.

(** The loop attempts every message of the batch, in order. *)
Lemma processing_fetches msgs w :
  forwarding_enabled cfg ->
  truthy (access_token w) = true ->
  Forall (fun m => truthy (msg_id m) = true) msgs ->
  mime_fetches (trace (snd (for_each msgs (process_message env cfg) w)))
  = (mime_fetches (trace w) ++ map (mime_url cfg) msgs)%list.
Proof.
  intros Hon Hheld Hids. revert w Hheld.
  induction Hids as [| m msgs Hid Hids IH]; intros w Hheld; simpl.
  - now rewrite app_nil_r.
  - unfold bind.
    pose proof (process_message_fetches m w Hon Hheld Hid) as Hf.
    pose proof (held_stable_process_message m w Hheld) as [Htok _].
    destruct (never_raises_run _ w (process_message_total env cfg Hexn m))
      as ([] & w1 & Hrun).
    rewrite Hrun in *. cbn [snd] in *.
    rewrite IH by now rewrite Htok.
    now rewrite Hf, <- app_assoc.
Qed.

End Forwarding.

(** ** The cycle *)

Section Cycle.

Context (env : environment) (cfg : config).

Lemma ensure_then {A} (K : unit -> M A) w w0 :
  ensure_access_token env cfg w = (Ok tt, w0) ->
  bind (ensure_access_token env cfg) K w = K tt w0.
Proof. intros H. unfold bind. now rewrite H. Qed.

Lemma ensure_then_raise {A} (K : unit -> M A) w e w0 :
  ensure_access_token env cfg w = (Raise e, w0) ->
  bind (ensure_access_token env cfg) K w = (Raise e, w0).
Proof. intros H. unfold bind. now rewrite H. Qed.

(** The query that a cycle runs after its own token check is the query run
    from the start of the cycle. *)
Lemma get_new_messages_after_ensure folder limit w w0 :
  ensure_access_token env cfg w = (Ok tt, w0) ->
  get_new_messages env cfg folder limit w0
  = get_new_messages env cfg folder limit w.
Proof.
  intros He. unfold get_new_messages.
  rewrite (ensure_then _ w w0 He).
  rewrite (ensure_then _ w0 w0); auto.
  apply ensure_access_token_held. eapply ensure_access_token_ok; eauto.
Qed.

(** A cycle is the query followed by the loop over its result; an
    [Exception] from either ends the cycle with a printed error and an empty
    batch. *)
Lemma check_for_new_emails_eq w :
  check_for_new_emails env cfg w =
    let (r, w1) := get_new_messages env cfg "inbox" 50 w in
    match r with
    | Ok msgs =>
        let (r2, w2) := for_each msgs (process_message env cfg) w1 in
        match r2 with
        | Ok _ => (Ok msgs, w2)
        | Raise e =>
            if is_Exception e
            then (Ok [], emitted w2 [EvPrint (OutCycleError e)])
            else (Raise e, w2)
        end
    | Raise e =>
        if is_Exception e
        then (Ok [], emitted w1 [EvPrint (OutCycleError e)])
        else (Raise e, w1)
    end.
Proof.
  unfold check_for_new_emails, try_except.
  destruct (ensure_access_token env cfg w) as [[[] | e] w0] eqn:He.
  - rewrite (ensure_then _ w w0 He).
    unfold bind at 1.
    rewrite (get_new_messages_after_ensure "inbox" 50 w w0 He).
    destruct (get_new_messages env cfg "inbox" 50 w) as [[msgs | e] w1].
    + unfold bind.
      destruct (for_each msgs (process_message env cfg) w1) as [[[] | e] w2];
        auto.
    + reflexivity.
  - rewrite (ensure_then_raise _ w e w0 He).
    unfold get_new_messages. rewrite (ensure_then_raise _ w e w0 He).
    reflexivity.
Qed.

Lemma file_same_ensure_access_token :
  preserves file_same (ensure_access_token env cfg).
Proof. apply preserves_ensure_access_token; auto with mail. Qed.

(** Displaying and forwarding never touch the tracking file. *)
Lemma processing_file_same msgs :
  preserves file_same (for_each msgs (process_message env cfg)).
Proof.
  apply preserves_processing; auto with mail.
  apply file_same_ensure_access_token.
Qed.

Lemma only_adds_ensure_access_token p :
  (forall e, is_token_event e = true -> p e = true) ->
  preserves (only_adds p) (ensure_access_token env cfg).
Proof.
  intros Hp. apply preserves_ensure_access_token; auto with mail.
  intros e H. apply only_adds_emit. auto.
Qed.

(** The query adds no display or forwarding effect. *)
Lemma get_new_messages_only_adds folder limit :
  preserves (only_adds (fun e => is_query_event e || is_token_event e))
            (get_new_messages env cfg folder limit).
Proof.
  apply preserves_get_new_messages; auto with mail.
  - apply only_adds_ensure_access_token. intros e ->. apply orb_true_r.
  - intros e H. apply only_adds_emit. now rewrite H.
Qed.

End Cycle.

(** * The claims *)

(** ** Forwarder switched off *)

(** C6: when forwarding is disabled by configuration, or no relay host is
    configured, or no recipient is left in the recipient list,
    [forward_message] returns normally and leaves the world as it found it:
    the trace gains no event, so there is no raw-content fetch, no SMTP
    connection and no printed error. *)
Theorem forward_message_noop env cfg msg w :
  ENABLE_SMTP_FORWARD cfg = false
  \/ SMTP_HOST cfg = ""
  \/ _normalize_recipients (SMTP_TO cfg) = [] ->
  forward_message env cfg msg w = (Ok tt, w).
Proof.
  intros H. unfold forward_message. cbv zeta.
  destruct H as [H | [H | H]]; rewrite H; simpl.
  - reflexivity.
  - now rewrite orb_true_r.
  - now rewrite orb_true_r.
Qed.

Lemma forward_message_noop_witness :
  (ENABLE_SMTP_FORWARD default_cfg = false
   \/ SMTP_HOST default_cfg = ""
   \/ _normalize_recipients (SMTP_TO default_cfg) = [])
  /\ forward_message (reference_env (fun _ => [m2; m1])) default_cfg m2
                     world_after_m2
     = (Ok tt, world_after_m2).
Proof.
  split.
  - left. reflexivity.
  - apply forward_message_noop. left. reflexivity.
Defined.

(** ** Lazy token acquisition *)

Section NoRetry.

Context (env : environment) (cfg : config).

Lemma get_attachments_one_request id w :
  truthy (access_token w) = true ->
  graph_gets (trace (snd (get_attachments env cfg id w)))
  = S (graph_gets (trace w)).
Proof.
  intros Hheld. unfold get_attachments.
  rewrite (ensure_then env cfg _ w w (ensure_access_token_held env cfg w Hheld)).
  unfold bearer, read_access_token, call, print, try_except, bind, emit, ret, raise.
  cbv beta iota.
  destruct (attachments_response env _) as [atts | e]; cbv beta iota.
  - cbn [snd trace set_trace]. rewrite graph_gets_snoc. simpl. lia.
  - destruct (is_RequestException e); cbn [snd trace set_trace];
      rewrite !graph_gets_snoc; simpl; lia.
Qed.

Lemma get_message_mime_one_request id w :
  truthy (access_token w) = true ->
  graph_gets (trace (snd (get_message_mime env cfg id w)))
  = S (graph_gets (trace w)).
Proof.
  intros Hheld. unfold get_message_mime.
  rewrite (ensure_then env cfg _ w w (ensure_access_token_held env cfg w Hheld)).
  unfold bearer, read_access_token, call, print, try_except, bind, emit, ret, raise.
  cbv beta iota.
  destruct (mime_response env _) as [mime | e]; cbv beta iota.
  - cbn [snd trace set_trace]. rewrite graph_gets_snoc. simpl. lia.
  - destruct (is_RequestException e); cbn [snd trace set_trace];
      rewrite !graph_gets_snoc; simpl; lia.
Qed.

Lemma file_events_no_request w w' :
  only_adds is_file_event w w' -> graph_gets (trace w') = graph_gets (trace w).
Proof.
  intros H. unfold graph_gets. f_equal.
  eapply only_adds_filter; [| exact H].
  intros e He. destruct e; simpl in *; auto; discriminate.
Qed.

Lemma failure_report_no_request w e :
  graph_gets (trace (emitted w (failure_report e))) = graph_gets (trace w).
Proof.
  unfold failure_report. destruct (is_RequestException e); [| reflexivity].
  destruct (exn_response e); simpl; rewrite !graph_gets_snoc; simpl; lia.
Qed.

(** With a token held, a call of [get_new_messages] sends at most one
    listing request, however it ends. *)
Lemma get_new_messages_one_request folder limit w :
  truthy (access_token w) = true ->
  (graph_gets (trace (snd (get_new_messages env cfg folder limit w)))
   <= S (graph_gets (trace w)))%nat.
Proof.
  intros Hheld.
  pose proof (ensure_access_token_held env cfg w Hheld) as He.
  pose proof (get_new_messages_run env cfg folder limit w) as Hrun.
  inversion Hrun as
    [ e w0 He0 | w0 e w1 He0 Hl | w0 cursor w1 e He0 Hl w2 Hresp
    | w0 cursor w1 response He0 Hl w2 Hresp Hdrop
    | w0 cursor w1 response newest rest w3 He0 Hl w2 Hresp Hdrop Hsave
    | w0 cursor w1 response newest rest e w3 He0 Hl w2 Hresp Hdrop Hsave ];
    rewrite He in He0; try discriminate; injection He0 as <-;
    pose proof (file_events_no_request _ _ (load_only_adds env w)) as Hload;
    rewrite Hl in Hload; cbn [snd] in Hload.
  - lia.
  - rewrite failure_report_no_request. subst w2. simpl.
    rewrite graph_gets_snoc. simpl. lia.
  - subst w2. simpl. rewrite graph_gets_snoc. simpl. lia.
  - pose proof (file_events_no_request _ _ (save_only_adds env newest w2)) as Hs.
    rewrite Hsave in Hs. cbn [snd] in Hs. rewrite Hs.
    subst w2. simpl. rewrite graph_gets_snoc. simpl. lia.
  - rewrite failure_report_no_request.
    pose proof (file_events_no_request _ _ (save_only_adds env newest w2)) as Hs.
    rewrite Hsave in Hs. cbn [snd] in Hs. rewrite Hs.
    subst w2. simpl. rewrite graph_gets_snoc. simpl. lia.
Qed.

Lemma guarded_operation_posts {A} (op : M A) (K : unit -> M A) w :
  (forall w', op w' = bind (ensure_access_token env cfg) K w') ->
  preserves held_stable op ->
  token_posts (trace (snd (op w)))
  = (token_posts (trace w) + if truthy (access_token w) then 0 else 1)%nat.
Proof.
  intros Hop Hstable.
  destruct (truthy (access_token w)) eqn:Hheld.
  - destruct (Hstable w Hheld) as [_ ->]. lia.
  - rewrite Hop. unfold bind.
    pose proof (ensure_access_token_posts env cfg w) as Hp.
    rewrite Hheld in Hp.
    destruct (ensure_access_token env cfg w) as [[[] | e] w0] eqn:He;
      cbn [snd] in *; [| exact Hp].
    assert (K tt w0 = op w0) as ->.
    { rewrite Hop. unfold bind.
      rewrite ensure_access_token_held; auto.
      eapply ensure_access_token_ok; eauto. }
    destruct (Hstable w0 (ensure_access_token_ok env cfg _ _ He)) as [_ ->].
    exact Hp.
Qed.

(** A query that returns messages leaves a token in the reader. *)
Lemma get_new_messages_ok_held folder limit w msgs w1 :
  get_new_messages env cfg folder limit w = (Ok msgs, w1) ->
  truthy (access_token w1) = true.
Proof.
  intros Hq.
  pose proof (get_new_messages_run env cfg folder limit w) as Hrun.
  rewrite Hq in Hrun. cbn [fst snd] in Hrun.
  inversion Hrun as
    [ | | | w0 cursor w1' response He0 Hl w2 Hresp Hdrop
    | w0 cursor w1' response newest rest w3 He0 Hl w2 Hresp Hdrop Hsave | ];
    subst.
  - pose proof (load_token_same env w0) as Ht. rewrite Hl in Ht.
    unfold token_same in Ht. cbn [snd] in Ht. simpl. rewrite Ht.
    eapply ensure_access_token_ok; eauto.
  - pose proof (load_token_same env w0) as Ht. rewrite Hl in Ht.
    pose proof (save_token_same env newest w2) as Hs. rewrite Hsave in Hs.
    unfold token_same in *. cbn [snd] in *. rewrite Hs. subst w2. simpl.
    rewrite Ht. eapply ensure_access_token_ok; eauto.
Qed.

Lemma check_for_new_emails_posts w :
  token_posts (trace (snd (check_for_new_emails env cfg w)))
  = token_posts (trace (snd (get_new_messages env cfg "inbox" 50 w))).
Proof.
  rewrite check_for_new_emails_eq.
  destruct (get_new_messages env cfg "inbox" 50 w) as [[msgs | e] w1] eqn:Hq;
    cbn [snd].
  - pose proof (get_new_messages_ok_held _ _ _ _ _ Hq) as Hheld.
    destruct (held_stable_processing env cfg msgs w1 Hheld) as [_ Hp].
    destruct (for_each msgs (process_message env cfg) w1) as [[[] | e] w2];
      cbn [snd] in *; auto.
    destruct (is_Exception e); cbn [snd]; auto.
    simpl. rewrite token_posts_snoc. simpl. lia.
  - destruct (is_Exception e); cbn [snd]; auto.
    simpl. rewrite token_posts_snoc. simpl. lia.
Qed.

End NoRetry.

(** C7: a token is obtained lazily and only when none is held.  Each mailbox
    operation ([get_attachments], [get_message_mime], [get_new_messages]) and
    each cycle makes exactly one credential exchange when the reader holds no
    token, and none when it holds one.  With a token held, any number of
    iterations of the main loop reuse it: it is never exchanged again and the
    stored token does not change.  Whatever the server answers to a request
    sent with the held token (an authorization failure included), the
    operation neither reacquires nor retries: the token is unchanged and the
    operation has sent one request (at most one for the listing). *)
Theorem token_acquired_only_when_absent env cfg w :
  let expected :=
    (token_posts (trace w) + if truthy (access_token w) then 0 else 1)%nat in
  (forall id,
      token_posts (trace (snd (get_attachments env cfg id w))) = expected)
  /\ (forall id,
         token_posts (trace (snd (get_message_mime env cfg id w))) = expected)
  /\ (forall folder limit,
         token_posts (trace (snd (get_new_messages env cfg folder limit w)))
         = expected)
  /\ token_posts (trace (snd (check_for_new_emails env cfg w))) = expected
  /\ (truthy (access_token w) = true ->
      (forall fuel,
          access_token (snd (main_loop env cfg fuel w)) = access_token w
          /\ token_posts (trace (snd (main_loop env cfg fuel w)))
             = token_posts (trace w))
      /\ (forall id,
             access_token (snd (get_attachments env cfg id w)) = access_token w
             /\ graph_gets (trace (snd (get_attachments env cfg id w)))
                = S (graph_gets (trace w)))
      /\ (forall id,
             access_token (snd (get_message_mime env cfg id w)) = access_token w
             /\ graph_gets (trace (snd (get_message_mime env cfg id w)))
                = S (graph_gets (trace w)))
      /\ (forall folder limit,
             access_token (snd (get_new_messages env cfg folder limit w))
             = access_token w
             /\ (graph_gets (trace (snd (get_new_messages env cfg folder limit w)))
                 <= S (graph_gets (trace w)))%nat)).
Proof.
  cbv zeta. repeat split.
  - intros id. eapply guarded_operation_posts.
    + intros w'. reflexivity.
    + apply held_stable_get_attachments.
  - intros id. eapply guarded_operation_posts.
    + intros w'. reflexivity.
    + apply held_stable_get_message_mime.
  - intros folder limit. eapply guarded_operation_posts.
    + intros w'. reflexivity.
    + apply held_stable_get_new_messages.
  - rewrite check_for_new_emails_posts. eapply guarded_operation_posts.
    + intros w'. reflexivity.
    + apply held_stable_get_new_messages.
  - apply (held_stable_main_loop env cfg fuel w H).
  - apply (held_stable_main_loop env cfg fuel w H).
  - apply (held_stable_get_attachments env cfg id w H).
  - now apply get_attachments_one_request.
  - apply (held_stable_get_message_mime env cfg id w H).
  - now apply get_message_mime_one_request.
  - apply (held_stable_get_new_messages env cfg folder limit w H).
  - now apply get_new_messages_one_request.
Qed.

(** Three iterations of the loop that start with a token make no credential
    exchange. *)
Lemma token_acquired_only_when_absent_witness :
  truthy (access_token world_after_m2) = true
  /\ token_posts
       (trace (snd (main_loop (reference_env (fun _ => [m2; m1]))
                              forwarding_cfg 3 world_after_m2)))
     = token_posts (trace world_after_m2).
Proof.
  split.
  - reflexivity.
  - destruct (token_acquired_only_when_absent
                (reference_env (fun _ => [m2; m1])) forwarding_cfg
                world_after_m2) as (_ & _ & _ & _ & Hheld).
    destruct (Hheld eq_refl) as (Hloop & _).
    apply (Hloop 3%nat).
Defined.

(** ** Failures contained in the cycle *)

Section Containment.

Context (env : environment) (cfg : config).
Hypothesis Hexn : only_exceptions env.

Lemma messages_raises_exception tr x :
  messages_response env tr = Raise x -> is_Exception x = true.
Proof. apply (Hexn tr). Qed.

Lemma open_read_raises_exception tr x :
  open_read_fault env tr = Some x -> is_Exception x = true.
Proof. apply (Hexn tr). Qed.

Lemma open_write_raises_exception tr x :
  open_write_fault env tr = Some x -> is_Exception x = true.
Proof. apply (Hexn tr). Qed.

Lemma dump_raises_exception tr x :
  dump_fault env tr = Some x -> is_Exception x = true.
Proof. apply (Hexn tr). Qed.

Hint Resolve messages_raises_exception open_read_raises_exception
  open_write_raises_exception dump_raises_exception : core.

Lemma raises_load_last_email_timestamp :
  raises_only is_Exception (load_last_email_timestamp env).
Proof.
  unfold load_last_email_timestamp.
  raises_with ltac:(unfold read_tracking_file).
Qed.

Lemma raises_set_tracking_file f : raises_only is_Exception (set_tracking_file f).
Proof. apply raises_only_total. intros w. now exists tt. Qed.

Lemma raises_save_last_email_timestamp msg :
  raises_only is_Exception (save_last_email_timestamp env msg).
Proof.
  pose proof raises_set_tracking_file.
  unfold save_last_email_timestamp.
  raises_with ltac:(unfold silent_mode, negb).
Qed.

Lemma raises_get_new_messages folder limit :
  raises_only is_Exception (get_new_messages env cfg folder limit).
Proof.
  pose proof (raises_ensure_access_token env cfg Hexn).
  pose proof raises_load_last_email_timestamp.
  pose proof raises_save_last_email_timestamp.
  unfold get_new_messages.
  raises_with ltac:(unfold bearer, print_response, silent_mode, negb).
Qed.

(** With no signal arriving, a cycle always returns a batch. *)
Lemma check_for_new_emails_total : never_raises (check_for_new_emails env cfg).
Proof.
  unfold check_for_new_emails. apply never_raises_try_except.
  - pose proof (raises_ensure_access_token env cfg Hexn).
    pose proof (raises_get_new_messages "inbox" 50).
    assert (forall msgs,
               raises_only is_Exception
                           (for_each msgs (process_message env cfg)))
      by (intros msgs; apply raises_only_total, processing_total, Hexn).
    raises_with idtac.
  - intros e. apply never_raises_bind; [apply never_raises_print |].
    intros _. apply never_raises_ret.
Qed.

Lemma run_count_check_for_new_emails w :
  run_count (snd (check_for_new_emails env cfg w)) = run_count w.
Proof.
  assert (preorder (fun a b => run_count b = run_count a)) as Hpre
    by (split; intros; congruence).
  assert (forall e, preserves (fun a b => run_count b = run_count a) (emit e))
    by (intros e w'; reflexivity).
  apply (@preserves_check_for_new_emails env cfg _ Hpre); auto.
  - apply preserves_ensure_access_token; auto. intros v w'. reflexivity.
  - intros f w'. reflexivity.
Qed.

(** In continuous mode, with a valid delay and no signal, the loop is still
    running after any number of iterations, one cycle per iteration. *)
Lemma main_loop_keeps_running fuel w :
  ENABLE_CONTINUOUS_LOOP cfg = true ->
  0 <= LOOP_DELAY_SECONDS cfg ->
  (forall tr, sleep_fault env tr = None) ->
  exists w',
    main_loop env cfg fuel w = (Ok LoopRunning, w')
    /\ run_count w' = (run_count w + fuel)%nat.
Proof.
  intros Hcont Hdelay Hsleep. revert w.
  induction fuel as [| fuel IH]; intros w; simpl.
  - exists w. split; auto.
  - unfold bind at 1. unfold get_world at 1. unfold bind at 1.
    unfold set_counters at 1. unfold bind at 1.
    match goal with
    | |- context [check_for_new_emails env cfg ?w0] =>
        pose proof (run_count_check_for_new_emails w0) as Hrc;
        destruct (never_raises_run _ w0 check_for_new_emails_total)
          as (msgs & w1 & Hrun)
    end.
    rewrite Hrun in *. cbn [snd run_count] in Hrc.
    rewrite Hcont. cbn [negb].
    unfold bind at 1. unfold get_world at 1. unfold bind at 1.
    assert (exists w2,
               when (negb (is_empty msgs))
                    (set_counters (run_count w1)
                                  (new_emails_count w1 + length msgs)%nat) w1
               = (Ok tt, w2)
               /\ run_count w2 = run_count w1) as (w2 & -> & Hrc2).
    { destruct (is_empty msgs); simpl; eexists; split; reflexivity. }
    unfold bind at 1. unfold sleep.
    destruct (Z.ltb_spec (LOOP_DELAY_SECONDS cfg) 0) as [Hneg | _]; [lia |].
    unfold step, bind, emit. cbv beta iota. rewrite Hsleep.
    match goal with
    | |- context [main_loop env cfg fuel ?w3] =>
        destruct (IH w3) as (w' & Hloop & Hcount)
    end.
    exists w'. split; [exact Hloop |].
    rewrite Hcount. simpl. rewrite Hrc2, Hrc. lia.
Qed.

End Containment.

Lemma not_interrupt_is_exception e :
  is_KeyboardInterrupt e = false -> is_Exception e = true.
Proof. unfold is_KeyboardInterrupt, is_Exception. now destruct (exn_cls e). Qed.

Lemma main_prologue {A} (k : M A) w :
  (print OutMonitorStarted ;; set_counters 0 0 ;; set_access_token None ;; k) w
  = k (main_start w).
Proof. reflexivity. Qed.

(** The exit code of [main] from the way its loop ends. *)
Lemma main_exit_code env cfg fuel w :
  fst (main env cfg fuel w) =
    match fst (main_loop env cfg fuel (main_start w)) with
    | Ok LoopLeft => Some 0
    | Ok LoopRunning => None
    | Raise e => if is_KeyboardInterrupt e then Some 0 else Some 1
    end.
Proof.
  unfold main. rewrite main_prologue.
  unfold try_except, bind.
  destruct (main_loop env cfg fuel (main_start w)) as [[[] | e] w'];
    cbn [fst]; auto.
  destruct (is_KeyboardInterrupt e) eqn:Hk.
  - reflexivity.
  - now rewrite (not_interrupt_is_exception e Hk).
Qed.

Lemma main_running env cfg fuel w w' :
  main_loop env cfg fuel (main_start w) = (Ok LoopRunning, w') ->
  main env cfg fuel w = (None, w').
Proof.
  intros H. unfold main. rewrite main_prologue.
  unfold try_except, bind. now rewrite H.
Qed.


Lemma graph_server_raises_exception mailbox_at tr e :
  graph_server mailbox_at tr = Raise e -> is_Exception e = true.
Proof.
  unfold graph_server. destruct (last tr EvNow); intros H;
    try discriminate; now injection H as <-.
Qed.

Lemma bad_credentials_only_exceptions : only_exceptions bad_credentials_env.
Proof.
  intros tr. simpl. unfold no_fault. repeat split; intros e H;
    try discriminate.
  - now injection H as <-.
  - eapply graph_server_raises_exception; eauto.
Qed.


(** Ctrl+C during a wait: exit code 0, with the counters printed. *)
Example main_cancelled_exits_0 :
  fst (main (interrupted_env (fun _ => [m2; m1])) default_cfg 5 fresh_world)
  = Some 0.
Proof. vm_compute. reflexivity. Qed.

(** A negative delay makes [time.sleep] raise [ValueError] outside the
    cycle: the error escapes the loop and the exit code is 1. *)
Example main_fatal_exits_1 :
  fst (main (reference_env (fun _ => [m2; m1])) negative_delay_cfg 5 fresh_world)
  = Some 1.
Proof. vm_compute. reflexivity. Qed.

(** ** Every forward attempt is reported *)

Section Reports.

Context (env : environment) (cfg : config).
Hypothesis Hexn : only_exceptions env.

Lemma reports_grow_ensure_access_token :
  preserves reports_grow (ensure_access_token env cfg).
Proof. apply preserves_ensure_access_token; auto with mail. Qed.

Lemma reports_grow_get_message_mime id :
  preserves reports_grow (get_message_mime env cfg id).
Proof.
  apply preserves_get_message_mime; auto with mail.
  apply reports_grow_ensure_access_token.
Qed.

Lemma reports_grow_show_message msg :
  preserves reports_grow (show_message env cfg msg).
Proof.
  apply preserves_show_message; auto with mail.
  apply reports_grow_ensure_access_token.
Qed.

(** A fetch that yields nothing has printed its failure. *)
Lemma try_get_message_mime_reports id w fetched w1 :
  try_get_message_mime env cfg id w = (Ok fetched, w1) ->
  (forward_reports (trace w)
   + match fetched with None => 1 | Some _ => 0 end
   <= forward_reports (trace w1))%nat.
Proof.
  unfold try_get_message_mime, try_except.
  pose proof (reports_grow_get_message_mime id w) as Hgrow.
  unfold bind at 1.
  destruct (get_message_mime env cfg id w) as [[mime | e] w0];
    cbn [snd] in Hgrow; unfold reports_grow in Hgrow.
  - unfold ret. intros H. injection H as <- <-. lia.
  - destruct (is_Exception e); [| discriminate].
    unfold bind, print, emit, ret. intros H. injection H as <- <-.
    simpl. rewrite forward_reports_snoc. simpl. lia.
Qed.

(** An SMTP session ends with [Forwarded] or with its failure line. *)
Lemma try_smtp_forward_reports recipients mime_content w :
  (forward_reports (trace w) + 1
   <= forward_reports
        (trace (snd (try_smtp_forward env cfg recipients mime_content w))))%nat.
Proof.
  unfold try_smtp_forward, try_except.
  match goal with
  | |- context [bind ?c ?k w] =>
      assert (preserves reports_grow (bind c k)) as Hgrow
        by (preserve_with ltac:(unfold smtp_session));
      assert (raises_only is_Exception (bind c k)) as Hraise
        by (pose proof (smtp_raises_exception env Hexn);
            raises_with ltac:(unfold smtp_session));
      specialize (Hgrow w); specialize (Hraise w);
      destruct (bind c k w) as [[[] | e] w1] eqn:Hbody
  end; cbn [fst snd] in *; unfold reports_grow in Hgrow.
  - apply bind_ok_inv in Hbody. destruct Hbody as ([] & wa & Hconn & Hwith).
    assert (forward_reports (trace w) <= forward_reports (trace wa))%nat as H1.
    { assert (preserves reports_grow
                (step (EvSmtpConnect (SMTP_HOST cfg) (SMTP_PORT cfg) 30)
                      (smtp_fault env))) as Hp by preserve_with idtac.
      specialize (Hp w). now rewrite Hconn in Hp. }
    unfold with_exit in Hwith.
    destruct (smtp_session env cfg recipients mime_content wa)
      as [r wb] eqn:Hsession.
    assert (forward_reports (trace wb) <= forward_reports (trace w1))%nat as H3.
    { assert (preserves reports_grow (step EvSmtpQuit (smtp_fault env))) as Hp
        by preserve_with idtac.
      specialize (Hp wb). unfold reports_grow in Hp.
      destruct (step EvSmtpQuit (smtp_fault env) wb) as [[[] | e] wc];
        cbn [snd] in Hp; injection Hwith as _ <-; exact Hp. }
    assert (r = Ok tt) as ->.
    { destruct (step EvSmtpQuit (smtp_fault env) wb) as [[[] | e] wc];
        [now injection Hwith as -> _ | discriminate]. }
    unfold smtp_session in Hsession.
    apply bind_ok_inv in Hsession. destruct Hsession as ([] & w2 & Htls & Hs).
    apply bind_ok_inv in Hs. destruct Hs as ([] & w3 & Hlogin & Hs).
    apply bind_ok_inv in Hs. destruct Hs as ([] & w4 & Hsend & Hprint).
    assert (forward_reports (trace wa) <= forward_reports (trace w2))%nat as H2a.
    { assert (preserves reports_grow
                (when (SMTP_USE_TLS cfg) (step EvSmtpStartTls (smtp_fault env))))
        as Hp by preserve_with idtac.
      specialize (Hp wa). now rewrite Htls in Hp. }
    assert (forward_reports (trace w2) <= forward_reports (trace w3))%nat as H2b.
    { assert (preserves reports_grow
                (when (negb (SMTP_USERNAME cfg =? "")%string)
                      (step (EvSmtpLogin (SMTP_USERNAME cfg) (SMTP_PASSWORD cfg))
                            (smtp_fault env))))
        as Hp by preserve_with idtac.
      specialize (Hp w2). now rewrite Hlogin in Hp. }
    assert (forward_reports (trace w3) <= forward_reports (trace w4))%nat as H2c.
    { assert (preserves reports_grow
                (step (EvSmtpSendmail (SMTP_FROM cfg) recipients mime_content)
                      (smtp_fault env)))
        as Hp by preserve_with idtac.
      specialize (Hp w3). now rewrite Hsend in Hp. }
    unfold print, emit in Hprint. injection Hprint as <-.
    simpl in H3. rewrite forward_reports_snoc in H3. simpl in H3. lia.
  - rewrite (Hraise e eq_refl). unfold print, emit. simpl.
    rewrite forward_reports_snoc. simpl. lia.
Qed.

(** With forwarding on, a message with an id gets an outcome line. *)
Lemma forward_message_reports msg w :
  forwarding_enabled cfg ->
  truthy (msg_id msg) = true ->
  (forward_reports (trace w) + 1
   <= forward_reports (trace (snd (forward_message env cfg msg w))))%nat.
Proof.
  intros Hon Hid. unfold forward_message. cbv zeta.
  rewrite (forwarding_enabled_guard cfg Hon), Hid. cbn [negb].
  unfold bind.
  destruct (never_raises_run _ w
              (try_get_message_mime_total env cfg Hexn (py_str (msg_id msg))))
    as (fetched & w1 & Hrun).
  rewrite Hrun. pose proof (try_get_message_mime_reports _ _ _ _ Hrun) as Hr.
  destruct fetched as [mime |]; cbn [snd].
  - eapply Nat.le_trans;
      [| exact (try_smtp_forward_reports
                  (_normalize_recipients (SMTP_TO cfg)) mime w1)].
    lia.
  - unfold ret. cbn [snd]. lia.
Qed.

Lemma processing_reports msgs w :
  forwarding_enabled cfg ->
  Forall (fun m => truthy (msg_id m) = true) msgs ->
  (forward_reports (trace w) + length msgs
   <= forward_reports
        (trace (snd (for_each msgs (process_message env cfg) w))))%nat.
Proof.
  intros Hon Hids. revert w.
  induction Hids as [| m msgs Hid Hids IH]; intros w; simpl; [lia |].
  unfold bind at 1. unfold process_message. unfold bind at 1.
  pose proof (reports_grow_show_message m w) as Hshow.
  destruct (never_raises_run _ w (show_message_total env cfg Hexn m))
    as ([] & w1 & Hrun1).
  rewrite Hrun1 in *. cbn [snd] in Hshow. unfold reports_grow in Hshow.
  pose proof (forward_message_reports m w1 Hon Hid) as Hfwd.
  destruct (never_raises_run _ w1 (forward_message_total env cfg Hexn m))
    as ([] & w2 & Hrun2).
  rewrite Hrun2 in *. cbn [snd] in Hfwd.
  eapply Nat.le_trans; [| exact (IH w2)]. lia.
Qed.

End Reports.

(** ** Forward isolation *)

(** On a file system without faults, a query that returns a batch has
    written the cursor of the batch's first message. *)
Lemma batch_cursor_written env cfg folder limit w newest rest w1 :
  reliable_files env ->
  get_new_messages env cfg folder limit w = (Ok (newest :: rest), w1) ->
  exists now, tracking_file w1 = Stored (cursor_of newest now).
Proof.
  intros Hrel Hq.
  pose proof (get_new_messages_run env cfg folder limit w) as Hrun.
  rewrite Hq in Hrun. cbn [fst snd] in Hrun.
  inversion Hrun as
    [ | | | | w0 cursor w1' response newest' rest' w3 He0 Hl w2 Hresp Hdrop Hsave
    | ]; subst.
  destruct (save_reliable env newest w2 Hrel) as (w' & Hsave' & Hfile).
  rewrite Hsave in Hsave'. injection Hsave' as <-. eauto.
Qed.


Lemma relay_down_only_exceptions mailbox_at :
  only_exceptions (relay_down_env mailbox_at).
Proof.
  intros tr. simpl. unfold no_fault. repeat split; intros e H;
    try discriminate.
  - eapply graph_server_raises_exception; eauto.
  - destruct (last tr EvNow); discriminate.
  - destruct (last tr EvNow); try discriminate. now injection H as <-.
Qed.

Lemma forwarding_cfg_enabled : forwarding_enabled forwarding_cfg.
Proof. repeat split; discriminate. Qed.


(** ** What a successful query returned *)

Section QueryResult.

Context (env : environment) (cfg : config).

(** A batch is the server's answer to the listing request built from the
    loaded cursor, less the message that bears the stored id; the cursor is
    saved if and only if the batch is not empty. *)
Lemma get_new_messages_ok_inv folder limit w msgs w1 :
  get_new_messages env cfg folder limit w = (Ok msgs, w1) ->
  exists w0 cursor wl response,
    ensure_access_token env cfg w = (Ok tt, w0)
    /\ load_last_email_timestamp env w0 = (Ok cursor, wl)
    /\ messages_response env
         (trace wl ++ [listing_request cfg folder limit (fst cursor) wl])
       = Ok response
    /\ msgs = drop_last_processed (snd cursor) response
    /\ match msgs with
       | [] => w1 = emitted wl [listing_request cfg folder limit (fst cursor) wl]
       | newest :: _ =>
           save_last_email_timestamp env newest
             (emitted wl [listing_request cfg folder limit (fst cursor) wl])
           = (Ok tt, w1)
       end.
Proof.
  intros Hq.
  pose proof (get_new_messages_run env cfg folder limit w) as Hrun.
  rewrite Hq in Hrun. cbn [fst snd] in Hrun.
  inversion Hrun as
    [ | | | w0 cursor wl response He0 Hl w2 Hresp Hdrop
    | w0 cursor wl response newest rest w3 He0 Hl w2 Hresp Hdrop Hsave | ];
    subst; exists w0, cursor, wl, response.
  - rewrite Hdrop. repeat split; auto.
  - rewrite Hdrop. repeat split; auto.
Qed.

Lemma drop_last_processed_falsy id response :
  truthy id = false -> drop_last_processed id response = response.
Proof. intros H. unfold drop_last_processed. now rewrite H. Qed.

Lemma drop_last_processed_filter id response :
  truthy id = true ->
  drop_last_processed id response
  = filter (fun msg => py_neq (msg_id msg) id) response.
Proof.
  intros H. unfold drop_last_processed. rewrite H.
  now destruct response.
Qed.

Lemma drop_last_processed_incl id response m :
  In m (drop_last_processed id response) -> In m response.
Proof.
  unfold drop_last_processed.
  destruct (truthy id && negb (Nat.eqb (length response) 0)); auto.
  intros H. now apply filter_In in H.
Qed.

Lemma file_same_run {A} (m : M A) w r w' :
  preserves file_same m -> m w = (r, w') -> tracking_file w' = tracking_file w.
Proof. intros Hp Hm. specialize (Hp w). now rewrite Hm in Hp. Qed.

End QueryResult.

(** ** The first run *)


Lemma reference_only_exceptions mailbox_at :
  only_exceptions (reference_env mailbox_at).
Proof.
  intros tr. simpl. unfold no_fault. repeat split; intros e H;
    try discriminate.
  - eapply graph_server_raises_exception; eauto.
  - destruct (last tr EvNow); discriminate.
Qed.



(** ** Saving the cursor *)




(** ** Collision filtering *)

Section StoredCursor.

Context (env : environment) (cfg : config).

(** A query that starts from a readable stored cursor uses that cursor. *)
Lemma get_new_messages_from_cursor folder limit w c msgs w1 :
  tracking_file w = Stored c ->
  (forall tr, open_read_fault env tr = None) ->
  get_new_messages env cfg folder limit w = (Ok msgs, w1) ->
  exists wl response,
    tracking_file wl = Stored c
    /\ messages_response env
         (trace wl
          ++ [listing_request cfg folder limit (last_received_datetime c) wl])
       = Ok response
    /\ msgs = drop_last_processed (last_message_id c) response
    /\ match msgs with
       | [] => tracking_file w1 = Stored c
       | newest :: _ =>
           save_last_email_timestamp env newest
             (emitted wl [listing_request cfg folder limit
                            (last_received_datetime c) wl])
           = (Ok tt, w1)
       end.
Proof.
  intros Hfile Hread Hq.
  destruct (get_new_messages_ok_inv env cfg _ _ _ _ _ Hq)
    as (w0 & cursor & wl & response & He & Hl & Hresp & Hdrop & Hend).
  pose proof (file_same_run _ _ _ _ (file_same_ensure_access_token env cfg) He)
    as Hf0.
  pose proof (file_same_run _ _ _ _ (load_file_same env) Hl) as Hfl.
  pose proof (load_readable env w0 Hread) as Hload.
  rewrite Hl, Hf0, Hfile in Hload. cbn [fst cursor_in] in Hload.
  injection Hload as ->. cbn [fst snd] in *.
  exists wl, response. repeat split; auto; try congruence.
  destruct msgs as [| newest rest]; auto.
  subst w1. simpl. congruence.
Qed.

End StoredCursor.

(** C3: with a stored cursor that carries a message id, the batch is the
    server's answer with every message bearing that id removed, whatever the
    timestamps in the answer are: no returned message has the stored id.
    When the answer consists only of messages with the stored id (the
    timestamp tie), the batch is empty and the tracking file is left as it
    was. *)
Theorem collision_filter_drops_stored_id env cfg folder limit w c msgs w1 :
  tracking_file w = Stored c ->
  truthy (last_message_id c) = true ->
  (forall tr, open_read_fault env tr = None) ->
  get_new_messages env cfg folder limit w = (Ok msgs, w1) ->
  exists tr url authorization response,
    messages_response env
      (tr ++ [EvGetMessages url authorization
                (build_params limit (last_received_datetime c))])
    = Ok response
    /\ msgs = filter (fun m => py_neq (msg_id m) (last_message_id c)) response
    /\ (forall m, In m msgs -> msg_id m <> last_message_id c)
    /\ (Forall (fun m => msg_id m = last_message_id c) response ->
        msgs = [] /\ tracking_file w1 = Stored c).
Proof.
  intros Hfile Hid Hread Hq.
  destruct (get_new_messages_from_cursor env cfg _ _ _ _ _ _ Hfile Hread Hq)
    as (wl & response & Hfl & Hresp & Hdrop & Hend).
  rewrite drop_last_processed_filter in Hdrop by exact Hid.
  eexists (trace wl), _, _, response. split; [exact Hresp |].
  split; [exact Hdrop |]. split.
  - intros m Hin Heq. subst msgs. apply filter_In in Hin.
    destruct Hin as [_ Hneq]. apply py_neq_false in Heq. congruence.
  - intros Hall.
    assert (msgs = []) as Hnil.
    { subst msgs. clear - Hall. induction Hall as [| m l Hm Hl IH]; simpl; auto.
      apply py_neq_false in Hm. now rewrite Hm. }
    split; [exact Hnil |]. now rewrite Hnil in Hend.
Qed.

(** The scenario of the specification: the cursor is at [m2], and the next
    listing returns [m2] again. *)
Lemma collision_filter_drops_stored_id_witness :
  let env := replaying_env [m2] in
  let c := cursor_of m2 "2024-01-02T10:00:05" in
  let w1 := snd (get_new_messages env forwarding_cfg "inbox" 50 world_after_m2) in
  exists tr url authorization response,
    messages_response env
      (tr ++ [EvGetMessages url authorization
                (build_params 50 (last_received_datetime c))])
    = Ok response
    /\ [] = filter (fun m => py_neq (msg_id m) (last_message_id c)) response
    /\ (forall m, In m [] -> msg_id m <> last_message_id c)
    /\ (Forall (fun m => msg_id m = last_message_id c) response ->
        @nil message = [] /\ tracking_file w1 = Stored c).
Proof.
  cbv zeta.
  apply (collision_filter_drops_stored_id (replaying_env [m2]) forwarding_cfg
           "inbox" 50 world_after_m2).
  - reflexivity.
  - reflexivity.
  - intros tr. reflexivity.
  - vm_compute. reflexivity.
Defined.

(** ** The reference server keeps the contract *)

Lemma StronglySorted_filter {A} (R : A -> A -> Prop) (p : A -> bool) l :
  StronglySorted R l -> StronglySorted R (filter p l).
Proof.
  induction 1 as [| a l Hs IH Hall]; simpl; [constructor |].
  destruct (p a); auto. constructor; auto.
  rewrite Forall_forall in *. intros x Hx. apply Hall.
  now apply filter_In in Hx.
Qed.

Lemma StronglySorted_firstn {A} (R : A -> A -> Prop) n l :
  StronglySorted R l -> StronglySorted R (firstn n l).
Proof.
  intros Hs. revert n. induction Hs as [| a l Hs IH Hall]; intros n.
  - rewrite firstn_nil. constructor.
  - destruct n as [| n]; simpl; constructor; auto.
    rewrite <- (firstn_skipn n l) in Hall. now apply Forall_app in Hall.
Qed.

Lemma graph_list_contract mailbox q :
  StronglySorted newer_or_equal mailbox ->
  Forall (fun m => truthy (msg_receivedDateTime m) = true
                   /\ matches_filter q m = true) (graph_list mailbox q)
  /\ StronglySorted newer_or_equal (graph_list mailbox q).
Proof.
  intros Hs. unfold graph_list. split.
  - rewrite Forall_forall. intros m Hin.
    assert (In m (filter
                    (fun m => truthy (msg_receivedDateTime m)
                              && matches_filter q m) mailbox)) as Hin'.
    { rewrite <- (firstn_skipn (Z.to_nat (q_top q))). apply in_or_app. now left. }
    apply filter_In in Hin'. destruct Hin' as [_ Hp].
    now apply andb_prop in Hp.
  - now apply StronglySorted_firstn, StronglySorted_filter.
Qed.

Lemma graph_server_contract mailbox_at tr url authorization q response :
  (forall k, StronglySorted newer_or_equal (mailbox_at k)) ->
  graph_server mailbox_at (tr ++ [EvGetMessages url authorization q])
  = Ok response ->
  Forall (fun m => truthy (msg_receivedDateTime m) = true
                   /\ matches_filter q m = true) response
  /\ StronglySorted newer_or_equal response.
Proof.
  intros Hs. unfold graph_server. rewrite last_last.
  intros H. injection H as <-. now apply graph_list_contract.
Qed.

Lemma reference_graph_contract mailbox_at :
  (forall k, StronglySorted newer_or_equal (mailbox_at k)) ->
  graph_contract (reference_env mailbox_at).
Proof.
  intros Hs tr url authorization q response. simpl.
  now apply graph_server_contract.
Qed.

Lemma reference_reliable_files mailbox_at :
  reliable_files (reference_env mailbox_at).
Proof. intros tr. repeat split. Qed.

(** ** The strict filter *)

Lemma build_params_filter limit ts :
  ts <> "" ->
  q_filter (build_params limit (Some ts)) = Some ("receivedDateTime gt " ++ ts).
Proof.
  intros Hts. unfold build_params. cbn [q_filter truthy py_str].
  apply String.eqb_neq in Hts. now rewrite Hts.
Qed.

Lemma matches_strict_filter limit ts m :
  ts <> "" ->
  matches_filter (build_params limit (Some ts)) m = true ->
  exists r, msg_receivedDateTime m = Some r /\ ts_ltb ts r = true.
Proof.
  intros Hts. unfold matches_filter.
  rewrite (build_params_filter limit ts Hts), gt_threshold_build.
  destruct (msg_receivedDateTime m) as [r |]; [eauto | discriminate].
Qed.

(** C10: with a stored cursor whose timestamp is [ts], the listing is
    requested with the strict filter [receivedDateTime gt ts].  A server that
    keeps the contract of that request returns no message received exactly
    at [ts], so such a message is not in the batch, whatever its id.  The
    client-side filter removes nothing but the messages bearing the stored
    id: every other message of the answer is in the batch, and the batch
    holds nothing else. *)
Theorem strict_filter_skips_ties env cfg folder limit w c ts msgs w1 :
  tracking_file w = Stored c ->
  last_received_datetime c = Some ts ->
  ts <> "" ->
  (forall tr, open_read_fault env tr = None) ->
  get_new_messages env cfg folder limit w = (Ok msgs, w1) ->
  exists tr url authorization response,
    messages_response env
      (tr ++ [EvGetMessages url authorization (build_params limit (Some ts))])
    = Ok response
    /\ q_filter (build_params limit (Some ts))
       = Some ("receivedDateTime gt " ++ ts)
    /\ (graph_contract env ->
        forall m, msg_receivedDateTime m = Some ts -> ~ In m msgs)
    /\ (forall m,
           In m response -> msg_id m <> last_message_id c -> In m msgs)
    /\ (forall m, In m msgs -> In m response).
Proof.
  intros Hfile Hts Hne Hread Hq.
  destruct (get_new_messages_from_cursor env cfg _ _ _ _ _ _ Hfile Hread Hq)
    as (wl & response & Hfl & Hresp & Hdrop & Hend).
  rewrite Hts in Hresp.
  eexists (trace wl), _, _, response. split; [exact Hresp |].
  assert (forall m, In m msgs -> In m response) as Hincl
    by (intros m Hin; subst msgs; eapply drop_last_processed_incl; eauto).
  repeat split; auto.
  - now apply build_params_filter.
  - intros Hcontract m Hm Hin.
    destruct (Hcontract _ _ _ _ _ Hresp) as [Hall _].
    rewrite Forall_forall in Hall.
    destruct (Hall m (Hincl m Hin)) as [_ Hmatch].
    destruct (matches_strict_filter limit ts m Hne Hmatch) as (r & Hr & Hlt).
    rewrite Hm in Hr. injection Hr as <-.
    rewrite ts_ltb_irrefl in Hlt. discriminate.
  - intros m Hin Hneq. subst msgs. unfold drop_last_processed.
    destruct (truthy (last_message_id c)
              && negb (Nat.eqb (length response) 0)); auto.
    apply filter_In. split; auto.
    destruct (py_neq (msg_id m) (last_message_id c)) eqn:E; auto.
    apply py_neq_false in E. contradiction.
Qed.

Lemma tie_mailbox_sorted :
  forall k : nat, StronglySorted newer_or_equal [m3; m2_tie; m2; m1].
Proof. intros k. repeat constructor. Qed.

(** The cursor is at [m2]; [m2_tie] was received in the same second.  The
    next listing returns [m3] only: [m2_tie] is skipped. *)
Lemma strict_filter_skips_ties_witness :
  let env := reference_env (fun _ => [m3; m2_tie; m2; m1]) in
  let run := get_new_messages env forwarding_cfg "inbox" 50 world_after_m2 in
  fst run = Ok [m3]
  /\ ~ In m2_tie [m3].
Proof.
  cbv zeta. split.
  - vm_compute. reflexivity.
  - destruct (strict_filter_skips_ties
                (reference_env (fun _ => [m3; m2_tie; m2; m1])) forwarding_cfg
                "inbox" 50 world_after_m2
                (cursor_of m2 "2024-01-02T10:00:05") "2024-01-02T10:00:00Z"
                [m3]
                (snd (get_new_messages
                        (reference_env (fun _ => [m3; m2_tie; m2; m1]))
                        forwarding_cfg "inbox" 50 world_after_m2)))
      as (tr & url & authorization & response & _ & _ & Hskip & _).
    + reflexivity.
    + reflexivity.
    + discriminate.
    + intros tr. reflexivity.
    + vm_compute. reflexivity.
    + apply Hskip.
      * apply reference_graph_contract, tie_mailbox_sorted.
      * reflexivity.
Defined.

(** ** The cursor only moves forward *)

Section Monotone.

Context (env : environment) (cfg : config).
Hypothesis Hcontract : graph_contract env.
Hypothesis Hreliable : reliable_files env.

Lemma reliable_reads tr : open_read_fault env tr = None.
Proof. apply (Hreliable tr). Qed.

Lemma emitted_file w evs : tracking_file (emitted w evs) = tracking_file w.
Proof.
  revert w. induction evs as [| e evs IH]; intros w; simpl; auto.
  now rewrite IH.
Qed.

Lemma ts_leb_empty r : ts_leb "" r = true.
Proof. now destruct r. Qed.

Lemma ts_leb_empty_inv t : ts_leb t "" = true -> t = "".
Proof. destruct t; [auto | discriminate]. Qed.

(** The message a batch starts with was received after the cursor that the
    query started from. *)
Lemma batch_head_after_cursor limit stored response newest :
  Forall (fun m => truthy (msg_receivedDateTime m) = true
                   /\ matches_filter (build_params limit stored) m = true)
         response ->
  In newest response ->
  pyval_leb stored (msg_receivedDateTime newest) = true.
Proof.
  intros Hall Hin. rewrite Forall_forall in Hall.
  destruct (Hall newest Hin) as [Htruthy Hmatch].
  destruct (truthy_Some _ Htruthy) as (r & Hr & _).
  destruct stored as [t |]; [| reflexivity].
  rewrite Hr. simpl.
  destruct (String.eqb_spec t "") as [-> | Hne]; [apply ts_leb_empty |].
  destruct (matches_strict_filter limit t newest Hne Hmatch) as (r' & Hr' & Hlt).
  rewrite Hr in Hr'. injection Hr' as <-. now apply ts_ltb_leb.
Qed.

(** One query never moves the stored timestamp backwards. *)
Lemma query_monotone folder limit w :
  pyval_leb (stored_timestamp (tracking_file w))
            (stored_timestamp
               (tracking_file (snd (get_new_messages env cfg folder limit w))))
  = true.
Proof.
  pose proof (get_new_messages_run env cfg folder limit w) as Hrun.
  pose proof (file_same_ensure_access_token env cfg w) as Hf0.
  inversion Hrun as
    [ e w0 He0 | w0 e wl He0 Hl | w0 cursor wl e He0 Hl w2 Hresp
    | w0 cursor wl response He0 Hl w2 Hresp Hdrop
    | w0 cursor wl response newest rest w3 He0 Hl w2 Hresp Hdrop Hsave
    | w0 cursor wl response newest rest e w3 He0 Hl w2 Hresp Hdrop Hsave ];
    rewrite He0 in Hf0; unfold file_same in Hf0; cbn [snd] in Hf0;
    try (pose proof (file_same_run _ _ _ _ (load_file_same env) Hl) as Hfl).
  - rewrite Hf0. apply pyval_leb_refl.
  - rewrite Hfl, Hf0. apply pyval_leb_refl.
  - rewrite emitted_file. subst w2. rewrite emitted_file, Hfl, Hf0.
    apply pyval_leb_refl.
  - subst w2. rewrite emitted_file, Hfl, Hf0. apply pyval_leb_refl.
  - destruct (save_reliable env newest w2 Hreliable) as (w' & Hsave' & Hfile).
    rewrite Hsave in Hsave'. injection Hsave' as <-.
    rewrite Hfile. cbn [stored_timestamp cursor_of last_received_datetime].
    pose proof (load_readable env w0 reliable_reads) as Hload.
    rewrite Hl in Hload. cbn [fst] in Hload. injection Hload as ->.
    destruct (Hcontract _ _ _ _ _ Hresp) as [Hall _].
    assert (In newest response) as Hin.
    { eapply drop_last_processed_incl. rewrite Hdrop. now left. }
    rewrite <- Hf0.
    destruct (tracking_file w0) as [| | c]; try reflexivity.
    eapply batch_head_after_cursor; eauto.
  - destruct (save_reliable env newest w2 Hreliable) as (w' & Hsave' & _).
    rewrite Hsave in Hsave'. discriminate.
Qed.

Lemma check_for_new_emails_file w :
  tracking_file (snd (check_for_new_emails env cfg w))
  = tracking_file (snd (get_new_messages env cfg "inbox" 50 w)).
Proof.
  rewrite check_for_new_emails_eq.
  destruct (get_new_messages env cfg "inbox" 50 w) as [[msgs | e] w1];
    cbn [snd].
  - pose proof (processing_file_same env cfg msgs w1) as Hf.
    unfold file_same in Hf.
    destruct (for_each msgs (process_message env cfg) w1) as [[[] | e] w2];
      cbn [snd] in *; auto.
    destruct (is_Exception e); cbn [snd]; auto.
  - destruct (is_Exception e); cbn [snd]; auto.
Qed.

(** One cycle never moves the stored timestamp backwards. *)
Lemma cycle_monotone w :
  pyval_leb (stored_timestamp (tracking_file w))
            (stored_timestamp
               (tracking_file (snd (check_for_new_emails env cfg w))))
  = true.
Proof. rewrite check_for_new_emails_file. apply query_monotone. Qed.

(** Nor does anything that happens later. *)
Lemma later_monotone w w' :
  later env cfg w w' ->
  pyval_leb (stored_timestamp (tracking_file w))
            (stored_timestamp (tracking_file w')) = true.
Proof.
  induction 1 as [w | w w' Hlater IH | w w' w'' Hlater IH Hsame].
  - apply pyval_leb_refl.
  - eapply pyval_leb_trans; [exact IH | apply cycle_monotone].
  - now rewrite Hsame.
Qed.

End Monotone.


Lemma growing_mailbox_sorted :
  forall k, StronglySorted newer_or_equal (growing_mailbox k).
Proof. intros [| k]; repeat constructor. Qed.


Example cursor_after_two_cycles :
  let env := reference_env growing_mailbox in
  stored_timestamp (tracking_file (run_cycles env forwarding_cfg 1 fresh_world))
  = Some "2024-01-02T10:00:00Z"
  /\ stored_timestamp
       (tracking_file (run_cycles env forwarding_cfg 2 fresh_world))
     = Some "2024-01-03T10:00:00Z".
Proof. vm_compute. split; reflexivity. Qed.

(** ** A cycle forwards only what its query returned *)

Section FetchesWithin.

Context (env : environment) (cfg : config).

Lemma preserves_for_each_in {A} (R : world -> world -> Prop) (xs : list A)
  (body : A -> M unit) :
  preorder R ->
  (forall x, In x xs -> preserves R (body x)) ->
  preserves R (for_each xs body).
Proof.
  intros HR H. induction xs as [| x xs IH]; simpl.
  - now apply preserves_ret.
  - apply preserves_bind; auto.
    + apply H. now left.
    + intros _. apply IH. intros y Hy. apply H. now right.
Qed.

Lemma fetches_within_quiet batch w w' :
  mime_fetches (trace w') = mime_fetches (trace w) ->
  fetches_within cfg batch w w'.
Proof.
  intros H. exists []. split; [now rewrite app_nil_r | intros x []].
Qed.

Lemma fetches_within_emit_quiet batch e :
  is_mime_fetch e = false -> preserves (fetches_within cfg batch) (emit e).
Proof.
  intros H. apply fetches_within_emit. destruct e; try reflexivity; discriminate.
Qed.

Lemma fetches_within_emit_fetch batch m authorization :
  In m batch ->
  preserves (fetches_within cfg batch)
            (emit (EvGetMime (mime_url cfg m) authorization)).
Proof.
  intros Hin w. exists [mime_url cfg m]. split.
  - simpl. now rewrite mime_fetches_app.
  - intros x [<- | []]. now apply in_map.
Qed.

Lemma fetches_within_ensure_access_token batch :
  preserves (fetches_within cfg batch) (ensure_access_token env cfg).
Proof.
  apply preserves_ensure_access_token; auto with mail.
  intros e H. apply fetches_within_emit_quiet.
  destruct e; try reflexivity; discriminate.
Qed.

Lemma fetches_within_show_message batch m :
  preserves (fetches_within cfg batch) (show_message env cfg m).
Proof.
  apply preserves_show_message; auto with mail.
  - apply fetches_within_ensure_access_token.
  - intros e H. apply fetches_within_emit_quiet.
    destruct e; try reflexivity; discriminate.
Qed.

Lemma fetches_within_get_message_mime batch m :
  In m batch ->
  preserves (fetches_within cfg batch)
            (get_message_mime env cfg (py_str (msg_id m))).
Proof.
  intros Hin.
  pose proof (fetches_within_ensure_access_token batch) as Hens.
  pose proof (fun a => fetches_within_emit_fetch batch m a Hin) as Hfetch.
  unfold mime_url, mime_url_of_id in Hfetch.
  assert (forall x, preserves (fetches_within cfg batch)
                              (emit (EvPrint (OutMimeError x)))) as Hprint
    by (intros x; now apply fetches_within_emit_quiet).
  unfold get_message_mime. preserve_with ltac:(unfold bearer).
Qed.

Lemma fetches_within_forward_message batch m :
  In m batch ->
  preserves (fetches_within cfg batch) (forward_message env cfg m).
Proof.
  intros Hin.
  pose proof (fetches_within_get_message_mime batch m Hin) as Hget.
  assert (forall r c, preserves (fetches_within cfg batch)
                                (try_smtp_forward env cfg r c)) as Hsmtp.
  { intros r c. apply preserves_try_smtp_forward; auto with mail.
    intros e H. apply fetches_within_emit_quiet.
    destruct e; try reflexivity; discriminate. }
  assert (forall x, preserves (fetches_within cfg batch)
                              (emit (EvPrint (OutMimeFailed x)))) as Hprint
    by (intros x; now apply fetches_within_emit_quiet).
  unfold forward_message. cbv zeta.
  destruct (negb (ENABLE_SMTP_FORWARD cfg) || (SMTP_HOST cfg =? "")%string
            || is_empty (_normalize_recipients (SMTP_TO cfg)));
    [apply preserves_ret; auto with mail |].
  destruct (negb (truthy (msg_id m))); [apply preserves_ret; auto with mail |].
  preserve_with ltac:(unfold try_get_message_mime).
Qed.

Lemma fetches_within_processing batch msgs :
  incl msgs batch ->
  preserves (fetches_within cfg batch) (for_each msgs (process_message env cfg)).
Proof.
  intros Hincl. apply preserves_for_each_in; auto with mail.
  intros m Hin. unfold process_message. apply preserves_bind; auto with mail.
  - apply fetches_within_show_message.
  - intros _. apply fetches_within_forward_message. now apply Hincl.
Qed.

Lemma query_mime_same folder limit w :
  mime_fetches (trace (snd (get_new_messages env cfg folder limit w)))
  = mime_fetches (trace w).
Proof.
  eapply only_adds_mime_fetches; [| apply get_new_messages_only_adds].
  intros e H. destruct e as [| | | | | | | | | | | | | | []]; simpl in *;
    auto; discriminate.
Qed.

(** In a cycle, raw content is fetched only for messages that the query of
    that cycle returned. *)
Lemma cycle_fetches_within w :
  fetches_within cfg
    match fst (get_new_messages env cfg "inbox" 50 w) with
    | Ok msgs => msgs
    | Raise _ => []
    end
    w (snd (check_for_new_emails env cfg w)).
Proof.
  rewrite check_for_new_emails_eq.
  pose proof (query_mime_same "inbox" 50 w) as Hq.
  destruct (get_new_messages env cfg "inbox" 50 w) as [[msgs | e] w1];
    cbn [fst snd] in *.
  - pose proof (fetches_within_processing msgs msgs (incl_refl _) w1) as Hp.
    destruct (fetches_within_preorder cfg msgs) as [_ Htrans].
    apply Htrans with w1; [now apply fetches_within_quiet |].
    destruct (for_each msgs (process_message env cfg) w1) as [[[] | e] w2];
      cbn [snd] in *; auto.
    destruct (is_Exception e); cbn [snd]; auto.
    apply Htrans with w2; auto.
    apply fetches_within_quiet. simpl. rewrite mime_fetches_app. simpl.
    apply app_nil_r.
  - apply fetches_within_quiet.
    destruct (is_Exception e); cbn [snd]; auto.
    simpl. rewrite mime_fetches_app. simpl. rewrite app_nil_r. exact Hq.
Qed.

End FetchesWithin.

(** ** Nothing is returned twice *)

Section AtMostOnce.

Context (env : environment) (cfg : config).
Hypothesis Hcontract : graph_contract env.
Hypothesis Hreliable : reliable_files env.

(** A batch is newest first and its head carries a timestamp. *)
Lemma batch_newest_first folder limit w newest rest w1 :
  get_new_messages env cfg folder limit w = (Ok (newest :: rest), w1) ->
  truthy (msg_receivedDateTime newest) = true
  /\ Forall (newer_or_equal newest) rest.
Proof.
  intros Hq.
  destruct (get_new_messages_ok_inv env cfg _ _ _ _ _ Hq)
    as (w0 & cursor & wl & response & _ & _ & Hresp & Hdrop & _).
  destruct (Hcontract _ _ _ _ _ Hresp) as [Hall Hsorted]. split.
  - rewrite Forall_forall in Hall. apply Hall.
    eapply drop_last_processed_incl. rewrite <- Hdrop. now left.
  - assert (StronglySorted newer_or_equal (newest :: rest)) as Hs.
    { rewrite Hdrop. unfold drop_last_processed.
      destruct (truthy (snd cursor) && negb (Nat.eqb (length response) 0));
        auto using StronglySorted_filter. }
    now apply StronglySorted_inv in Hs.
Qed.

(** Once the cursor stands at timestamp [T], a query returns only messages
    received after [T]. *)
Lemma query_returns_newer folder limit w T msgs w1 :
  T <> "" ->
  pyval_leb (Some T) (stored_timestamp (tracking_file w)) = true ->
  get_new_messages env cfg folder limit w = (Ok msgs, w1) ->
  forall m, In m msgs ->
  exists r, msg_receivedDateTime m = Some r /\ ts_ltb T r = true.
Proof.
  intros HT Hle Hq m Hin.
  destruct (tracking_file w) as [| | c] eqn:Hfile; try discriminate.
  simpl in Hle.
  destruct (last_received_datetime c) as [t |] eqn:Hts; [| discriminate].
  assert (t <> "") as Hne
    by (intros ->; apply HT; now apply (ts_leb_empty_inv T)).
  destruct (get_new_messages_from_cursor env cfg _ _ _ _ _ _ Hfile
              (reliable_reads env Hreliable) Hq)
    as (wl & response & _ & Hresp & Hdrop & _).
  rewrite Hts in Hresp.
  destruct (Hcontract _ _ _ _ _ Hresp) as [Hall _].
  rewrite Forall_forall in Hall.
  assert (In m response) as Hin'
    by (subst msgs; eapply drop_last_processed_incl; eauto).
  destruct (Hall m Hin') as [_ Hmatch].
  destruct (matches_strict_filter limit t m Hne Hmatch) as (r & Hr & Hlt).
  exists r. split; auto. eapply ts_leb_ltb_trans; eauto.
Qed.

(** No message of a batch is returned by any later query. *)
Lemma later_batch_not_returned w newest rest w1 w2 msgs' w3 :
  get_new_messages env cfg "inbox" 50 w = (Ok (newest :: rest), w1) ->
  later env cfg w1 w2 ->
  get_new_messages env cfg "inbox" 50 w2 = (Ok msgs', w3) ->
  forall m, In m (newest :: rest) -> ~ In m msgs'.
Proof.
  intros Hq Hlater Hq' m Hin Hin'.
  destruct (batch_newest_first _ _ _ _ _ _ Hq) as [Htruthy Hsorted].
  destruct (truthy_Some _ Htruthy) as (T & HT & Hne).
  destruct (batch_cursor_written env cfg _ _ _ _ _ _ Hreliable Hq)
    as (now & Hfile).
  pose proof (later_monotone env cfg Hcontract Hreliable _ _ Hlater) as Hmono.
  rewrite Hfile in Hmono.
  cbn [stored_timestamp cursor_of last_received_datetime] in Hmono.
  rewrite HT in Hmono.
  destruct (query_returns_newer _ _ _ T _ _ Hne Hmono Hq' m Hin')
    as (r & Hr & Hlt).
  assert (pyval_leb (msg_receivedDateTime m) (Some T) = true) as Hle.
  { destruct Hin as [<- | Hin].
    - rewrite HT. apply pyval_leb_refl.
    - rewrite Forall_forall in Hsorted. specialize (Hsorted m Hin).
      unfold newer_or_equal in Hsorted. now rewrite HT in Hsorted. }
  rewrite Hr in Hle. simpl in Hle.
  pose proof (ts_ltb_leb_trans _ _ _ Hlt Hle) as Habs.
  rewrite ts_ltb_irrefl in Habs. discriminate.
Qed.

End AtMostOnce.

Lemma cycle_after_query env cfg w msgs w1 :
  get_new_messages env cfg "inbox" 50 w = (Ok msgs, w1) ->
  exists shown, trace (snd (check_for_new_emails env cfg w))
                = (trace w1 ++ shown)%list.
Proof.
  intros Hq. rewrite check_for_new_emails_eq, Hq.
  assert (preserves (only_adds (fun _ => true))
                    (for_each msgs (process_message env cfg))) as Hp.
  { apply preserves_processing; auto with mail.
    - now apply only_adds_ensure_access_token.
    - intros e _. now apply only_adds_emit. }
  specialize (Hp w1).
  destruct (for_each msgs (process_message env cfg) w1) as [[[] | e] w2];
    cbn [snd] in *; destruct Hp as (delta & Hd & _).
  - eauto.
  - destruct (is_Exception e); cbn [snd]; eauto.
    simpl. rewrite Hd, <- app_assoc. eauto.
Qed.



(** ** The scenarios of the specification *)

(** Cursor empty, the listing returns [m2] then [m1]: the cursor is saved at
    [m2], and both messages are forwarded, [m2] first. *)
Example scenario_first_run :
  let env := reference_env (fun _ => [m2; m1]) in
  let cycle := check_for_new_emails env forwarding_cfg fresh_world in
  fst cycle = Ok [m2; m1]
  /\ cursor_in (tracking_file (snd cycle))
     = (Some "2024-01-02T10:00:00Z", Some "m2")
  /\ mime_fetches (trace (snd cycle))
     = [mime_url forwarding_cfg m2; mime_url forwarding_cfg m1].
Proof. vm_compute. repeat split. Qed.

(** Cursor at [m2], the filtered listing returns [m2] again (a tie): no new
    message, and the tracking file is not written. *)
Example scenario_timestamp_tie :
  let env := replaying_env [m2] in
  let cycle := check_for_new_emails env forwarding_cfg world_after_m2 in
  fst cycle = Ok []
  /\ tracking_file (snd cycle) = tracking_file world_after_m2
  /\ queries (trace (snd cycle))
     = [build_params 50 (Some "2024-01-02T10:00:00Z")]
  /\ filter is_file_event (trace (snd cycle)) = [EvOpenRead].
Proof. vm_compute. repeat split. Qed.

(** A tie with another message: the server returns [m2_tie] and [m2]; only
    [m2], which bears the stored id, is dropped. *)
Example scenario_tie_with_another_message :
  fst (get_new_messages (replaying_env [m2_tie; m2]) forwarding_cfg "inbox" 50
                        world_after_m2)
  = Ok [m2_tie].
Proof. vm_compute. reflexivity. Qed.

(** The relay is down: both forwards fail, both failures are printed, and
    the cursor has moved to [m2] all the same. *)
Example scenario_relay_down :
  let env := relay_down_env (fun _ => [m2; m1]) in
  let cycle := check_for_new_emails env forwarding_cfg fresh_world in
  fst cycle = Ok [m2; m1]
  /\ filter is_forward_report (trace (snd cycle))
     = [EvPrint (OutSmtpFailed relay_down); EvPrint (OutSmtpFailed relay_down)]
  /\ sendmails (trace (snd cycle)) = []
  /\ cursor_in (tracking_file (snd cycle))
     = (Some "2024-01-02T10:00:00Z", Some "m2").
Proof. vm_compute. repeat split. Qed.

(** * Further properties of the code *)

(** ** Reading the configuration *)

Lemma lower_char_idempotent a : lower_char (lower_char a) = lower_char a.
Proof.
  destruct a as [b0 b1 b2 b3 b4 b5 b6 b7];
    destruct b0, b1, b2, b3, b4, b5, b6, b7; reflexivity.
Qed.

Lemma lower_idempotent s : lower (lower s) = lower s.
Proof.
  induction s as [| a s IH]; simpl; auto.
  now rewrite lower_char_idempotent, IH.
Qed.

(** X1: [_get_bool].  A variable that is not set yields the default (which
    goes through [str] and [lower] like any value).  A variable that is set
    is read without regard to case: a value and its lowercase form give the
    same result, which is true exactly when the lowercase form is one of
    [true], [1], [yes], [on]; the default plays no part.  A variable set to
    the empty string is false, even when the default is true. *)
Theorem get_bool_reads_case_insensitively :
  (forall default, _get_bool None default = default)
  /\ (forall value default,
         _get_bool (Some (lower value)) default = _get_bool (Some value) default)
  /\ (forall value default,
         _get_bool (Some value) default = true
         <-> In (lower value) ["true"; "1"; "yes"; "on"])
  /\ (forall default, _get_bool (Some "") default = false).
Proof.
  repeat split.
  - now intros [].
  - intros value default. unfold _get_bool. simpl get_default.
    now rewrite lower_idempotent.
  - unfold _get_bool, string_in. simpl get_default. intros H.
    apply existsb_exists in H. destruct H as (c & Hin & Heq).
    apply String.eqb_eq in Heq. now subst c.
  - unfold _get_bool, string_in. simpl get_default. intros H.
    apply existsb_exists. exists (lower value). split; auto.
    apply String.eqb_refl.
Qed.

(** ** Splitting and stripping *)

Lemma split_on_not_nil sep s : split_on sep s <> [].
Proof.
  destruct s as [| a s]; simpl; [discriminate |].
  destruct (Ascii.eqb a sep); [discriminate |].
  destruct (split_on sep s); discriminate.
Qed.

Lemma split_on_no_sep sep s piece :
  In piece (split_on sep s) -> has_char sep piece = false.
Proof.
  revert piece. induction s as [| a s IH]; simpl; intros piece Hin.
  - destruct Hin as [<- | []]. reflexivity.
  - destruct (Ascii.eqb a sep) eqn:Ha.
    + destruct Hin as [<- | Hin]; auto.
    + destruct (split_on sep s) as [| p ps] eqn:Hs.
      * destruct Hin as [<- | []]. simpl. now rewrite Ha.
      * destruct Hin as [<- | Hin].
        -- simpl. rewrite Ha. apply IH. now left.
        -- apply IH. now right.
Qed.

Lemma split_on_whole sep s :
  has_char sep s = false -> split_on sep s = [s].
Proof.
  induction s as [| a s IH]; simpl; auto.
  intros H. apply orb_false_iff in H. destruct H as [Ha Hs].
  now rewrite Ha, (IH Hs).
Qed.

Lemma split_on_app sep s rest :
  has_char sep s = false ->
  split_on sep (s ++ String sep rest) = s :: split_on sep rest.
Proof.
  induction s as [| a s IH]; simpl.
  - intros _. now rewrite Ascii.eqb_refl.
  - intros H. apply orb_false_iff in H. destruct H as [Ha Hs].
    now rewrite Ha, (IH Hs).
Qed.

Lemma has_char_lstrip c s : has_char c s = false -> has_char c (lstrip s) = false.
Proof.
  induction s as [| a s IH]; simpl; auto.
  intros H. destruct (is_space a); auto.
  apply orb_false_iff in H. now apply IH.
Qed.

Lemma has_char_rstrip c s : has_char c s = false -> has_char c (rstrip s) = false.
Proof.
  induction s as [| a s IH]; simpl; auto.
  intros H. apply orb_false_iff in H. destruct H as [Ha Hs].
  specialize (IH Hs).
  destruct (rstrip s) as [| b kept].
  - destruct (is_space a); simpl; auto. now rewrite Ha.
  - simpl in *. now rewrite Ha, IH.
Qed.

Lemma rstrip_idempotent s : rstrip (rstrip s) = rstrip s.
Proof.
  induction s as [| a s IH]; simpl; auto.
  destruct (rstrip s) as [| b kept] eqn:Hs.
  - destruct (is_space a) eqn:Ha; simpl; auto. now rewrite Ha.
  - simpl in IH |- *. now rewrite IH.
Qed.

Lemma lstrip_no_leading_space s : no_leading_space (lstrip s).
Proof.
  induction s as [| a s IH]; simpl; auto.
  destruct (is_space a) eqn:Ha; simpl; auto.
Qed.

Lemma rstrip_no_leading_space s :
  no_leading_space s -> no_leading_space (rstrip s).
Proof.
  destruct s as [| a s]; simpl; auto.
  intros Ha. destruct (rstrip s); simpl; auto. now rewrite Ha.
Qed.

Lemma lstrip_fixed s : no_leading_space s -> lstrip s = s.
Proof. destruct s as [| a s]; simpl; auto. now intros ->. Qed.

Lemma strip_idempotent s : strip (strip s) = strip s.
Proof.
  unfold strip.
  rewrite (lstrip_fixed (rstrip (lstrip s))).
  - apply rstrip_idempotent.
  - apply rstrip_no_leading_space, lstrip_no_leading_space.
Qed.

Lemma stripped_items_clean value x :
  In x (stripped_items value) -> clean_item x.
Proof.
  unfold stripped_items. intros H. apply in_map_iff in H.
  destruct H as (item & <- & Hin). apply filter_In in Hin.
  destruct Hin as [Hpiece Hkeep]. repeat split.
  - apply negb_true_iff, String.eqb_neq in Hkeep. exact Hkeep.
  - unfold strip. apply has_char_rstrip, has_char_lstrip.
    eapply split_on_no_sep; eauto.
  - apply strip_idempotent.
Qed.

Lemma get_bool_reads_case_insensitively_witness :
  In (lower "YES") ["true"; "1"; "yes"; "on"]
  /\ _get_bool (Some "YES") false = true.
Proof.
  split.
  - right. right. left. reflexivity.
  - destruct get_bool_reads_case_insensitively as (_ & _ & Hiff & _).
    apply (Hiff "YES" false). right. right. left. reflexivity.
Defined.

Lemma get_list_none_clean getenv x :
  In x (_get_list getenv None) -> clean_item x.
Proof.
  unfold _get_list. destruct (get_default getenv "" =? "")%string.
  - intros [].
  - apply stripped_items_clean.
Qed.

(** X2: every item of a list read by [_get_list] from a variable that is
    set, and every recipient that [_normalize_recipients] makes out of a
    string, is a clean address: not empty, free of commas, and with no
    whitespace left to strip at either end. *)
Theorem get_list_items_are_clean :
  (forall value default x,
      value <> "" -> In x (_get_list (Some value) default) -> clean_item x)
  /\ (forall getenv x, In x (_get_list getenv None) -> clean_item x)
  /\ (forall value x, In x (_normalize_recipients_str value) -> clean_item x).
Proof.
  split; [| split].
  - intros value default x Hne Hin. apply String.eqb_neq in Hne.
    unfold _get_list in Hin. simpl get_default in Hin. rewrite Hne in Hin.
    now apply stripped_items_clean in Hin.
  - intros getenv x. apply get_list_none_clean.
  - intros value x Hin. now apply stripped_items_clean in Hin.
Qed.

Lemma get_list_items_are_clean_witness :
  In "b@x.org" (_get_list (Some " a@x.org , ,b@x.org,") None)
  /\ clean_item "b@x.org".
Proof.
  split.
  - right. left. reflexivity.
  - destruct get_list_items_are_clean as (_ & Hclean & _).
    apply (Hclean (Some " a@x.org , ,b@x.org,")). right. left. reflexivity.
Defined.

Lemma concat_comma_not_empty x rest :
  x <> "" -> String.concat "," (x :: rest) <> "".
Proof.
  intros Hx. destruct x as [| a x]; [contradiction |].
  simpl. destruct rest; discriminate.
Qed.

Lemma split_on_concat l :
  l <> [] ->
  Forall (fun x => has_char "," x = false) l ->
  split_on "," (String.concat "," l) = l.
Proof.
  intros Hne Hall. induction Hall as [| x l Hx Hall IH]; [contradiction |].
  destruct l as [| y l].
  - simpl. now apply split_on_whole.
  - change (String.concat "," (x :: y :: l))
      with (x ++ String "," (String.concat "," (y :: l))).
    rewrite split_on_app by exact Hx. f_equal. apply IH. discriminate.
Qed.

(** X3: writing a list of clean addresses with commas between them and
    reading it back with [_get_list] gives the list again: nothing is lost,
    merged or reordered. *)
Theorem get_list_reads_back_joined_list l default :
  l <> [] ->
  Forall clean_item l ->
  _get_list (Some (String.concat "," l)) default = l.
Proof.
  intros Hne Hall. unfold _get_list. simpl get_default.
  destruct l as [| x rest]; [contradiction |].
  assert (x <> "") as Hx by (inversion Hall as [| ? ? (? & _) _]; auto).
  pose proof (concat_comma_not_empty x rest Hx) as Hval.
  apply String.eqb_neq in Hval. rewrite Hval.
  unfold stripped_items. rewrite split_on_concat.
  - clear Hval Hne Hx. induction Hall as [| y l (Hy & _ & Hs) Hall IH]; auto.
    simpl. rewrite Hs. apply String.eqb_neq in Hy. rewrite Hy. simpl.
    now rewrite Hs, IH.
  - discriminate.
  - eapply Forall_impl; [| exact Hall]. now intros y (_ & Hy & _).
Qed.

Lemma get_list_reads_back_joined_list_witness :
  _get_list (Some (String.concat "," ["ops@example.com"; "it@example.com"])) None
  = ["ops@example.com"; "it@example.com"].
Proof.
  apply get_list_reads_back_joined_list.
  - discriminate.
  - repeat constructor; discriminate.
Defined.

(** X4: [_normalize_recipients] leaves a list read by [_get_list] as it
    is, so the recipients of the forwarder are exactly the parsed [SMTP_TO];
    and on a string it does what [_get_list] does on a variable holding that
    string. *)
Theorem normalize_recipients_agrees_with_get_list :
  (forall getenv,
      _normalize_recipients (_get_list getenv None) = _get_list getenv None)
  /\ (forall value,
         _normalize_recipients_str value = _get_list (Some value) None).
Proof.
  split.
  - intros getenv. unfold _normalize_recipients.
    pose proof (get_list_none_clean getenv) as Hclean.
    induction (_get_list getenv None) as [| x l IH]; simpl; auto.
    destruct (Hclean x (or_introl eq_refl)) as (Hx & _).
    apply String.eqb_neq in Hx. rewrite Hx. simpl. f_equal.
    apply IH. intros y Hy. apply Hclean. now right.
  - intros value. unfold _normalize_recipients_str, _get_list. simpl get_default.
    destruct (String.eqb_spec value "") as [-> | Hne]; reflexivity.
Qed.

(** ** The cursor store, further *)



(** A [try] whose handler cannot raise lets through only what it does not
    handle. *)
Lemma try_except_lets_through {A} (m : M A) (P : exn -> bool) (h : exn -> M A) :
  (forall e, never_raises (h e)) ->
  raises_only (fun e => negb (P e)) (try_except m P h).
Proof.
  intros Hh w e. unfold try_except.
  destruct (m w) as [[a | x] w1]; [discriminate |].
  destruct (P x) eqn:HP.
  - destruct (Hh x w1) as [a Ha]. rewrite Ha. discriminate.
  - simpl. intros H. injection H as <-. now rewrite HP.
Qed.

(** X6: the cursor store keeps its own I/O failures to itself, whatever the
    environment does: [save_last_email_timestamp] never raises an [IOError],
    [load_last_email_timestamp] never raises an [IOError] or a
    [JSONDecodeError], and loading never changes the tracking file. *)
Theorem cursor_store_contains_io_errors env :
  (forall msg,
      raises_only (fun e => negb (is_IOError e))
                  (save_last_email_timestamp env msg))
  /\ raises_only (fun e => negb (is_JSONDecodeError_or_IOError e))
                 (load_last_email_timestamp env)
  /\ (forall w,
         tracking_file (snd (load_last_email_timestamp env w))
         = tracking_file w).
Proof.
  split; [| split].
  - intros msg. unfold save_last_email_timestamp.
    apply try_except_lets_through. intros e. apply never_raises_print.
  - intros w e. unfold load_last_email_timestamp, bind, get_world.
    destruct (tracking_file w); [discriminate | |];
      apply try_except_lets_through; intros x;
      (apply never_raises_bind; [apply never_raises_print |]);
      intros _; apply never_raises_ret.
  - intros w. apply (load_file_same env w).
Qed.

Lemma load_damaged_file env w :
  tracking_file w = Unparsable ->
  open_read_fault env (trace w ++ [EvOpenRead]) = None ->
  load_last_email_timestamp env w
  = (Ok (None, None),
     emitted w [EvOpenRead; EvPrint (OutTrackingReadWarning not_json)]).
Proof.
  intros Hfile Hread.
  unfold load_last_email_timestamp, read_tracking_file, try_except, step,
    bind, get_world, emit, print.
  rewrite Hfile. simpl. rewrite Hread. simpl. now rewrite Hfile.
Qed.



Lemma save_on_read_only_files env msg w :
  read_only_files env ->
  exists e w',
    is_IOError e = true
    /\ save_last_email_timestamp env msg w = (Ok tt, w')
    /\ tracking_file w' = tracking_file w
    /\ trace w'
       = (trace w ++ [EvNow; EvOpenWrite;
                      EvPrint (OutTrackingSaveWarning e)])%list.
Proof.
  intros Hro.
  destruct (Hro ((trace w ++ [EvNow]) ++ [EvOpenWrite])%list) as (e & He & Hio).
  exists e.
  unfold save_last_email_timestamp, try_except, step, bind, get_world, emit,
    print.
  simpl. rewrite He. simpl. rewrite Hio.
  eexists. repeat split; auto.
  simpl. now rewrite <- !app_assoc.
Qed.


Lemma read_only_env_files mailbox_at : read_only_files (read_only_env mailbox_at).
Proof. intros tr. exists permission_denied. split; reflexivity. Qed.


(** ** The credential exchange, further *)

(** X9: when the identity provider answers without an [access_token], the
    cycle ends there: [get_access_token] raises a plain [Exception], which is
    not a [RequestException], so nothing is printed by the reader; the cycle
    prints its error line and returns no message.  No listing request is
    sent, the tracking file is untouched, and the reader still holds no
    usable token, so the next cycle asks again. *)
Theorem tokenless_answer_ends_cycle env cfg w tok :
  truthy (access_token w) = false ->
  token_response env (trace w ++ [token_request cfg]) = Ok tok ->
  truthy tok = false ->
  let run := check_for_new_emails env cfg w in
  fst run = Ok []
  /\ trace (snd run)
     = (trace w ++ [token_request cfg; EvPrint (OutCycleError no_token)])%list
  /\ access_token (snd run) = tok
  /\ tracking_file (snd run) = tracking_file w.
Proof.
  intros Hw Hresp Htok. cbv zeta.
  unfold check_for_new_emails, ensure_access_token, get_access_token,
    read_access_token, call, try_except, bind, emit, print, set_access_token,
    raise, ret.
  rewrite Hw. cbn [negb].
  unfold token_request in Hresp. cbn [trace set_trace]. rewrite Hresp.
  rewrite Htok. simpl. rewrite <- app_assoc. auto.
Qed.

Lemma tokenless_answer_ends_cycle_witness :
  let run := check_for_new_emails tokenless_env forwarding_cfg fresh_world in
  fst run = Ok []
  /\ trace (snd run)
     = (trace fresh_world
        ++ [token_request forwarding_cfg; EvPrint (OutCycleError no_token)])%list
  /\ access_token (snd run) = None
  /\ tracking_file (snd run) = tracking_file fresh_world.
Proof.
  apply (tokenless_answer_ends_cycle tokenless_env forwarding_cfg fresh_world
           None); reflexivity.
Defined.

(** ** The forwarder, further *)

Lemma in_filter_prefix {A} (p : A -> bool) (added plan rest : list A) x :
  plan = (filter p added ++ rest)%list ->
  In x added -> p x = true -> In x plan.
Proof.
  intros -> Hin Hp. apply in_or_app. left. apply filter_In. auto.
Qed.

(** The trace of one SMTP session, by cases on where the relay fails. *)
Lemma try_smtp_forward_trace env cfg recipients mime_content w :
  exists added rest,
    trace (snd (try_smtp_forward env cfg recipients mime_content w))
    = (trace w ++ added)%list
    /\ smtp_plan cfg recipients mime_content
       = (filter is_smtp_command added ++ rest)%list
    /\ (In (EvPrint OutForwarded) added -> rest = [])
    /\ (In EvSmtpQuit added
        <-> smtp_fault env
              (trace w ++ [EvSmtpConnect (SMTP_HOST cfg) (SMTP_PORT cfg) 30])
            = None).
Proof.
  unfold try_smtp_forward, smtp_session, smtp_plan, with_exit, try_except,
    step, when, bind, print, emit, ret.
  destruct (SMTP_USE_TLS cfg), (SMTP_USERNAME cfg =? "")%string;
    cbn [negb trace set_trace snd fst];
    repeat match goal with
      | |- context [smtp_fault env ?t] =>
          let E := fresh "E" in
          destruct (smtp_fault env t) eqn:E;
          cbn [negb trace set_trace snd fst]
      | |- context [is_Exception ?e] =>
          destruct (is_Exception e);
          cbn [negb trace set_trace snd fst]
      end;
    eexists; eexists;
    (split; [rewrite <- ?app_assoc; cbn [app]; reflexivity |]);
    (split; [cbn [filter is_smtp_command app]; reflexivity |]);
    (split; [cbn [In]; intuition discriminate |]);
    cbn [In]; split; intros; auto; try congruence;
    intuition (try discriminate; try congruence).
Qed.


Lemma sendmails_app a b :
  sendmails (a ++ b) = (sendmails a ++ sendmails b)%list.
Proof.
  induction a as [| e a IH]; simpl; auto.
  destruct e; simpl; auto. now rewrite IH.
Qed.

Lemma sendmails_commands l :
  sendmails (filter is_smtp_command l) = sendmails l.
Proof.
  induction l as [| e l IH]; simpl; auto.
  destruct e; simpl; auto. now rewrite IH.
Qed.

Lemma smtp_plan_sendmails cfg recipients mime_content :
  sendmails (smtp_plan cfg recipients mime_content) = [mime_content].
Proof.
  unfold smtp_plan.
  now destruct (SMTP_USE_TLS cfg), (SMTP_USERNAME cfg =? "")%string.
Qed.

Lemma smtp_plan_sendmail cfg recipients mime_content sender to content :
  In (EvSmtpSendmail sender to content) (smtp_plan cfg recipients mime_content) ->
  sender = SMTP_FROM cfg /\ to = recipients /\ content = mime_content.
Proof.
  unfold smtp_plan.
  destruct (SMTP_USE_TLS cfg), (SMTP_USERNAME cfg =? "")%string; simpl;
    intros H; repeat (destruct H as [H | H]; try discriminate);
    try contradiction; now inversion H.
Qed.

Lemma token_events_no_command delta :
  forallb is_token_event delta = true ->
  filter is_smtp_command delta = [].
Proof.
  induction delta as [| e delta IH]; simpl; auto.
  intros H. apply andb_true_iff in H as [He H].
  rewrite (IH H). destruct e; simpl in *; auto; discriminate.
Qed.

(** The first [try] of the forwarder: it talks to Graph only, and the
    content it returns is what Graph answered for that message. *)
Lemma try_get_message_mime_outcome env cfg id w :
  exists added,
    trace (snd (try_get_message_mime env cfg id w)) = (trace w ++ added)%list
    /\ filter is_smtp_command added = []
    /\ forall content,
         fst (try_get_message_mime env cfg id w) = Ok (Some content) ->
         exists before authorization,
           mime_response env
             (before ++ [EvGetMime (mime_url_of_id cfg id) authorization])
           = Ok content.
Proof.
  pose proof (only_adds_ensure_access_token env cfg is_token_event
                (fun e H => H) w) as (delta & Hd & Hall).
  apply token_events_no_command in Hall.
  unfold try_get_message_mime, get_message_mime, try_except, bind.
  destruct (ensure_access_token env cfg w) as [[[] | e] w0] eqn:He;
    cbn [snd] in Hd.
  - unfold bearer, read_access_token, call, print, try_except, bind, emit, ret,
      raise.
    cbv beta iota. cbn [trace set_trace].
    destruct (mime_response env _) as [mime | e] eqn:Hresp; cbv beta iota.
    + exists (delta ++ [EvGetMime (mime_url_of_id cfg id)
                          ("Bearer " ++ py_str (access_token w0))])%list.
      cbn [fst snd trace set_trace]. rewrite Hd, <- app_assoc.
      split; [reflexivity |]. rewrite filter_app, Hall. split; [reflexivity |].
      intros content H. injection H as <-. eauto.
    + destruct (is_RequestException e); cbv beta iota;
        destruct (is_Exception e); cbn [fst snd trace set_trace];
        eexists; rewrite Hd, <- ?app_assoc;
        (split; [reflexivity |]); rewrite filter_app, Hall;
        (split; [reflexivity | discriminate]).
  - destruct (is_Exception e); unfold print, emit, bind, ret;
      cbn [fst snd trace set_trace].
    + exists (delta ++ [EvPrint (OutMimeFailed e)])%list.
      rewrite Hd, <- app_assoc. split; [reflexivity |].
      rewrite filter_app, Hall. split; [reflexivity | discriminate].
    + exists delta. repeat split; auto. discriminate.
Qed.

(** X11: the forwarder relays what it fetched, once.  [forward_message]
    submits at most one message to the relay; whatever it submits is sent
    from [SMTP_FROM] to the non-empty normalized [SMTP_TO], with forwarding
    enabled, and its content is, unchanged, what Graph answered to the
    raw-content request for this very message. *)
Theorem forward_relays_fetched_content env cfg msg w :
  exists added,
    trace (snd (forward_message env cfg msg w)) = (trace w ++ added)%list
    /\ (length (sendmails added) <= 1)%nat
    /\ forall sender recipients content,
         In (EvSmtpSendmail sender recipients content) added ->
         sender = SMTP_FROM cfg
         /\ recipients = _normalize_recipients (SMTP_TO cfg)
         /\ recipients <> []
         /\ ENABLE_SMTP_FORWARD cfg = true
         /\ exists before authorization,
              mime_response env
                (before ++ [EvGetMime (mime_url cfg msg) authorization])
              = Ok content.
Proof.
  assert (Hquiet : forall w0 : world, exists added : list event,
             trace w0 = (trace w0 ++ added)%list
             /\ (length (sendmails added) <= 1)%nat
             /\ forall sender recipients content,
                 In (EvSmtpSendmail sender recipients content) added ->
                 sender = SMTP_FROM cfg
                 /\ recipients = _normalize_recipients (SMTP_TO cfg)
                 /\ recipients <> []
                 /\ ENABLE_SMTP_FORWARD cfg = true
                 /\ exists before authorization,
                      mime_response env
                        (before ++ [EvGetMime (mime_url cfg msg) authorization])
                      = Ok content).
  { intros w0. exists []. rewrite app_nil_r. simpl. repeat split; auto.
    all: contradiction. }
  unfold forward_message. cbv zeta.
  destruct (negb (ENABLE_SMTP_FORWARD cfg) || (SMTP_HOST cfg =? "")%string
            || is_empty (_normalize_recipients (SMTP_TO cfg))) eqn:Hguard;
    [apply Hquiet |].
  apply orb_false_iff in Hguard as [Hguard Hto].
  apply orb_false_iff in Hguard as [Hon _].
  apply negb_false_iff in Hon.
  assert (Hne : _normalize_recipients (SMTP_TO cfg) <> [])
    by (intros E; rewrite E in Hto; discriminate).
  destruct (truthy (msg_id msg)); cbn [negb]; [| apply Hquiet].
  destruct (try_get_message_mime_outcome env cfg (py_str (msg_id msg)) w)
    as (added1 & Ht1 & Hf1 & Hc1).
  unfold bind.
  destruct (try_get_message_mime env cfg (py_str (msg_id msg)) w)
    as [[[mime |] | e] w1]; cbn [fst snd] in *.
  - destruct (try_smtp_forward_trace env cfg
                (_normalize_recipients (SMTP_TO cfg)) mime w1)
      as (added2 & rest & Ht2 & Hplan & _ & _).
    exists (added1 ++ added2)%list.
    split; [now rewrite Ht2, Ht1, app_assoc |]. split.
    + rewrite <- sendmails_commands, filter_app, Hf1. cbn [app].
      pose proof (smtp_plan_sendmails cfg (_normalize_recipients (SMTP_TO cfg))
                    mime) as Hs.
      rewrite Hplan, sendmails_app in Hs.
      apply (f_equal (@length string)) in Hs. rewrite length_app in Hs.
      simpl in Hs. lia.
    + intros sender recipients content Hin.
      apply in_app_or in Hin as [Hin | Hin].
      * assert (Hc : In (EvSmtpSendmail sender recipients content)
                        (filter is_smtp_command added1))
          by (apply filter_In; auto).
        rewrite Hf1 in Hc. contradiction.
      * apply (in_filter_prefix _ _ _ _ _ Hplan) in Hin; [| reflexivity].
        apply smtp_plan_sendmail in Hin as (-> & -> & ->).
        repeat split; auto.
  - exists added1. split; [exact Ht1 |]. split.
    + rewrite <- sendmails_commands, Hf1. simpl. lia.
    + intros sender recipients content Hin.
      assert (Hc : In (EvSmtpSendmail sender recipients content)
                      (filter is_smtp_command added1))
        by (apply filter_In; auto).
      rewrite Hf1 in Hc. contradiction.
  - exists added1. split; [exact Ht1 |]. split.
    + rewrite <- sendmails_commands, Hf1. simpl. lia.
    + intros sender recipients content Hin.
      assert (Hc : In (EvSmtpSendmail sender recipients content)
                      (filter is_smtp_command added1))
        by (apply filter_In; auto).
      rewrite Hf1 in Hc. contradiction.
Qed.

(** ** The loop of [main], further *)

Lemma counted_world msgs w1 :
  trace (counted msgs w1) = trace w1
  /\ tracking_file (counted msgs w1) = tracking_file w1
  /\ access_token (counted msgs w1) = access_token w1
  /\ run_count (counted msgs w1) = run_count w1
  /\ new_emails_count (counted msgs w1)
     = (new_emails_count w1 + length msgs)%nat.
Proof.
  unfold counted. destruct msgs; simpl; repeat split; auto.
Qed.

(** One iteration of the loop, from the outcome of its cycle. *)
Lemma main_loop_iteration env cfg fuel w :
  main_loop env cfg (S fuel) w =
    match check_for_new_emails env cfg (cycle_start w) with
    | (Ok msgs, w1) =>
        if negb (ENABLE_CONTINUOUS_LOOP cfg)
        then (Ok LoopLeft, counted msgs w1)
        else bind (sleep env (LOOP_DELAY_SECONDS cfg))
                  (fun _ => main_loop env cfg fuel) (counted msgs w1)
    | (Raise e, w1) => (Raise e, w1)
    end.
Proof.
  cbn [main_loop]. unfold bind at 1. unfold get_world at 1. unfold bind at 1.
  unfold cycle_start.
  destruct (set_counters (S (run_count w)) (new_emails_count w) w)
    as [[[] | e] w0] eqn:Hset; [| discriminate].
  cbn [snd]. unfold bind at 1.
  destruct (check_for_new_emails env cfg w0) as [[msgs | e] w1]; [| reflexivity].
  unfold bind at 1. unfold get_world at 1. unfold bind at 1. unfold counted.
  destruct (when (negb (is_empty msgs))
              (set_counters (run_count w1)
                 (new_emails_count w1 + length msgs)%nat) w1)
    as [[[] | e] w2] eqn:Hwhen.
  - now destruct (ENABLE_CONTINUOUS_LOOP cfg).
  - destruct msgs; discriminate.
Qed.

Lemma counters_check_for_new_emails env cfg w :
  run_count (snd (check_for_new_emails env cfg w)) = run_count w
  /\ new_emails_count (snd (check_for_new_emails env cfg w))
     = new_emails_count w.
Proof.
  set (R := fun a b : world =>
              run_count b = run_count a
              /\ new_emails_count b = new_emails_count a).
  assert (preorder R) as Hpre.
  { split; unfold R; [auto |]. intros a b c [] []. split; congruence. }
  assert (forall e, preserves R (emit e)) by (intros e w'; split; reflexivity).
  apply (@preserves_check_for_new_emails env cfg _ Hpre); auto.
  - apply preserves_ensure_access_token; auto. intros v w'. split; reflexivity.
  - intros f w'. split; reflexivity.
Qed.

Lemma displayed_app a b : displayed (a ++ b) = (displayed a + displayed b)%nat.
Proof. unfold displayed. now rewrite filter_app, length_app. Qed.

Lemma waits_app a b : waits (a ++ b) = (waits a + waits b)%nat.
Proof. unfold waits. now rewrite filter_app, length_app. Qed.

Lemma only_adds_displayed p w w' :
  (forall e, p e = true -> is_separator e = false) ->
  only_adds p w w' ->
  displayed (trace w') = displayed (trace w).
Proof.
  intros Hp H. unfold displayed.
  now rewrite (only_adds_filter p is_separator w w' Hp H).
Qed.

Lemma token_event_no_separator e :
  is_token_event e = true -> negb (is_separator e) = true.
Proof. destruct e as [| | | | | | | | | | | | | | []]; simpl; auto. Qed.

Lemma query_event_no_separator e :
  is_query_event e || is_token_event e = true -> is_separator e = false.
Proof. destruct e as [| | | | | | | | | | | | | | []]; simpl; auto. Qed.

Lemma forward_event_no_separator e :
  is_forward_event e || is_token_event e = true -> is_separator e = false.
Proof. destruct e as [| | | | | | | | | | | | | | []]; simpl; auto. Qed.

(** Displaying a message prints exactly one separator line. *)
Lemma show_message_displayed env cfg msg w :
  displayed (trace (snd (show_message env cfg msg w)))
  = S (displayed (trace w)).
Proof.
  set (p := fun e => negb (is_separator e)).
  assert (Hemit : forall e, p e = true -> preserves (only_adds p) (emit e))
    by (intros e H; now apply only_adds_emit).
  assert (Hensure : preserves (only_adds p) (ensure_access_token env cfg))
    by (apply only_adds_ensure_access_token; apply token_event_no_separator).
  assert (Hatt : forall id, preserves (only_adds p) (get_attachments env cfg id)).
  { intros id. unfold get_attachments.
    preserve_with ltac:(unfold bearer). }
  unfold show_message. cbv zeta.
  unfold bind at 1. unfold print at 1. unfold emit at 1. cbv beta iota.
  match goal with
  | |- displayed (trace (snd (?m ?w0))) = _ =>
      assert (Hrest : preserves (only_adds p) m) by preserve_with idtac;
      rewrite (only_adds_displayed p w0 _
                 (fun e H => proj1 (negb_true_iff _) H) (Hrest w0))
  end.
  unfold set_trace. cbn [trace]. rewrite displayed_app.
  change (displayed [EvPrint OutSeparator]) with 1%nat. lia.
Qed.

Lemma forward_message_displayed env cfg msg w :
  displayed (trace (snd (forward_message env cfg msg w)))
  = displayed (trace w).
Proof.
  eapply only_adds_displayed; [apply forward_event_no_separator |].
  apply preserves_forward_message; auto with mail.
  - apply only_adds_ensure_access_token. intros e ->. apply orb_true_r.
  - intros e H. apply only_adds_emit. now rewrite H.
Qed.

Section Counters.

Context (env : environment) (cfg : config).
Hypothesis Hexn : only_exceptions env.

(** The loop over a batch displays each of its messages once. *)
Lemma processing_displayed msgs w :
  exists w',
    for_each msgs (process_message env cfg) w = (Ok tt, w')
    /\ displayed (trace w') = (displayed (trace w) + length msgs)%nat.
Proof.
  revert w. induction msgs as [| m msgs IH]; intros w; simpl.
  - exists w. split; [reflexivity | lia].
  - unfold bind.
    destruct (never_raises_run _ w (process_message_total env cfg Hexn m))
      as ([] & w1 & Hrun).
    rewrite Hrun.
    assert (displayed (trace w1) = S (displayed (trace w))) as Hone.
    { unfold process_message, bind in Hrun.
      pose proof (show_message_displayed env cfg m w) as Hs.
      destruct (show_message env cfg m w) as [[[] | e] w0]; cbn [snd] in Hs.
      - pose proof (forward_message_displayed env cfg m w0) as Hf.
        rewrite Hrun in Hf. cbn [snd] in Hf. congruence.
      - discriminate. }
    destruct (IH w1) as (w' & Hrest & Hcount).
    exists w'. split; [exact Hrest | lia].
Qed.

(** A cycle in numbers: it returns a batch, begins no wait, displays as many
    messages as it returns, and leaves the counters alone. *)
Lemma cycle_in_numbers w :
  exists msgs w1 delta,
    check_for_new_emails env cfg w = (Ok msgs, w1)
    /\ trace w1 = (trace w ++ delta)%list
    /\ waits delta = 0%nat
    /\ displayed delta = length msgs
    /\ run_count w1 = run_count w
    /\ new_emails_count w1 = new_emails_count w.
Proof.
  destruct (never_raises_run _ w (check_for_new_emails_total env cfg Hexn))
    as (msgs & w1 & Hrun).
  pose proof (counters_check_for_new_emails env cfg w) as [Hrc Hnc].
  assert (only_adds (fun e => negb (is_wait e)) w w1) as (delta & Hd & Hall).
  { assert (Hp : preserves (only_adds (fun e => negb (is_wait e)))
                   (check_for_new_emails env cfg)).
    { apply preserves_check_for_new_emails; auto with mail.
      - apply only_adds_ensure_access_token.
        intros e H. destruct e; simpl in *; auto; discriminate.
      - intros e H. apply only_adds_emit.
        destruct e; simpl in *; auto; discriminate.
      - intros e H. apply only_adds_emit.
        destruct e; simpl in *; auto; discriminate.
      - intros e. now apply only_adds_emit. }
    specialize (Hp w). now rewrite Hrun in Hp. }
  assert (displayed (trace w1) = (displayed (trace w) + length msgs)%nat)
    as Hshown.
  { rewrite check_for_new_emails_eq in Hrun.
    pose proof (get_new_messages_only_adds env cfg "inbox" 50 w) as Hq.
    apply (only_adds_displayed _ _ _ query_event_no_separator) in Hq.
    pose proof (raises_get_new_messages env cfg Hexn "inbox" 50 w) as Hraise.
    destruct (get_new_messages env cfg "inbox" 50 w) as [[batch | e] wq];
      cbn [fst snd] in *.
    - destruct (processing_displayed batch wq) as (w' & Hloop & Hcount).
      rewrite Hloop in Hrun. injection Hrun as <- <-. lia.
    - rewrite (Hraise e eq_refl) in Hrun. injection Hrun as <- <-.
      unfold emitted, emit, set_trace. cbn [fold_left snd trace].
      rewrite displayed_app.
      change (displayed [EvPrint (OutCycleError e)]) with 0%nat.
      cbn [length]. lia. }
  rewrite Hrun in Hrc, Hnc. cbn [snd] in Hrc, Hnc.
  exists msgs, w1, delta. repeat split; auto.
  - unfold waits.
    assert (filter is_wait delta = []) as ->; [| reflexivity].
    clear Hd. induction delta as [| e delta IH]; simpl in *; auto.
    apply andb_true_iff in Hall as [He Hall].
    apply negb_true_iff in He. rewrite He. auto.
  - rewrite Hd, displayed_app in Hshown. lia.
Qed.

End Counters.



(** X13: a negative [LOOP_DELAY_SECONDS] in continuous mode.  The first
    cycle runs in full (its batch is displayed and forwarded, the cursor
    advances); then [time.sleep] rejects the delay with a [ValueError],
    which escapes the loop: [main] prints the fatal error and exits with
    code 1, without having waited. *)
Theorem negative_delay_stops_after_first_cycle env cfg fuel w :
  only_exceptions env ->
  ENABLE_CONTINUOUS_LOOP cfg = true ->
  LOOP_DELAY_SECONDS cfg < 0 ->
  exists msgs w1 delta,
    check_for_new_emails env cfg (cycle_start (main_start w)) = (Ok msgs, w1)
    /\ main env cfg (S fuel) w
       = (Some 1, emitted (counted msgs w1)
                    [EvPrint (OutFatalError negative_sleep)])
    /\ trace (counted msgs w1)
       = (trace w ++ EvPrint OutMonitorStarted :: delta)%list
    /\ waits delta = 0%nat.
Proof.
  intros Hexn Hcont Hneg.
  destruct (cycle_in_numbers env cfg Hexn (cycle_start (main_start w)))
    as (msgs & w1 & delta & Hrun & Hd & Hw & _).
  destruct (counted_world msgs w1) as (Ct & _).
  exists msgs, w1, delta. split; [exact Hrun |]. split; [| split; auto].
  - unfold main. rewrite main_prologue. unfold try_except, bind at 1.
    rewrite main_loop_iteration, Hrun, Hcont. cbn [negb].
    unfold bind at 1. unfold sleep.
    apply Z.ltb_lt in Hneg. rewrite Hneg. reflexivity.
  - rewrite Ct, Hd. simpl. now rewrite <- app_assoc.
Qed.

Lemma negative_delay_stops_after_first_cycle_witness :
  exists msgs w1 delta,
    check_for_new_emails (reference_env (fun _ => [m2; m1])) negative_delay_cfg
      (cycle_start (main_start fresh_world)) = (Ok msgs, w1)
    /\ main (reference_env (fun _ => [m2; m1])) negative_delay_cfg 5 fresh_world
       = (Some 1, emitted (counted msgs w1)
                    [EvPrint (OutFatalError negative_sleep)])
    /\ trace (counted msgs w1)
       = (trace fresh_world ++ EvPrint OutMonitorStarted :: delta)%list
    /\ waits delta = 0%nat.
Proof.
  apply (negative_delay_stops_after_first_cycle
           (reference_env (fun _ => [m2; m1])) negative_delay_cfg 4 fresh_world).
  - apply reference_only_exceptions.
  - reflexivity.
  - reflexivity.
Defined.

Lemma check_without_signals env cfg :
  check_for_new_emails (without_signals env) cfg
  = check_for_new_emails env cfg.
Proof. reflexivity. Qed.

(** The counters of an interrupted loop are the numbers of waits begun and
    of messages displayed; in continuous mode the loop is never left by
    [break]. *)
Lemma main_loop_accounts env cfg :
  only_exceptions (without_signals env) ->
  ENABLE_CONTINUOUS_LOOP cfg = true ->
  forall fuel w r w',
    main_loop env cfg fuel w = (r, w') ->
    r <> Ok LoopLeft
    /\ (forall e,
           r = Raise e ->
           is_KeyboardInterrupt e = true ->
           exists added,
             trace w' = (trace w ++ added)%list
             /\ run_count w' = (run_count w + waits added)%nat
             /\ new_emails_count w'
                = (new_emails_count w + displayed added)%nat).
Proof.
  intros Hquiet Hcont.
  induction fuel as [| fuel IH]; intros w r w' Hloop.
  - injection Hloop as <- <-. split; intros; discriminate.
  - rewrite main_loop_iteration in Hloop.
    destruct (cycle_in_numbers (without_signals env) cfg Hquiet (cycle_start w))
      as (msgs & w1 & delta & Hrun & Hd & Hw & Hs & Hrc & Hnc).
    rewrite check_without_signals in Hrun.
    rewrite Hrun, Hcont in Hloop. cbn [negb] in Hloop.
    destruct (counted_world msgs w1) as (Ct & _ & _ & Crc & Cnc).
    unfold bind at 1 in Hloop. unfold sleep in Hloop.
    destruct (LOOP_DELAY_SECONDS cfg <? 0).
    + injection Hloop as <- <-. split; [discriminate |].
      intros e He Hk. injection He as <-. discriminate.
    + unfold step, bind, emit in Hloop. cbv beta iota in Hloop.
      set (w3 := set_trace (counted msgs w1)
                   (trace (counted msgs w1)
                    ++ [EvSleep (LOOP_DELAY_SECONDS cfg)])) in *.
      assert (Hacc :
                trace w3
                = (trace w ++ delta ++ [EvSleep (LOOP_DELAY_SECONDS cfg)])%list
                /\ run_count w3
                   = (run_count w
                      + waits (delta ++ [EvSleep (LOOP_DELAY_SECONDS cfg)]))%nat
                /\ new_emails_count w3
                   = (new_emails_count w
                      + displayed
                          (delta ++ [EvSleep (LOOP_DELAY_SECONDS cfg)]))%nat).
      { subst w3. unfold set_trace. cbn [trace run_count new_emails_count].
        rewrite Ct, Crc, Cnc, Hd, Hrc, Hnc, waits_app, displayed_app, Hw, Hs.
        change (waits [EvSleep (LOOP_DELAY_SECONDS cfg)]) with 1%nat.
        change (displayed [EvSleep (LOOP_DELAY_SECONDS cfg)]) with 0%nat.
        unfold cycle_start, set_counters.
        cbn [snd trace run_count new_emails_count].
        rewrite <- app_assoc. repeat split; lia || reflexivity. }
      destruct Hacc as (At & Arc & Anc).
      destruct (sleep_fault env (trace w3)) as [x |].
      * injection Hloop as <- <-. split; [discriminate |].
        intros e He _. injection He as <-. eauto.
      * destruct (IH w3 r w' Hloop) as [Hleft Hint].
        split; [exact Hleft |].
        intros e He Hk.
        destruct (Hint e He Hk) as (added & Ht & Hr & Hn).
        exists ((delta ++ [EvSleep (LOOP_DELAY_SECONDS cfg)]) ++ added)%list.
        split; [now rewrite Ht, At, <- !app_assoc |].
        rewrite Hr, Arc, Hn, Anc, !waits_app, !displayed_app. split; lia.
Qed.


Lemma interrupted_without_signals mailbox_at :
  only_exceptions (without_signals (interrupted_env mailbox_at)).
Proof.
  intros tr. simpl. unfold no_fault. repeat split; intros e H;
    try discriminate.
  eapply graph_server_raises_exception; eauto.
Qed.


(** ** The requests to Graph *)

Section Authorization.

Context (env : environment) (cfg : config).

Lemma authorized_emit e :
  is_authorized e = true -> preserves (only_adds is_authorized) (emit e).
Proof. apply only_adds_emit. Qed.

Lemma authorized_ensure : preserves (only_adds is_authorized) (ensure_access_token env cfg).
Proof.
  apply only_adds_ensure_access_token.
  intros e H. destruct e; simpl in *; auto; discriminate.
Qed.

Lemma bearer_is_authorized s :
  s <> "" ->
  match strip_prefix "Bearer " ("Bearer " ++ s) with
  | Some token => negb (token =? "")%string
  | None => false
  end = true.
Proof. intros H. simpl. apply String.eqb_neq in H. now rewrite H. Qed.

(** After the token check, the header is built from a token that is
    there. *)
Lemma bearer_after_ensure {A} (K : string -> M A) w0 :
  truthy (access_token w0) = true ->
  (forall s, s <> "" -> preserves (only_adds is_authorized) (K ("Bearer " ++ s))) ->
  only_adds is_authorized w0 (snd ((authorization <- bearer ;; K authorization) w0)).
Proof.
  intros Hheld HK.
  destruct (truthy_Some _ Hheld) as (s & Hs & Hne).
  unfold bearer. unfold bind, read_access_token, ret. rewrite Hs.
  apply (HK s Hne w0).
Qed.

Lemma guarded_request {A} (K : string -> M A) :
  (forall s, s <> "" -> preserves (only_adds is_authorized) (K ("Bearer " ++ s))) ->
  preserves (only_adds is_authorized)
    (ensure_access_token env cfg ;; authorization <- bearer ;; K authorization).
Proof.
  intros HK w. unfold bind at 1.
  pose proof (authorized_ensure w) as Hens.
  destruct (ensure_access_token env cfg w) as [[[] | e] w0] eqn:He;
    cbn [snd] in Hens; [| exact Hens].
  eapply (proj2 (only_adds_preorder is_authorized)); [exact Hens |].
  apply bearer_after_ensure; auto.
  eapply ensure_access_token_ok; eauto.
Qed.

Lemma authorized_get_attachments id :
  preserves (only_adds is_authorized) (get_attachments env cfg id).
Proof.
  pose proof authorized_emit as Hemit.
  unfold get_attachments. cbv zeta. apply guarded_request. intros s Hs.
  preserve_with idtac.
  apply Hemit. now apply bearer_is_authorized.
Qed.

Lemma authorized_get_message_mime id :
  preserves (only_adds is_authorized) (get_message_mime env cfg id).
Proof.
  pose proof authorized_emit as Hemit.
  unfold get_message_mime. cbv zeta. apply guarded_request. intros s Hs.
  preserve_with idtac.
  apply Hemit. now apply bearer_is_authorized.
Qed.

Lemma authorized_load : preserves (only_adds is_authorized) (load_last_email_timestamp env).
Proof.
  apply preserves_load_last_email_timestamp; auto with mail.
  intros e H. apply authorized_emit.
  destruct e; simpl in *; auto; discriminate.
Qed.

Lemma authorized_save msg :
  preserves (only_adds is_authorized) (save_last_email_timestamp env msg).
Proof.
  apply preserves_save_last_email_timestamp; auto with mail.
  intros e H. apply authorized_emit.
  destruct e; simpl in *; auto; discriminate.
Qed.

Lemma authorized_get_new_messages folder limit :
  preserves (only_adds is_authorized) (get_new_messages env cfg folder limit).
Proof.
  pose proof authorized_emit as Hemit.
  pose proof authorized_save as Hsave.
  intros w. unfold get_new_messages. cbv zeta. unfold bind at 1.
  pose proof (authorized_ensure w) as Hens.
  destruct (ensure_access_token env cfg w) as [[[] | e] w0] eqn:He;
    cbn [snd] in Hens; [| exact Hens].
  eapply (proj2 (only_adds_preorder is_authorized)); [exact Hens |].
  unfold bind at 1.
  pose proof (authorized_load w0) as Hload.
  pose proof (load_token_same env w0) as Htok.
  destruct (load_last_email_timestamp env w0) as [[cursor | e] wl];
    cbn [snd] in Hload, Htok; [| exact Hload].
  eapply (proj2 (only_adds_preorder is_authorized)); [exact Hload |].
  apply bearer_after_ensure.
  - unfold token_same in Htok. rewrite Htok.
    eapply ensure_access_token_ok; eauto.
  - intros s Hs.
    preserve_with ltac:(unfold print_response, silent_mode, negb).
    apply Hemit. now apply bearer_is_authorized.
Qed.

Lemma authorized_processing msgs :
  preserves (only_adds is_authorized) (for_each msgs (process_message env cfg)).
Proof.
  pose proof authorized_emit as Hemit.
  pose proof authorized_get_attachments as Hatt.
  pose proof authorized_get_message_mime as Hmime.
  assert (Hsmtp : forall recipients mime_content,
             preserves (only_adds is_authorized)
               (try_smtp_forward env cfg recipients mime_content)).
  { intros recipients mime_content.
    apply preserves_try_smtp_forward; [apply only_adds_preorder |].
    intros e H. apply authorized_emit.
    destruct e; simpl in *; auto; discriminate. }
  apply preserves_for_each; [apply only_adds_preorder |].
  intros msg. unfold process_message, show_message, forward_message.
  preserve_with ltac:(unfold try_get_message_mime).
Qed.

End Authorization.

(** X15: no request goes to Graph without a token.  Whatever the
    environment does, every listing, attachment and raw-content request
    made by the reader's methods, and by a whole cycle, carries the header
    [Authorization: Bearer <token>] with a non-empty token: a failed
    credential exchange stops the operation before the request. *)
Theorem graph_requests_carry_a_token env cfg :
  (forall folder limit,
      preserves (only_adds is_authorized)
                (get_new_messages env cfg folder limit))
  /\ (forall id,
         preserves (only_adds is_authorized) (get_attachments env cfg id))
  /\ (forall id,
         preserves (only_adds is_authorized) (get_message_mime env cfg id))
  /\ preserves (only_adds is_authorized) (check_for_new_emails env cfg).
Proof.
  split; [| split; [| split]].
  - apply authorized_get_new_messages.
  - apply authorized_get_attachments.
  - apply authorized_get_message_mime.
  - pose proof (authorized_ensure env cfg) as Hens.
    pose proof (authorized_get_new_messages env cfg) as Hq.
    pose proof (authorized_processing env cfg) as Hp.
    pose proof (authorized_emit) as Hemit.
    unfold check_for_new_emails.
    preserve_with idtac.
Qed.

(** ** Displaying a message *)

Lemma filter_none {A} (f : A -> bool) l :
  forallb (fun x => negb (f x)) l = true -> filter f l = [].
Proof.
  induction l as [| x l IH]; simpl; auto.
  intros H. apply andb_true_iff in H as [Hx Hl].
  apply negb_true_iff in Hx. rewrite Hx. auto.
Qed.

(** Listing the attachments prints no attachment line by itself. *)
Lemma get_attachments_no_line env cfg id :
  preserves (only_adds (fun e => negb (is_attachment_line e)))
            (get_attachments env cfg id).
Proof.
  set (p := fun e => negb (is_attachment_line e)).
  assert (Hemit : forall e, p e = true -> preserves (only_adds p) (emit e))
    by (intros e H; now apply only_adds_emit).
  assert (Hensure : preserves (only_adds p) (ensure_access_token env cfg)).
  { apply only_adds_ensure_access_token.
    intros e H. destruct e as [| | | | | | | | | | | | | | []]; simpl in *;
      auto; discriminate. }
  unfold get_attachments. preserve_with ltac:(unfold bearer).
Qed.



(** X17: without the raw content there is nothing to relay.  When Graph
    fails the raw-content request of a message, [forward_message] reports
    the failure (the reader's own line first when it is a
    [RequestException]) and returns normally: no connection to the relay is
    opened, and nothing else changes. *)
Theorem failed_fetch_skips_relay env cfg msg w e :
  forwarding_enabled cfg ->
  truthy (access_token w) = true ->
  truthy (msg_id msg) = true ->
  mime_response env (trace w ++ [mime_request cfg msg w]) = Raise e ->
  is_Exception e = true ->
  forward_message env cfg msg w
  = (Ok tt,
     emitted w
       (mime_request cfg msg w
        :: (if is_RequestException e then [EvPrint (OutMimeError e)] else [])
        ++ [EvPrint (OutMimeFailed e)])).
Proof.
  intros Hon Hheld Hid Hresp Hexc.
  unfold forward_message. cbv zeta.
  rewrite (forwarding_enabled_guard cfg Hon), Hid. cbn [negb].
  unfold bind at 1. unfold try_get_message_mime, get_message_mime.
  unfold try_except at 1. unfold bind at 1.
  rewrite (ensure_then env cfg _ w w (ensure_access_token_held env cfg w Hheld)).
  unfold bearer, read_access_token, call, print, try_except, bind, emit, ret,
    raise.
  cbv beta iota. unfold mime_request, mime_url, mime_url_of_id in Hresp.
  unfold set_trace at 1. cbn [trace]. rewrite Hresp.
  destruct (is_RequestException e); cbv beta iota; rewrite Hexc; reflexivity.
Qed.

Lemma failed_fetch_skips_relay_witness :
  forward_message (no_content_env growing_mailbox) forwarding_cfg m3
    world_after_m2
  = (Ok tt,
     emitted world_after_m2
       [mime_request forwarding_cfg m3 world_after_m2;
        EvPrint (OutMimeError content_refused);
        EvPrint (OutMimeFailed content_refused)]).
Proof.
  apply (failed_fetch_skips_relay (no_content_env growing_mailbox)
           forwarding_cfg m3 world_after_m2 content_refused).
  - apply forwarding_cfg_enabled.
  - reflexivity.
  - reflexivity.
  - reflexivity.
  - reflexivity.
Defined.


Lemma forward_relays_fetched_content_witness :
  exists added,
    trace (snd (forward_message (reference_env growing_mailbox) forwarding_cfg
                  m3 world_after_m2))
    = (trace world_after_m2 ++ added)%list
    /\ (length (sendmails added) <= 1)%nat
    /\ forall sender recipients content,
         In (EvSmtpSendmail sender recipients content) added ->
         sender = SMTP_FROM forwarding_cfg
         /\ recipients = _normalize_recipients (SMTP_TO forwarding_cfg)
         /\ recipients <> []
         /\ ENABLE_SMTP_FORWARD forwarding_cfg = true
         /\ exists before authorization,
              mime_response (reference_env growing_mailbox)
                (before ++ [EvGetMime (mime_url forwarding_cfg m3) authorization])
              = Ok content.
Proof.
  apply (forward_relays_fetched_content (reference_env growing_mailbox)
           forwarding_cfg m3 world_after_m2).
Defined.

(** ** What a cycle lets through *)

Lemma interrupt_is_no_exception e :
  is_KeyboardInterrupt e = true -> is_Exception e = false.
Proof. unfold is_KeyboardInterrupt, is_Exception. now destruct (exn_cls e). Qed.

(** X18: Ctrl+C is never swallowed.  In every environment, what a cycle or
    the forwarder raises is never an [Exception]: those are all handled
    inside.  A [KeyboardInterrupt] that reaches the query, on the other
    hand, leaves the cycle unhandled, and when that happens in the first
    cycle [main] prints the shutdown report, counting that check and no
    e-mail, and exits with code 0. *)
Theorem interrupt_leaves_the_cycle env cfg :
  raises_only (fun e => negb (is_Exception e)) (check_for_new_emails env cfg)
  /\ (forall msg,
         raises_only (fun e => negb (is_Exception e))
                     (forward_message env cfg msg))
  /\ (forall w e w1,
         get_new_messages env cfg "inbox" 50 w = (Raise e, w1) ->
         is_KeyboardInterrupt e = true ->
         check_for_new_emails env cfg w = (Raise e, w1))
  /\ (forall w e w1 fuel,
         get_new_messages env cfg "inbox" 50 (cycle_start (main_start w))
         = (Raise e, w1) ->
         is_KeyboardInterrupt e = true ->
         main env cfg (S fuel) w
         = (Some 0,
            emitted w1 [EvPrint OutMonitorStopped;
                        EvPrint (OutTotalChecks 1);
                        EvPrint (OutTotalNewEmails 0)])).
Proof.
  assert (Hcycle : forall w e w1,
             get_new_messages env cfg "inbox" 50 w = (Raise e, w1) ->
             is_KeyboardInterrupt e = true ->
             check_for_new_emails env cfg w = (Raise e, w1)).
  { intros w e w1 Hq Hk. rewrite check_for_new_emails_eq, Hq.
    now rewrite (interrupt_is_no_exception e Hk). }
  split; [| split; [| split]].
  - unfold check_for_new_emails. apply try_except_lets_through.
    intros e. apply never_raises_bind; [apply never_raises_print |].
    intros _. apply never_raises_ret.
  - intros msg. unfold forward_message. cbv zeta.
    destruct (negb (ENABLE_SMTP_FORWARD cfg) || (SMTP_HOST cfg =? "")%string
              || is_empty (_normalize_recipients (SMTP_TO cfg)));
      [apply raises_only_ret |].
    destruct (negb (truthy (msg_id msg))); [apply raises_only_ret |].
    apply raises_only_bind.
    + unfold try_get_message_mime. apply try_except_lets_through.
      intros e. apply never_raises_bind; [apply never_raises_print |].
      intros _. apply never_raises_ret.
    + intros [mime |]; [| apply raises_only_ret].
      unfold try_smtp_forward. apply try_except_lets_through.
      intros e. apply never_raises_print.
  - exact Hcycle.
  - intros w e w1 fuel Hq Hk.
    pose proof (Hcycle _ _ _ Hq Hk) as Hrun.
    pose proof (counters_check_for_new_emails env cfg
                  (cycle_start (main_start w))) as [Hrc Hnc].
    rewrite Hrun in Hrc, Hnc. cbn [snd] in Hrc, Hnc.
    transitivity
      (Some 0,
       emitted w1 [EvPrint OutMonitorStopped;
                   EvPrint (OutTotalChecks (run_count w1));
                   EvPrint (OutTotalNewEmails (new_emails_count w1))]).
    + unfold main. rewrite main_prologue. unfold try_except, bind at 1.
      rewrite main_loop_iteration, Hrun, Hk. reflexivity.
    + rewrite Hrc, Hnc. reflexivity.
Qed.

(** The process is stopped while the first cycle saves its cursor. *)
Lemma interrupt_leaves_the_cycle_witness :
  check_for_new_emails (stopped_during_dump_env (fun _ => [m2; m1]))
    forwarding_cfg fresh_world
  = (Raise stopped,
     snd (get_new_messages (stopped_during_dump_env (fun _ => [m2; m1]))
            forwarding_cfg "inbox" 50 fresh_world)).
Proof.
  apply (proj1 (proj2 (proj2 (interrupt_leaves_the_cycle
                                (stopped_during_dump_env (fun _ => [m2; m1]))
                                forwarding_cfg)))).
  - vm_compute. reflexivity.
  - reflexivity.
Defined.

(** ** A query with nothing new *)

(** X19: a query that finds nothing new is read-only.  When
    [get_new_messages] returns the empty list, the tracking file is exactly
    as it was (it is not rewritten), and after the token check and the
    loading of the cursor the only effect is the listing request itself. *)
Theorem empty_query_writes_nothing env cfg folder limit w w1 :
  get_new_messages env cfg folder limit w = (Ok [], w1) ->
  tracking_file w1 = tracking_file w
  /\ exists w0 cursor wl,
       ensure_access_token env cfg w = (Ok tt, w0)
       /\ load_last_email_timestamp env w0 = (Ok cursor, wl)
       /\ w1 = emitted wl [listing_request cfg folder limit (fst cursor) wl].
Proof.
  intros Hq.
  pose proof (get_new_messages_run env cfg folder limit w) as Hrun.
  rewrite Hq in Hrun. cbn [fst snd] in Hrun.
  inversion Hrun as
    [ | | | w0 cursor wl response He0 Hl w2 Hresp Hdrop | | ]; subst.
  pose proof (file_same_run _ _ _ _ (file_same_ensure_access_token env cfg) He0)
    as Hf0.
  pose proof (file_same_run _ _ _ _ (load_file_same env) Hl) as Hfl.
  split.
  - subst w2. rewrite emitted_file. unfold file_same in *. congruence.
  - exists w0, cursor, wl. auto.
Qed.

(** The cursor is at [m2] and nothing has arrived since. *)
Lemma empty_query_writes_nothing_witness :
  let run := get_new_messages (reference_env (fun _ => [m2; m1])) forwarding_cfg
               "inbox" 50 world_after_m2 in
  tracking_file (snd run) = tracking_file world_after_m2
  /\ exists w0 cursor wl,
       ensure_access_token (reference_env (fun _ => [m2; m1])) forwarding_cfg
         world_after_m2 = (Ok tt, w0)
       /\ load_last_email_timestamp (reference_env (fun _ => [m2; m1])) w0
          = (Ok cursor, wl)
       /\ snd run
          = emitted wl [listing_request forwarding_cfg "inbox" 50 (fst cursor) wl].
Proof.
  cbv zeta.
  apply (empty_query_writes_nothing (reference_env (fun _ => [m2; m1]))
           forwarding_cfg "inbox" 50 world_after_m2).
  vm_compute. reflexivity.
Defined.
